(** * Marching squares with pthreads: a shallow embedding of [tema1_par.c]

    The development follows the source file top to bottom: the C [double]
    arithmetic of [thread_get_slice], the four stage functions
    ([init_cmap], [rescale_image], [sample_grid], [march]), the stages of
    [worker] run one after the other over the thread ordinals, and the
    lock/barrier skeleton of [worker] as an interleaving transition system. *)

From Stdlib Require Import ZArith Lia Bool.
From Stdlib Require Import Floats.SpecFloat.
From stdpp Require Import base option list numbers strings pretty gmap functions.

Local Open Scope Z_scope.

(** ** Constants of [tema1_par.c] *)

Definition CONTOUR_CONFIG_COUNT : Z := 16.
Definition STEP : Z := 8.
Definition SIGMA : Z := 200.

(** ** C [double] and [long]

    [double] is IEEE 754 binary64 with round-to-nearest-even, as specified
    by the standard library's [SpecFloat] (the specification of Rocq's own
    primitive floats).  [long] is the 64-bit signed integer of LP64. *)

Module Double.

Definition prec : Z := 53.
Definition emax : Z := 1024.

Definition LONG_MIN : Z := - 2 ^ 63.
Definition LONG_MAX : Z := 2 ^ 63 - 1.

(** [(double) z] for a [long] [z]. *)
Definition of_long (z : Z) : spec_float := binary_normalize prec emax z 0 false.

Definition mul : spec_float -> spec_float -> spec_float := SFmul prec emax.
Definition div : spec_float -> spec_float -> spec_float := SFdiv prec emax.
Definition lt : spec_float -> spec_float -> bool := SFltb.

(** Magnitude of a finite double, rounded toward zero. *)
Definition trunc_mag (m : positive) (e : Z) : Z :=
  match e with
  | Zneg p => Z.pos m / 2 ^ Z.pos p
  | _ => Z.pos m * 2 ^ e
  end.

(** [(long) d]: the fractional part is discarded; the conversion of a
    NaN, an infinity or a value outside of [long] is undefined in C and
    is [None] here. *)
Definition to_long (d : spec_float) : option Z :=
  match d with
  | S754_zero _ => Some 0
  | S754_finite s m e =>
      let v := if s then - trunc_mag m e else trunc_mag m e in
      if bool_decide (LONG_MIN <= v <= LONG_MAX) then Some v else None
  | _ => None
  end.

End Double.

(** ** [thread_slice] and [thread_get_slice] *)

Record thread_slice := { slice_start : Z; slice_end : Z }.

(** [MIN(a, b)] with [a] a [double] and [b] a [long]: [b] is converted to
    [double] for the comparison and for the result. *)
Definition MIN_double_long (a : spec_float) (b : Z) : spec_float :=
  if Double.lt a (Double.of_long b) then a else Double.of_long b.

Definition thread_get_slice (tid nthreads range : Z) : option thread_slice :=
  let ratio := Double.div (Double.of_long range) (Double.of_long nthreads) in
  s ← Double.to_long (Double.mul (Double.of_long tid) ratio);
  e ← Double.to_long (MIN_double_long (Double.mul (Double.of_long (tid + 1)) ratio) range);
  Some {| slice_start := s; slice_end := e |}.

(** The contract of the range partitioner as the specification words it,
    in exact integer arithmetic. *)
Definition slice_exact (tid nthreads range : Z) : thread_slice :=
  {| slice_start := tid * range / nthreads;
     slice_end := Z.min ((tid + 1) * range / nthreads) range |}.

(** An index lies in a slice. *)
Definition in_slice (s : thread_slice) (i : Z) : Prop :=
  slice_start s <= i < slice_end s.

#[global] Instance in_slice_dec s i : Decision (in_slice s i).
Proof. unfold in_slice. apply _. Defined.

(** The slices of all the ordinals [0 .. nthreads-1]. *)
Definition all_slices (nthreads range : Z) : list (option thread_slice) :=
  (fun tid => thread_get_slice tid nthreads range) <$> seqZ 0 nthreads.

(** The slices of the [nthreads] ordinals tile [[0, range)]: they exist,
    each ends where the next begins, no index lies in two of them, and
    the indices that lie in one are those of the range. *)
Definition slices_tile (nthreads range : Z) : Prop :=
  exists sl : list thread_slice,
    all_slices nthreads range = Some <$> sl /\
    (forall k s s', sl !! k = Some s -> sl !! S k = Some s' ->
                    slice_end s = slice_start s') /\
    (forall k k' s s' i, k <> k' -> sl !! k = Some s -> sl !! k' = Some s' ->
                         in_slice s i -> ~ in_slice s' i) /\
    (forall i, 0 <= i < range <-> exists s, s ∈ sl /\ in_slice s i).

(** ** Pixel buffers

    Modelled from the spec: [helpers.h], which declares [ppm_pixel] and
    [ppm_image], is not among the sources.  The pixel is the RGB triple of
    bytes that [rescale_image] builds from a [uint8_t sample[3]] and whose
    fields [red], [green], [blue] the stages read; the image has the
    dimensions [x] and [y] and the row-major buffer [data] that
    [sample_grid] and [march_update] index as [data[a * y + b]]. *)
Record ppm_pixel := { red : Z; green : Z; blue : Z }.

(** Modelled from the spec: see [ppm_pixel]. *)
Record ppm_image := { x : Z; y : Z; data : list ppm_pixel }.

#[global] Instance ppm_pixel_eq_dec : EqDecision ppm_pixel.
Proof. solve_decision. Defined.

#[global] Instance ppm_image_eq_dec : EqDecision ppm_image.
Proof. solve_decision. Defined.

(** ** Arrays and loops

    An array access outside of the allocated object is undefined in C; the
    embedding reports it as [None]. *)

Definition load {A} (l : list A) (i : Z) : option A :=
  if bool_decide (0 <= i) then l !! Z.to_nat i else None.

Definition store {A} (l : list A) (i : Z) (v : A) : option (list A) :=
  if bool_decide (0 <= i < Z.of_nat (length l))
  then Some (<[Z.to_nat i := v]> l) else None.

Fixpoint for_each {St} (l : list Z) (body : Z -> St -> option St) (s : St) : option St :=
  match l with
  | [] => Some s
  | i :: l' => s' ← body i s; for_each l' body s'
  end.

(** [for (long i = lo; i < hi; ++i) body] *)
Definition for_loop {St} (lo hi : Z) (body : Z -> St -> option St) (s : St) : option St :=
  for_each (seqZ lo (hi - lo)) body s.

(** ** The binary grid

    [unsigned char **grid]: a backbone of column pointers, each either not
    yet assigned ([None]) or pointing to a column of bytes, each byte
    either never stored to since [malloc] ([None]) or holding a value. *)

Abbreviation column := (list (option Z)).
Abbreviation grid_t := (list (option column)).

(** [grid[i] = malloc(n * sizeof(unsigned char))] *)
Definition grid_malloc (grid : grid_t) (i n : Z) : option grid_t :=
  store grid i (Some (replicate (Z.to_nat n) None)).

(** [grid[i][j] = v] *)
Definition grid_store (grid : grid_t) (i j v : Z) : option grid_t :=
  col ← mjoin (load grid i);
  col' ← store col j (Some v);
  store grid i (Some col').

(** What the memory of cell [(i, j)] holds: [None] when nothing was
    stored there. *)
Definition grid_cell (grid : grid_t) (i j : Z) : option Z :=
  col ← mjoin (load grid i); mjoin (load col j).

(** ** Stage functions *)

(** [curr_col = (red + green + blue) / 3], an [unsigned char]. *)
Definition curr_col (curr_pix : ppm_pixel) : Z :=
  ((red curr_pix + green curr_pix + blue curr_pix) `quot` 3) `mod` 256.

(** [curr_col <= SIGMA] as the [unsigned char] that is stored. *)
Definition below_sigma (curr_pix : ppm_pixel) : Z :=
  if bool_decide (curr_col curr_pix <= SIGMA) then 1 else 0.

Definition sample_grid (grid : grid_t) (image : ppm_image) (tid nthreads : Z)
  : option grid_t :=
  let p := x image `quot` STEP in
  let q := y image `quot` STEP in
  slice ← thread_get_slice tid nthreads p;
  grid ← for_loop (slice_start slice) (slice_end slice) (fun i grid =>
    grid ← grid_malloc grid i (q + 1);
    curr_pix ← load (data image) (i * STEP * y image + x image - 1);
    grid ← grid_store grid i q (below_sigma curr_pix);
    for_loop 0 q (fun j grid =>
      curr_pix ← load (data image) (i * STEP * y image + j * STEP);
      grid_store grid i j (below_sigma curr_pix)) grid) grid;
  (* Task reserved for the thread having the last slice of the range *)
  if bool_decide (tid = nthreads - 1) then
    grid ← grid_malloc grid p (q + 1);
    for_loop 0 q (fun j grid =>
      curr_pix ← load (data image) ((x image - 1) * y image + j * STEP);
      grid_store grid p j (below_sigma curr_pix)) grid
  else Some grid.

(** The conversion of a [long] to the [int] [idx_i]. *)
Definition int_of_long (z : Z) : Z := (z + 2 ^ 31) `mod` 2 ^ 32 - 2 ^ 31.

Definition march_update (image c : ppm_image) (x0 y0 : Z) : option ppm_image :=
  for_loop 0 (x c) (fun i image =>
    for_loop 0 (y c) (fun j image =>
      let idx_c := x c * i + j in
      let idx_i := int_of_long ((x0 + i) * y image + y0 + j) in
      pc ← load (data c) idx_c;
      d ← store (data image) idx_i
            {| red := red pc; green := green pc; blue := blue pc |};
      Some {| x := x image; y := y image; data := d |}) image) image.

Section Stages.

(** The byte that a read of a never-stored cell [grid[i][j]] yields.  C
    leaves it indeterminate; [None] makes such a read an error. *)
Variable junk : Z -> Z -> option Z.

(** [grid[i][j]] as an rvalue. *)
Definition grid_load (grid : grid_t) (i j : Z) : option Z :=
  col ← mjoin (load grid i);
  cell ← load col j;
  match cell with
  | Some v => Some v
  | None => junk i j
  end.

(** The configuration index [k] of the cell [(i, j)], an [unsigned char]. *)
Definition config_index (grid : grid_t) (i j : Z) : option Z :=
  g00 ← grid_load grid i j;
  g01 ← grid_load grid i (j + 1);
  g11 ← grid_load grid (i + 1) (j + 1);
  g10 ← grid_load grid (i + 1) j;
  Some ((8 * g00 + 4 * g01 + 2 * g11 + g10) `mod` 256).

Definition march (image : ppm_image) (grid : grid_t)
    (cmap : list (option ppm_image)) (tid nthreads : Z) : option ppm_image :=
  let p := x image `quot` STEP in
  let q := y image `quot` STEP in
  slice ← thread_get_slice tid nthreads p;
  for_loop (slice_start slice) (slice_end slice) (fun i image =>
    for_loop 0 q (fun j image =>
      k ← config_index grid i j;
      c ← mjoin (load cmap k);
      march_update image c (i * STEP) (j * STEP)) image) image.

End Stages.

(** The strict reading of the indeterminate bytes: reading one is an error. *)
Definition no_junk : Z -> Z -> option Z := fun _ _ => None.

(** ** C [float], for the coordinates handed to the resampler *)

Module Single.

Definition prec : Z := 24.
Definition emax : Z := 128.

(** [(float) z] for an integer [z]. *)
Definition of_long (z : Z) : spec_float := binary_normalize prec emax z 0 false.

Definition div : spec_float -> spec_float -> spec_float := SFdiv prec emax.

End Single.

(** ** The shared context and the memory it points into *)

(** Addresses of the [ppm_image] objects that [image] and [scaled] point to. *)
Abbreviation loc := nat.

Record thread_data_shared := {
  image : option loc;                       (* NULL is [None] *)
  scaled : option loc;
  cmap : option (list (option ppm_image));  (* 16 glyph pointers *)
  grid : option grid_t;
  nthreads : Z;
  filename_in : string;
  filename_out : string;
  finished : Z
}.

(** The shared context together with the image objects on the heap and the
    image files that [read_ppm] reads and [write_ppm] writes. *)
Record world := {
  shared : thread_data_shared;
  heap : gmap loc ppm_image;
  disk : gmap string ppm_image
}.

Definition set_shared (w : world) (sh : thread_data_shared) : world :=
  {| shared := sh; heap := heap w; disk := disk w |}.

Definition set_heap (w : world) (h : gmap loc ppm_image) : world :=
  {| shared := shared w; heap := h; disk := disk w |}.

Definition set_images (sh : thread_data_shared) (i s : option loc) :=
  {| image := i; scaled := s; cmap := cmap sh; grid := grid sh;
     nthreads := nthreads sh; filename_in := filename_in sh;
     filename_out := filename_out sh; finished := finished sh |}.

Definition set_cmap (sh : thread_data_shared) (c : option (list (option ppm_image))) :=
  {| image := image sh; scaled := scaled sh; cmap := c; grid := grid sh;
     nthreads := nthreads sh; filename_in := filename_in sh;
     filename_out := filename_out sh; finished := finished sh |}.

Definition set_grid (sh : thread_data_shared) (g : option grid_t) :=
  {| image := image sh; scaled := scaled sh; cmap := cmap sh; grid := g;
     nthreads := nthreads sh; filename_in := filename_in sh;
     filename_out := filename_out sh; finished := finished sh |}.

Definition set_finished (sh : thread_data_shared) (f : Z) :=
  {| image := image sh; scaled := scaled sh; cmap := cmap sh; grid := grid sh;
     nthreads := nthreads sh; filename_in := filename_in sh;
     filename_out := filename_out sh; finished := f |}.

(** [calloc(1, sizeof( *shared))] followed by the three assignments of [main]. *)
Definition main_shared (arg_in arg_out : string) (arg_nthreads : Z) : thread_data_shared :=
  {| image := None; scaled := None; cmap := None; grid := None;
     nthreads := arg_nthreads; filename_in := arg_in;
     filename_out := arg_out; finished := 0 |}.

(** The image codec: [read_ppm] decodes the named file (the process ends
    when it cannot) and [write_ppm] stores the image under the name. *)
Definition read_ppm (d : gmap string ppm_image) (filename : string) : option ppm_image :=
  d !! filename.

Definition write_ppm (d : gmap string ppm_image) (img : ppm_image) (filename : string)
  : gmap string ppm_image :=
  <[filename := img]> d.

(** [sprintf(filename, "./contours/%ld.ppm", i)] *)
Definition contour_filename (i : Z) : string :=
  "./contours/" +:+ pretty i +:+ ".ppm".

Definition init_cmap (d : gmap string ppm_image) (cmap : list (option ppm_image))
    (tid nthreads : Z) : option (list (option ppm_image)) :=
  slice ← thread_get_slice tid nthreads CONTOUR_CONFIG_COUNT;
  for_loop (slice_start slice) (slice_end slice) (fun i cmap =>
    c ← read_ppm d (contour_filename i);
    store cmap i (Some c)) cmap.

Section Worker.

(** Declared in [helpers.h], which is not among the sources: the target
    resolution and the resampler. *)
Variable RESCALE_X RESCALE_Y : Z.
Variable sample_bicubic : ppm_image -> spec_float -> spec_float -> ppm_pixel.

(** Indeterminate contents of freshly allocated memory: a grid byte (see
    [grid_load]), an [int] and a pixel. *)
Variable junk : Z -> Z -> option Z.
Variable junk_int : Z.
Variable junk_pixel : ppm_pixel.

(** [image->x <= RESCALE_X && image->y <= RESCALE_Y] *)
Definition fits (img : ppm_image) : Prop :=
  x img <= RESCALE_X /\ y img <= RESCALE_Y.

Definition rescale_image (h : gmap loc ppm_image) (image scaled : loc)
    (tid nthreads : Z) : option (gmap loc ppm_image) :=
  img ← h !! image;
  if bool_decide (fits img) then Some h
  else
    sc ← h !! scaled;
    let h := <[scaled := {| x := RESCALE_X; y := RESCALE_Y; data := data sc |}]> h in
    slice ← thread_get_slice tid nthreads (RESCALE_X * RESCALE_Y);
    for_loop (slice_start slice) (slice_end slice) (fun i h =>
      img ← h !! image;
      sc ← h !! scaled;
      let sample :=
        sample_bicubic img
          (Single.div (Single.of_long (i `quot` RESCALE_Y)) (Single.of_long (RESCALE_X - 1)))
          (Single.div (Single.of_long (i `rem` RESCALE_Y)) (Single.of_long (RESCALE_Y - 1))) in
      d ← store (data sc) i sample;
      Some (<[scaled := {| x := x sc; y := y sc; data := d |}]> h)) h.

(** The body guarded by [LOCK_IMAGE_READ]. *)
Definition once_image_read (w : world) : option world :=
  match image (shared w) with
  | Some _ => Some w
  | None =>
      img ← read_ppm (disk w) (filename_in (shared w));
      let l := fresh (dom (heap w)) in
      let h := <[l := img]> (heap w) in
      if bool_decide (fits img) then
        Some {| shared := set_images (shared w) (Some l) (Some l);
                heap := h; disk := disk w |}
      else
        let l' := fresh (dom h) in
        let sc := {| x := junk_int; y := junk_int;
                     data := replicate (Z.to_nat (RESCALE_X * RESCALE_Y)) junk_pixel |} in
        Some {| shared := set_images (shared w) (Some l) (Some l');
                heap := <[l' := sc]> h; disk := disk w |}
  end.

(** The body guarded by [LOCK_CMAP_ALLOC]. *)
Definition once_cmap_alloc (w : world) : world :=
  match cmap (shared w) with
  | Some _ => w
  | None =>
      set_shared w (set_cmap (shared w)
        (Some (replicate (Z.to_nat CONTOUR_CONFIG_COUNT) None)))
  end.

(** The body guarded by [LOCK_GRID_ALLOC]. *)
Definition once_grid_alloc (w : world) : option world :=
  match grid (shared w) with
  | Some _ => Some w
  | None =>
      l ← scaled (shared w);
      sc ← heap w !! l;
      Some (set_shared w (set_grid (shared w)
        (Some (replicate (Z.to_nat (x sc `quot` STEP + 1)) None))))
  end.

(** The body guarded by [LOCK_WRITE]. *)
Definition once_write (w : world) : option world :=
  if bool_decide (finished (shared w) = 0) then
    l ← scaled (shared w);
    sc ← heap w !! l;
    Some {| shared := set_finished (shared w) 1; heap := heap w;
            disk := write_ppm (disk w) sc (filename_out (shared w)) |}
  else Some w.

(** [worker], cut at its barriers: what one thread does between two
    rendezvous. *)
Definition worker_alloc (tid : Z) (w : world) : option world :=
  w ← once_image_read w;
  Some (once_cmap_alloc w).

Definition worker_rescale (tid : Z) (w : world) : option world :=
  i ← image (shared w);
  s ← scaled (shared w);
  h ← rescale_image (heap w) i s tid (nthreads (shared w));
  Some (set_heap w h).

Definition worker_cmap_init (tid : Z) (w : world) : option world :=
  w ← once_grid_alloc w;
  c ← cmap (shared w);
  c' ← init_cmap (disk w) c tid (nthreads (shared w));
  Some (set_shared w (set_cmap (shared w) (Some c'))).

Definition worker_sample_grid (tid : Z) (w : world) : option world :=
  g ← grid (shared w);
  l ← scaled (shared w);
  sc ← heap w !! l;
  g' ← sample_grid g sc tid (nthreads (shared w));
  Some (set_shared w (set_grid (shared w) (Some g'))).

Definition worker_march (tid : Z) (w : world) : option world :=
  g ← grid (shared w);
  c ← cmap (shared w);
  l ← scaled (shared w);
  sc ← heap w !! l;
  sc' ← march junk sc g c tid (nthreads (shared w));
  Some (set_heap w (<[l := sc']> (heap w))).

Definition worker_write (tid : Z) (w : world) : option world :=
  once_write w.

(** One stage of the pipeline: every thread runs its part, and the
    barrier that follows lets nobody continue before all have.  The
    threads are taken in the order of their ordinals. *)
Definition stage (part : Z -> world -> option world) (w : world) : option world :=
  for_loop 0 (nthreads (shared w)) part w.

(** The whole run of the pool. *)
Definition run_workers (w : world) : option world :=
  w ← stage worker_alloc w;       (* BARRIER_CMAP_AND_IMAGE_ALLOC *)
  w ← stage worker_rescale w;     (* BARRIER_RESCALE_IMAGE *)
  w ← stage worker_cmap_init w;   (* BARRIER_CMAP_INIT_AND_GRID_ALLOC *)
  w ← stage worker_sample_grid w; (* BARRIER_SAMPLE_GRID *)
  w ← stage worker_march w;       (* BARRIER_MARCH *)
  stage worker_write w.

(** [main]: the output image file, if the run gets to write it. *)
Definition pipeline (d : gmap string ppm_image) (arg_in arg_out : string)
    (arg_nthreads : Z) : option ppm_image :=
  w ← run_workers {| shared := main_shared arg_in arg_out arg_nthreads;
                     heap := ∅; disk := d |};
  disk w !! arg_out.

(** The grid-sampling stage on its own: all the threads, from the
    backbone that [once_grid_alloc] leaves. *)
Definition sample_stage (nthreads : Z) (image : ppm_image) : option grid_t :=
  for_loop 0 nthreads (fun tid grid => sample_grid grid image tid nthreads)
    (replicate (Z.to_nat (x image `quot` STEP + 1)) None).

End Worker.

(** ** Predicates used in the statements *)

(** The sign bit of a double, [false] for a NaN. *)
Definition sign_bit (f : spec_float) : bool :=
  match f with
  | S754_zero s | S754_infinity s | S754_finite s _ _ => s
  | S754_nan => false
  end.


(** Where [march_update image c x0 y0] puts the glyph pixel [(a, b)]. *)
Definition dest (image : ppm_image) (x0 y0 a b : Z) : Z :=
  (x0 + a) * y image + y0 + b.

(** The pixel [(a, b)] of the glyph [c] is in place in [img]. *)
Definition copied (image c : ppm_image) (x0 y0 : Z) (img : ppm_image) (a b : Z) : Prop :=
  exists pc, load (data c) (x c * a + b) = Some pc /\
             load (data img) (dest image x0 y0 a b) = Some pc.

(** The state of [march_update] before the glyph pixel [(i, j)] is handled:
    the pixels before it are in place, what lies outside of the glyph's
    footprint is as in [image]. *)
Definition copy_inv (image c : ppm_image) (x0 y0 i j : Z) (img : ppm_image) : Prop :=
  x img = x image /\ y img = y image /\
  (forall a b, 0 <= a -> 0 <= b < y c -> a < i \/ (a = i /\ b < j) ->
               copied image c x0 y0 img a b) /\
  (forall idx, (forall a b, 0 <= a < x c -> 0 <= b < y c -> idx <> dest image x0 y0 a b) ->
               load (data img) idx = load (data image) idx).

(** A glyph is square and no larger than a cell. *)
Definition glyph_ok (oc : option ppm_image) : Prop :=
  match oc with
  | Some c => 0 <= x c /\ x c = y c /\ y c <= STEP
  | None => True
  end.

#[global] Instance glyph_ok_dec oc : Decision (glyph_ok oc).
Proof. destruct oc; apply _. Defined.

(** The glyph of the cell [(i, j)] is in place in [img]. *)
Definition stamped (junk : Z -> Z -> option Z) (image : ppm_image) (grid : grid_t)
    (cmap : list (option ppm_image)) (img : ppm_image) (i j : Z) : Prop :=
  exists k c,
    config_index junk grid i j = Some k /\
    load cmap k = Some (Some c) /\
    forall a b, 0 <= a < x c -> 0 <= b < y c ->
      exists pc, load (data c) (x c * a + b) = Some pc /\
                 load (data img) ((i * STEP + a) * y image + j * STEP + b) = Some pc.

(** The state of [march] before the cell [(i, j)] is handled, for a slice
    that starts at [lo]. *)
Definition march_inv (junk : Z -> Z -> option Z) (image : ppm_image) (grid : grid_t)
    (cmap : list (option ppm_image)) (lo i j : Z) (img : ppm_image) : Prop :=
  x img = x image /\ y img = y image /\
  forall i' j', lo <= i' -> 0 <= j' < y image `quot` STEP ->
    i' < i \/ (i' = i /\ j' < j) ->
    stamped junk image grid cmap img i' j'.

(** The pixel that the specification calls [(a, b)]. *)
Definition pixel_at (image : ppm_image) (a b : Z) : option ppm_pixel :=
  load (data image) (a * y image + b).

(** ** Scenarios *)

Definition gray (v : Z) : ppm_pixel := {| red := v; green := v; blue := v |}.

(** A [w] by [h] image of one gray level. *)
Definition solid (w h v : Z) : ppm_image :=
  {| x := w; y := h; data := replicate (Z.to_nat (w * h)) (gray v) |}.

(** Sixteen 8 by 8 glyphs that differ from one another: glyph [k] is of
    the gray level [100 + k]. *)
Definition contours : gmap string ppm_image :=
  list_to_map ((fun k => (contour_filename k, solid STEP STEP (100 + k)))
                 <$> seqZ 0 CONTOUR_CONFIG_COUNT).

(** The glyph table once every file is decoded. *)
Definition full_cmap : list (option ppm_image) :=
  (fun k => Some (solid STEP STEP (100 + k))) <$> seqZ 0 CONTOUR_CONFIG_COUNT.

(** The program run on [img] with the target resolution 2048 by 2048. *)
Definition run_on (junk : Z -> Z -> option Z) (img : ppm_image) (nthreads : Z)
  : option ppm_image :=
  pipeline 2048 2048 (fun _ _ _ => gray 0) junk 0 (gray 0)
    (<["in.ppm" := img]> contours) "in.ppm" "out.ppm" nthreads.

(** An 8 by 16 image, black but for the white pixel [(0, 7)]. *)
Definition tall_image : ppm_image :=
  {| x := 8; y := 16; data := <[7%nat := gray 255]> (replicate 128 (gray 0)) |}.

(** Uninitialised grid bytes that all read as [v]. *)
Definition junk_const (v : Z) : Z -> Z -> option Z := fun _ _ => Some v.

(** A [w] by [h] image whose pixel [(a, b)] has the gray level that
    [level] gives to its cell [(a / STEP, b / STEP)]. *)
Definition cells_image (w h : Z) (level : Z -> Z -> Z) : ppm_image :=
  {| x := w; y := h;
     data := (fun idx => gray (level ((idx `quot` h) `quot` STEP) ((idx `rem` h) `quot` STEP)))
               <$> seqZ 0 (w * h) |}.



(** A glyph whose buffer holds all of its [x * y] pixels. *)
Definition glyph_full (oc : option ppm_image) : Prop :=
  match oc with
  | Some c => Z.of_nat (length (data c)) = x c * y c
  | None => True
  end.

#[global] Instance glyph_full_dec oc : Decision (glyph_full oc).
Proof. destruct oc; simpl; apply _. Defined.

(** ** The locks and barriers of [worker]

    The synchronisation skeleton of [worker] as a program of atomic steps,
    run by [T] threads in an arbitrary interleaving.  What the stages
    compute is left out here; the sections above have it. *)

Module Sync.

Local Open Scope nat_scope.

Inductive lock :=
  LOCK_CMAP_ALLOC | LOCK_IMAGE_READ | LOCK_GRID_ALLOC | LOCK_WRITE.

Inductive barrier :=
  BARRIER_CMAP_AND_IMAGE_ALLOC | BARRIER_CMAP_INIT_AND_GRID_ALLOC
| BARRIER_SAMPLE_GRID | BARRIER_RESCALE_IMAGE | BARRIER_MARCH.

(** What the guarded bodies assign: the fields of the shared context,
    and the output file that [write_ppm] produces. *)
Inductive field :=
  F_image | F_scaled | F_cmap | F_grid | F_finished | F_output.

(** The per-slice work between two rendezvous. *)
Inductive work := W_rescale_image | W_init_cmap | W_sample_grid | W_march.

Inductive instr :=
| Lock (l : lock)                (* pthread_mutex_lock *)
| Unlock (l : lock)              (* pthread_mutex_unlock *)
| IfNull (f : field) (body : nat) (* if (!f) { the next [body] instructions } *)
| Assign (f : field)             (* f = ...; *)
| Arrive (b : barrier)           (* pthread_barrier_wait: the call *)
| Leave (b : barrier)            (* pthread_barrier_wait: the return *)
| Work (w : work).

#[global] Instance lock_eq_dec : EqDecision lock.
Proof. solve_decision. Defined.
#[global] Instance barrier_eq_dec : EqDecision barrier.
Proof. solve_decision. Defined.
#[global] Instance field_eq_dec : EqDecision field.
Proof. solve_decision. Defined.
#[global] Instance work_eq_dec : EqDecision work.
Proof. solve_decision. Defined.
#[global] Instance instr_eq_dec : EqDecision instr.
Proof. solve_decision. Defined.

(** The body of [worker], statement by statement. *)
Definition worker : list instr :=
  [ Lock LOCK_IMAGE_READ;
    IfNull F_image 2;
      Assign F_image;
      Assign F_scaled;
    Unlock LOCK_IMAGE_READ;
    Lock LOCK_CMAP_ALLOC;
    IfNull F_cmap 1;
      Assign F_cmap;
    Unlock LOCK_CMAP_ALLOC;
    Arrive BARRIER_CMAP_AND_IMAGE_ALLOC; Leave BARRIER_CMAP_AND_IMAGE_ALLOC;
    Work W_rescale_image;
    Arrive BARRIER_RESCALE_IMAGE; Leave BARRIER_RESCALE_IMAGE;
    Lock LOCK_GRID_ALLOC;
    IfNull F_grid 1;
      Assign F_grid;
    Unlock LOCK_GRID_ALLOC;
    Work W_init_cmap;
    Arrive BARRIER_CMAP_INIT_AND_GRID_ALLOC; Leave BARRIER_CMAP_INIT_AND_GRID_ALLOC;
    Work W_sample_grid;
    Arrive BARRIER_SAMPLE_GRID; Leave BARRIER_SAMPLE_GRID;
    Work W_march;
    Arrive BARRIER_MARCH; Leave BARRIER_MARCH;
    Lock LOCK_WRITE;
    IfNull F_finished 2;
      Assign F_finished;
      Assign F_output;
    Unlock LOCK_WRITE ].

(** The state of the pool: the program counter of every thread, the
    owner of every mutex, for every field the threads that have assigned
    it, in order, and the number of arrivals at every barrier. *)
Record state := {
  pc : nat -> nat;
  owner : lock -> option nat;
  inits : field -> list nat;
  arrived : barrier -> nat
}.

(** After [main] has initialised the mutexes and barriers and before any
    thread runs: [calloc] has zeroed the context. *)
Definition init_state : state :=
  {| pc := fun _ => 0; owner := fun _ => None;
     inits := fun _ => []; arrived := fun _ => 0 |}.

Definition set_pc (st : state) (t n : nat) : state :=
  {| pc := <[t := n]> (pc st); owner := owner st;
     inits := inits st; arrived := arrived st |}.

Section Pool.

(** Whether the work [w] of the thread [t] returns.  A stage function
    that runs into undefined behaviour (an access outside of a buffer, a
    read through a pointer that nobody has set: [None] in the functions
    above) does not: the thread goes no further.  In C the whole process
    ends there; the steps that the other threads could still take up to
    the next barrier are kept here, which only adds states. *)
Variable returns : nat -> work -> bool.

(** One atomic step of thread [t] in a pool of [T] threads; [None] when
    the thread is blocked, has returned, or is at a work statement that
    does not return. *)
Definition step (T t : nat) (st : state) : option state :=
  let n := pc st t in
  match worker !! n with
  | Some (Lock l) =>
      match owner st l with
      | None => Some {| pc := <[t := S n]> (pc st);
                        owner := <[l := Some t]> (owner st);
                        inits := inits st; arrived := arrived st |}
      | Some _ => None
      end
  | Some (Unlock l) =>
      Some {| pc := <[t := S n]> (pc st);
              owner := <[l := None]> (owner st);
              inits := inits st; arrived := arrived st |}
  | Some (IfNull f body) =>
      Some (set_pc st t (if decide (inits st f = []) then S n else S n + body))
  | Some (Assign f) =>
      Some {| pc := <[t := S n]> (pc st); owner := owner st;
              inits := <[f := inits st f ++ [t]]> (inits st);
              arrived := arrived st |}
  | Some (Arrive b) =>
      Some {| pc := <[t := S n]> (pc st); owner := owner st;
              inits := inits st;
              arrived := <[b := S (arrived st b)]> (arrived st) |}
  | Some (Leave b) =>
      if decide (arrived st b = T) then Some (set_pc st t (S n)) else None
  | Some (Work w) => if returns t w then Some (set_pc st t (S n)) else None
  | None => None
  end.

(** The states that some interleaving of the [T] threads reaches. *)
Inductive reachable (T : nat) : state -> Prop :=
| reachable_init : reachable T init_state
| reachable_step st t st' :
    reachable T st -> t < T -> step T t st = Some st' -> reachable T st'.

(** A schedule, as the list of the thread that moves at each step. *)
Fixpoint run (T : nat) (sched : list nat) (st : state) : option state :=
  match sched with
  | [] => Some st
  | t :: sched' =>
      if decide (t < T) then st' ← step T t st; run T sched' st' else None
  end.

End Pool.

(** A run in which every work statement returns. *)
Definition all_return : nat -> work -> bool := fun _ _ => true.

(** Positions in [worker]. *)
Definition index_of (P : instr -> Prop) `{!forall i, Decision (P i)} : nat :=
  default 0 (fst <$> list_find P worker).

(** The lock around the assignment of a field and the field that its
    [if] tests. *)
Definition guard_of (f : field) : lock :=
  match f with
  | F_image | F_scaled => LOCK_IMAGE_READ
  | F_cmap => LOCK_CMAP_ALLOC
  | F_grid => LOCK_GRID_ALLOC
  | F_finished | F_output => LOCK_WRITE
  end.

Definition sentinel (f : field) : field :=
  match f with
  | F_scaled => F_image
  | F_output => F_finished
  | _ => f
  end.

Definition is_test (f : field) (i : instr) : Prop :=
  match i with IfNull g _ => g = f | _ => False end.

#[global] Instance is_test_dec f i : Decision (is_test f i).
Proof. destruct i; simpl; apply _. Defined.

(** A thread at [n] holds [l]. *)
Definition holds (n : nat) (l : lock) : bool :=
  (index_of (eq (Lock l)) <? n) && (n <=? index_of (eq (Unlock l))).

(** A thread at [n] has found the sentinel of [f] unset and has not yet
    assigned [f]. *)
Definition before_init (n : nat) (f : field) : bool :=
  (index_of (is_test (sentinel f)) <? n) && (n <=? index_of (eq (Assign f))).

(** A thread at [n] is past the assignment of [f]. *)
Definition after_init (n : nat) (f : field) : bool :=
  index_of (eq (Assign f)) <? n.

(** The invariant of the pool. *)
Record inv (T : nat) (st : state) : Prop := {
  inv_own : forall l t, owner st l = Some t <-> holds (pc st t) l = true;
  inv_before : forall f t, before_init (pc st t) f = true -> inits st f = [];
  inv_after : forall f t, after_init (pc st t) f = true -> inits st f <> [];
  inv_once : forall f, length (inits st f) <= 1;
  inv_who : forall f t, t ∈ inits st f -> t < T;
  inv_order : forall f, inits st f <> [] -> inits st (sentinel f) <> [];
  inv_partial : forall f, inits st (sentinel f) <> [] -> inits st f = [] ->
                          exists t, before_init (pc st t) f = true
}.

(** A schedule of two threads that runs both to the end. *)
Definition two_thread_schedule : list nat :=
  replicate 10 0 ++ replicate 7 1 ++
  replicate 3 0 ++ replicate 3 1 ++
  replicate 7 0 ++ replicate 6 1 ++
  replicate 3 0 ++ replicate 3 1 ++
  replicate 3 0 ++ replicate 3 1 ++
  replicate 6 0 ++ replicate 4 1.

(** The state at the end of that schedule. *)
Definition final_state : state :=
  default init_state (run all_return 2 two_thread_schedule init_state).

End Sync.

(** ** Barriers and progress of the pool *)

Module Pool.
Import Sync.

Local Open Scope nat_scope.

(** A thread at [n] has called [pthread_barrier_wait] on [b]. *)
Definition past (n : nat) (b : barrier) : bool :=
  index_of (eq (Arrive b)) <? n.

(** A thread at [n] has returned from [pthread_barrier_wait] on [b]. *)
Definition released (n : nat) (b : barrier) : bool :=
  index_of (eq (Leave b)) <? n.

(** The threads of the pool that have called [pthread_barrier_wait] on [b]. *)
Definition callers (T : nat) (pcs : nat -> nat) (b : barrier) : list nat :=
  filter (fun t => past (pcs t) b = true) (seq 0 T).

(** The statements that the threads of the pool have executed between them,
    counting a skipped guarded body as executed. *)
Definition progress (T : nat) (pcs : nat -> nat) : nat :=
  sum_list (pcs <$> seq 0 T).

(** A thread at [n] is past its work [w]. *)
Definition worked (n : nat) (w : work) : bool :=
  index_of (eq (Work w)) <? n.

(** What the barriers and the thread count add to the invariant of the
    pool: a barrier has counted the threads that have called it, every
    thread is inside of [worker], and only the threads of the pool move. *)
Record barrier_inv (T : nat) (st : state) : Prop := {
  inv_arrived : forall b, arrived st b = length (callers T (pc st) b);
  inv_inside : forall t, pc st t <= length worker;
  inv_pool : forall t, T <= t -> pc st t = 0
}.

(** A run in which [sample_grid] of the thread 1 does not return. *)
Definition sample_dies : nat -> work -> bool :=
  fun t w => negb (bool_decide (t = 1 /\ w = W_sample_grid)).

(** A schedule of two threads that runs both as far as they get when the
    thread 1 is to die in [sample_grid]: the thread 0 waits at the barrier
    that follows. *)
Definition dying_schedule : list nat :=
  replicate 10 0 ++ replicate 7 1 ++
  replicate 3 0 ++ replicate 3 1 ++
  replicate 7 0 ++ replicate 6 1 ++
  [1] ++ replicate 3 0.

Definition dead_state : state :=
  default init_state (run sample_dies 2 dying_schedule init_state).

(** A schedule of three threads in which the thread 0 runs up to the
    first barrier and the thread 1 takes the first lock. *)
Definition three_thread_prefix : list nat := replicate 10 0 ++ [1].

Definition waiting_state : state :=
  default init_state (run all_return 3 three_thread_prefix init_state).

End Pool.

(** ** Doubles that hold a value without rounding *)

(** The zero bits that bring the mantissa [n] to 53 digits. *)
Definition pad (n : positive) : nat := Z.to_nat (53 - Z.pos (digits2_pos n)).

(** The double of the value [n * 2 ^ e], for [n] below [2 ^ 53]. *)
Definition dyadic (n : positive) (e : Z) : spec_float :=
  S754_finite false (Nat.iter (pad n) xO n) (e - Z.of_nat (pad n)).

(** ** Stages on their own *)

(** The glyph-loading stage: all the threads, from the table that
    [once_cmap_alloc] leaves. *)
Definition cmap_stage (d : gmap string ppm_image) (nthreads : Z)
  : option (list (option ppm_image)) :=
  for_loop 0 nthreads (fun tid cmap => init_cmap d cmap tid nthreads)
    (replicate (Z.to_nat CONTOUR_CONFIG_COUNT) None).

(** The glyph files are all there. *)
Definition glyphs_on_disk (d : gmap string ppm_image) : Prop :=
  forall i, 0 <= i < CONTOUR_CONFIG_COUNT -> is_Some (d !! contour_filename i).

(** A list of slices that starts at [lo], in which each slice ends where
    the next one begins, and that ends at [hi]. *)
Fixpoint chain (lo hi : Z) (sl : list thread_slice) : bool :=
  match sl with
  | [] => bool_decide (lo = hi)
  | s :: sl' =>
      bool_decide (slice_start s = lo) && bool_decide (lo <= slice_end s)
      && chain (slice_end s) hi sl'
  end.

(** The slices of the [nthreads] ordinals exist and chain from 0 to [range]. *)
Definition tiles_b (nthreads range : Z) : bool :=
  match mapM id (all_slices nthreads range) with
  | Some sl => chain 0 range sl
  | None => false
  end.

Section RescaleDefs.
Variable RESCALE_X RESCALE_Y : Z.
Variable sample_bicubic : ppm_image -> spec_float -> spec_float -> ppm_pixel.

(** The pixel that [rescale_image] stores at the index [i] of the scaled
    buffer. *)
Definition resampled (img : ppm_image) (i : Z) : ppm_pixel :=
  sample_bicubic img
    (Single.div (Single.of_long (i `quot` RESCALE_Y)) (Single.of_long (RESCALE_X - 1)))
    (Single.div (Single.of_long (i `rem` RESCALE_Y)) (Single.of_long (RESCALE_Y - 1))).

End RescaleDefs.

(** ** The sampled grid, column by column *)

(** An image of positive dimensions, its width that of an [int], whose
    buffer holds its [x * y] pixels. *)
Definition image_ok (image : ppm_image) : Prop :=
  1 <= x image < 2 ^ 31 /\ 1 <= y image /\
  Z.of_nat (length (data image)) = x image * y image.

(** Column [i] of the grid is allocated with [Q + 1] bytes and holds what
    [sample_grid] stores in it. *)
Definition column_is (image : ppm_image) (grid : grid_t) (i : Z) : Prop :=
  exists col,
    load grid i = Some (Some col) /\
    Z.of_nat (length col) = y image `quot` STEP + 1 /\
    (forall j, 0 <= j < y image `quot` STEP ->
       exists px, load (data image) (i * STEP * y image + j * STEP) = Some px /\
                  load col j = Some (Some (below_sigma px))) /\
    exists px, load (data image) (i * STEP * y image + x image - 1) = Some px /\
               load col (y image `quot` STEP) = Some (Some (below_sigma px)).

(** Column [P] of the grid is allocated with [Q + 1] bytes, holds what
    [sample_grid] stores in it, and nothing in its last byte. *)
Definition last_column_is (image : ppm_image) (grid : grid_t) : Prop :=
  exists col,
    load grid (x image `quot` STEP) = Some (Some col) /\
    Z.of_nat (length col) = y image `quot` STEP + 1 /\
    (forall j, 0 <= j < y image `quot` STEP ->
       exists px, load (data image) ((x image - 1) * y image + j * STEP) = Some px /\
                  load col j = Some (Some (below_sigma px))) /\
    load col (y image `quot` STEP) = Some None.

(** The whole grid is as the sampling stage leaves it. *)
Definition grid_is (image : ppm_image) (grid : grid_t) : Prop :=
  Z.of_nat (length grid) = x image `quot` STEP + 1 /\
  (forall i, 0 <= i < x image `quot` STEP -> column_is image grid i) /\
  last_column_is image grid.

(** The reads of [data[i * STEP * y + x - 1]] for the columns [lo <= i < hi]
    stay inside of the buffer. *)
Definition edge_in_bounds (image : ppm_image) (lo hi : Z) : Prop :=
  forall i, lo <= i < hi -> i * STEP * y image + x image - 1 < x image * y image.

(** ** State transformers that commute *)

(** On the states that satisfy [P], running [a] and then [b] is running
    [b] and then [a]: the same final state, or a failure both ways. *)
Definition commutes {St} (P : St -> Prop) (a b : St -> option St) : Prop :=
  forall s, P s -> a s ≫= b = b s ≫= a.

(** [a] keeps [P]. *)
Definition preserves {St} (P : St -> Prop) (a : St -> option St) : Prop :=
  forall s s', P s -> a s = Some s' -> P s'.

(** An image of the dimensions of [image]. *)
Definition same_dims (image img : ppm_image) : Prop :=
  x img = x image /\ y img = y image.

(** The body of the inner loop of [march_update]: the copy of the glyph
    pixel [(i, j)]. *)
Definition put (c : ppm_image) (x0 y0 i j : Z) (image : ppm_image) : option ppm_image :=
  let idx_c := x c * i + j in
  let idx_i := int_of_long ((x0 + i) * y image + y0 + j) in
  pc ← load (data c) idx_c;
  d ← store (data image) idx_i
        {| red := red pc; green := green pc; blue := blue pc |};
  Some {| x := x image; y := y image; data := d |}.

(** The body of the inner loop of [march]: the stamp of the cell [(i, j)]. *)
Definition stamp (junk : Z -> Z -> option Z) (grid : grid_t)
    (cmap : list (option ppm_image)) (i j : Z) (image : ppm_image) : option ppm_image :=
  k ← config_index junk grid i j;
  c ← mjoin (load cmap k);
  march_update image c (i * STEP) (j * STEP).

(** ** More scenarios *)

(** A heap with a 4 by 4 black image at the address 0 and a buffer of 4
    pixels at the address 1. *)
Definition small_heap : gmap loc ppm_image :=
  <[0%nat := solid 4 4 0]>
    (<[1%nat := {| x := 0; y := 0; data := replicate 4 (gray 0) |}]> ∅).

(** Two threads about to rescale the image of [small_heap] to 2 by 2. *)
Definition rescale_world : world :=
  {| shared := set_images (main_shared "in.ppm" "out.ppm" 2) (Some 0%nat) (Some 1%nat);
     heap := small_heap; disk := ∅ |}.

(** A resampler that returns the top left pixel of the image. *)
Definition sample_first (img : ppm_image) (_ _ : spec_float) : ppm_pixel :=
  default (gray 0) (data img !! 0%nat).

(** The grid of the 16 by 16 black image, with a 0 in the corner. *)
Definition black_grid : grid_t :=
  [Some [Some 1; Some 1; Some 1]; Some [Some 1; Some 1; Some 1];
   Some [Some 1; Some 1; Some 0]].

(** ** What a part of [worker] leaves alone *)

(** Neither the files nor the fields of the context that [main] and the
    guarded write set have changed from [w] to [w']. *)
Definition kept (w w' : world) : Prop :=
  disk w' = disk w /\
  finished (shared w') = finished (shared w) /\
  filename_out (shared w') = filename_out (shared w) /\
  nthreads (shared w') = nthreads (shared w).

Definition quiet (part : Z -> world -> option world) : Prop :=
  forall tid w w', part tid w = Some w' -> kept w w'.

(** ** The loops of the threads, one after the other *)

(** The loop [for (i = start; i < end; ++i) body] of each slice in turn. *)
Fixpoint for_slices {St} (sl : list thread_slice) (body : Z -> St -> option St) (s : St)
  : option St :=
  match sl with
  | [] => Some s
  | s0 :: sl' => for_loop (slice_start s0) (slice_end s0) body s ≫= for_slices sl' body
  end.

(** The marching stage on its own: all the threads, in the order of their
    ordinals. *)
Definition march_stage (junk : Z -> Z -> option Z) (nthreads : Z) (image : ppm_image)
    (grid : grid_t) (cmap : list (option ppm_image)) : option ppm_image :=
  for_loop 0 nthreads (fun tid img => march junk img grid cmap tid nthreads) image.

(** ** The image that the grid is sampled from *)

Section TargetDefs.
Variable RESCALE_X RESCALE_Y : Z.
Variable sample_bicubic : ppm_image -> spec_float -> spec_float -> ppm_pixel.

(** The scaled buffer once every pixel of it is resampled. *)
Definition rescaled (img : ppm_image) : ppm_image :=
  {| x := RESCALE_X; y := RESCALE_Y;
     data := resampled RESCALE_X RESCALE_Y sample_bicubic img
               <$> seqZ 0 (RESCALE_X * RESCALE_Y) |}.

(** What [scaled] points to after the rescale stage: the decoded image
    itself when it fits, its resampling otherwise. *)
Definition target (img : ppm_image) : ppm_image :=
  if bool_decide (fits RESCALE_X RESCALE_Y img) then img else rescaled img.

End TargetDefs.

(** The glyph files are all there, each a square image no larger than a
    cell that holds all of its pixels. *)
Definition glyph_files_ok (d : gmap string ppm_image) : Prop :=
  forall i, 0 <= i < CONTOUR_CONFIG_COUNT ->
    exists c, d !! contour_filename i = Some c /\
              glyph_ok (Some c) /\ glyph_full (Some c).

(** ** Scenarios of whole runs *)

(** The glyph files and the 16 by 16 black image as the input. *)
Definition small_disk : gmap string ppm_image :=
  <["in.ppm" := solid 16 16 0]> contours.

(** The context as [main] hands it to the threads. *)
Definition small_world (T : Z) : world :=
  {| shared := main_shared "in.ppm" "out.ppm" T; heap := ∅; disk := small_disk |}.

(** The grid of the 16 by 16 black image as the sampling stage leaves it:
    nothing is stored in the corner. *)
Definition black_sampled : grid_t :=
  [Some [Some 1; Some 1; Some 1]; Some [Some 1; Some 1; Some 1];
   Some [Some 1; Some 1; None]].

(** A world with a 4 by 4 input, to be decoded for a 2 by 2 target. *)
Definition large_world : world :=
  {| shared := main_shared "in.ppm" "out.ppm" 2; heap := ∅;
     disk := <["in.ppm" := solid 4 4 0]> ∅ |}.

(** ** Scenarios of the marching stage *)

(** A grid of [p + 1] columns of [q + 1] bytes, all of them 1. *)
Definition ones_grid (p q : Z) : grid_t :=
  replicate (Z.to_nat (p + 1)) (Some (replicate (Z.to_nat (q + 1)) (Some 1))).

(** A glyph of 2 rows of 3 pixels, of the gray levels 10 to 15 in the
    order of the buffer. *)
Definition wide_glyph : ppm_image :=
  {| x := 2; y := 3; data := gray <$> [10; 11; 12; 13; 14; 15] |}.


(** * Proofs *)

(** ** Rounding in [SpecFloat] *)

Lemma digits2_pos_bounds (m : positive) :
  2 ^ (Z.pos (digits2_pos m) - 1) <= Z.pos m < 2 ^ Z.pos (digits2_pos m).
Proof.
  induction m as [m IH|m IH|]; simpl digits2_pos.
  - rewrite Pos2Z.inj_succ, Z.pow_succ_r by lia.
    replace (Z.succ (Z.pos (digits2_pos m)) - 1) with (Z.succ (Z.pos (digits2_pos m) - 1)) by lia.
    rewrite Z.pow_succ_r by lia. lia.
  - rewrite Pos2Z.inj_succ, Z.pow_succ_r by lia.
    replace (Z.succ (Z.pos (digits2_pos m)) - 1) with (Z.succ (Z.pos (digits2_pos m) - 1)) by lia.
    rewrite Z.pow_succ_r by lia. lia.
  - simpl. lia.
Qed.

Lemma iter_pos_nat {A} (f : A -> A) (p : positive) (a : A) :
  SpecFloat.iter_pos f p a = Nat.iter (Pos.to_nat p) f a.
Proof.
  revert a. induction p as [p IH|p IH|]; intros a; simpl SpecFloat.iter_pos.
  - rewrite !IH, Pos2Nat.inj_xI, Nat.iter_succ_r, <- Nat.iter_add. f_equal. lia.
  - rewrite !IH, Pos2Nat.inj_xO, <- Nat.iter_add. f_equal. lia.
  - reflexivity.
Qed.

Lemma shr_1_m (r : shr_record) :
  0 <= shr_m r -> shr_m (shr_1 r) = shr_m r / 2.
Proof.
  destruct r as [m r s]. cbn [shr_m shr_1]. intros Hm.
  destruct m as [|[m|m|]|m]; cbn [shr_m]; try lia; try reflexivity.
  - apply Z.div_unique with (r := 1); lia.
  - apply Z.div_unique with (r := 0); lia.
Qed.

Lemma shr_iter_m (n : nat) (r : shr_record) :
  0 <= shr_m r -> shr_m (Nat.iter n shr_1 r) = shr_m r / 2 ^ Z.of_nat n.
Proof.
  intros Hm. induction n as [|n IH].
  - simpl. rewrite Z.div_1_r. reflexivity.
  - rewrite Nat2Z.inj_succ, Z.pow_succ_r by lia. simpl Nat.iter.
    rewrite shr_1_m; rewrite IH.
    + rewrite Z.div_div by lia. f_equal. lia.
    + apply Z.div_pos; lia.
Qed.

Lemma shr_record_of_loc_m m l : shr_m (shr_record_of_loc m l) = m.
Proof. destruct l as [|[]]; reflexivity. Qed.

Section Bounds.
Variable prec emax : Z.
Hypothesis prec_pos : 0 < prec.

(** After [shr_fexp], a positive mantissa has at most [prec] digits. *)
Lemma shr_fexp_bound (m e : Z) (l : location) (r : shr_record) (e' : Z) :
  0 <= m ->
  shr_fexp prec emax m e l = (r, e') ->
  0 <= shr_m r < 2 ^ prec.
Proof.
  intros Hm. unfold shr_fexp, shr.
  destruct m as [|m|m]; [| |lia].
  - simpl Zdigits2. destruct (fexp prec emax (0 + e) - e) eqn:Hn; intros [= <- <-].
    + rewrite shr_record_of_loc_m. split; [lia|]. apply Z.pow_pos_nonneg; lia.
    + rewrite iter_pos_nat, shr_iter_m, shr_record_of_loc_m by (rewrite shr_record_of_loc_m; lia).
      rewrite Z.div_0_l by lia. split; [lia|]. apply Z.pow_pos_nonneg; lia.
    + rewrite shr_record_of_loc_m. split; [lia|]. apply Z.pow_pos_nonneg; lia.
  - simpl Zdigits2. pose proof (digits2_pos_bounds m) as [_ Hd].
    set (d := Z.pos (digits2_pos m)) in *.
    assert (Hfexp : d - prec <= fexp prec emax (d + e) - e) by (unfold fexp; lia).
    destruct (fexp prec emax (d + e) - e) as [|n|n] eqn:Hn; intros [= <- <-].
    + rewrite shr_record_of_loc_m. split; [lia|].
      eapply Z.lt_le_trans; [exact Hd|]. apply Z.pow_le_mono_r; lia.
    + rewrite iter_pos_nat, shr_iter_m, shr_record_of_loc_m by (rewrite shr_record_of_loc_m; lia).
      rewrite positive_nat_Z. split; [apply Z.div_pos; lia|].
      apply Z.div_lt_upper_bound; [lia|].
      destruct (Z_le_gt_dec (Z.pos n) d) as [Hle|Hgt].
      * rewrite <- Z.pow_add_r by lia.
        eapply Z.lt_le_trans; [exact Hd|]. apply Z.pow_le_mono_r; lia.
      * eapply Z.lt_le_trans; [exact Hd|].
        transitivity (2 ^ Z.pos n * 1); [rewrite Z.mul_1_r; apply Z.pow_le_mono_r; lia|].
        apply Z.mul_le_mono_nonneg_l; [lia|].
        assert (0 < 2 ^ prec) by (apply Z.pow_pos_nonneg; lia). lia.
    + rewrite shr_record_of_loc_m. split; [lia|].
      eapply Z.lt_le_trans; [exact Hd|]. apply Z.pow_le_mono_r; lia.
Qed.

Lemma round_nearest_even_nonneg m l : 0 <= m -> 0 <= round_nearest_even m l.
Proof. destruct l as [|[]]; simpl; try lia. destruct (Z.even m); lia. Qed.

(** The result of a rounding: never negative when [s] is not, and with a
    mantissa below [2 ^ prec]. *)
Lemma binary_round_aux_finite s m e l s' m' e' :
  0 <= m ->
  binary_round_aux prec emax s m e l = S754_finite s' m' e' ->
  s' = s /\ Z.pos m' < 2 ^ prec.
Proof.
  intros Hm. unfold binary_round_aux.
  destruct (shr_fexp prec emax m e l) as [r1 e1] eqn:H1.
  destruct (shr_fexp prec emax _ e1 loc_Exact) as [r2 e2] eqn:H2.
  apply shr_fexp_bound in H1; [|done].
  apply shr_fexp_bound in H2; [|apply round_nearest_even_nonneg; lia].
  destruct (shr_m r2) as [|m2|m2] eqn:Hr2; [done| |done].
  destruct (e2 <=? emax - prec); intros [= <- <- <-]. split; [done|lia].
Qed.
End Bounds.

Lemma pos_iter_xO (p s : positive) :
  Z.pos (Pos.iter xO p s) = Z.pos p * 2 ^ Z.pos s /\
  Z.pos (digits2_pos (Pos.iter xO p s)) = Z.pos (digits2_pos p) + Z.pos s.
Proof.
  induction s as [|s [IH1 IH2]] using Pos.peano_ind.
  - simpl. split; lia.
  - rewrite Pos.iter_succ, Pos2Z.inj_succ, Z.pow_succ_r by lia.
    cbn [digits2_pos]. rewrite Pos2Z.inj_xO, Pos2Z.inj_succ, IH1, IH2. split; lia.
Qed.

Lemma binary_round_aux_canonical (s : bool) (m : positive) (e : Z) :
  Z.pos (digits2_pos m) = Double.prec ->
  emin Double.prec Double.emax <= e <= Double.emax - Double.prec ->
  binary_round_aux Double.prec Double.emax s (Z.pos m) e loc_Exact = S754_finite s m e.
Proof.
  intros Hd He. unfold binary_round_aux.
  assert (Hid : forall m', m' = Z.pos m ->
            shr_fexp Double.prec Double.emax m' e loc_Exact
            = ({| shr_m := Z.pos m; shr_r := false; shr_s := false |}, e)).
  { intros m' ->. unfold shr_fexp. cbn [Zdigits2]. rewrite Hd.
    replace (fexp Double.prec Double.emax (Double.prec + e) - e) with 0
      by (unfold fexp; lia).
    reflexivity. }
  rewrite (Hid _ eq_refl). cbn [shr_m loc_of_shr_record round_nearest_even].
  rewrite (Hid _ eq_refl). cbn [shr_m].
  destruct (Z.leb_spec e (Double.emax - Double.prec)); [reflexivity|lia].
Qed.

(** A [long] below [2 ^ 53] converts to [double] without rounding. *)
Lemma of_long_exact (r : Z) :
  0 < r < 2 ^ 53 ->
  exists (m : positive) (e : Z),
    Double.of_long r = S754_finite false m e /\
    e <= 0 /\ Z.pos m = r * 2 ^ (- e) /\ 2 ^ 52 <= Z.pos m /\
    Z.pos (digits2_pos m) = 53 /\ -52 <= e.
Proof.
  intros Hr. destruct r as [|p|p]; [lia| |lia].
  unfold Double.of_long, binary_normalize, binary_round.
  pose proof (digits2_pos_bounds p) as [Hlo Hhi].
  set (d := Z.pos (digits2_pos p)) in *.
  assert (Hd : 1 <= d <= 53).
  { split; [lia|]. destruct (Z_le_gt_dec d 53) as [?|Hgt]; [done|].
    assert (2 ^ 53 <= 2 ^ (d - 1)) by (apply Z.pow_le_mono_r; lia). lia. }
  replace (fexp Double.prec Double.emax (d + 0)) with (d - 53)
    by (unfold fexp, emin, Double.prec, Double.emax; lia).
  unfold shl_align. destruct (d - 53 - 0) as [|n|n] eqn:Hn; [|lia|].
  - rewrite binary_round_aux_canonical
      by (unfold emin, Double.prec, Double.emax; fold d; lia).
    exists p, 0. split; [done|]. split; [done|]. split; [simpl; lia|].
    split; [|fold d; lia].
    replace (d - 1) with 52 in Hlo by lia. done.
  - destruct (pos_iter_xO p n) as [Hv Hdg].
    rewrite binary_round_aux_canonical
      by (unfold emin, Double.prec, Double.emax; fold d in Hdg; lia).
    exists (Pos.iter xO p n), (d - 53). split; [done|]. split; [lia|].
    replace (- (d - 53)) with (Z.pos n) by lia. split; [done|].
    split; [|fold d in Hdg; lia].
    rewrite Hv. replace 52 with ((d - 1) + Z.pos n) by lia.
    rewrite Z.pow_add_r by lia. apply Z.mul_le_mono_nonneg_r; [|done].
    apply Z.pow_nonneg; lia.
Qed.

Lemma to_long_of_long (r : Z) :
  0 <= r < 2 ^ 53 -> Double.to_long (Double.of_long r) = Some r.
Proof.
  intros Hr. destruct (decide (r = 0)) as [->|Hnz]; [reflexivity|].
  destruct (of_long_exact r) as (m & e & -> & He & Hm & _ & _ & _); [lia|].
  unfold Double.to_long, Double.trunc_mag.
  assert (Hmag : match e with
                 | Z.neg p => Z.pos m / 2 ^ Z.pos p
                 | _ => Z.pos m * 2 ^ e
                 end = r).
  { destruct e as [|e|e]; [simpl in Hm; lia|lia|].
    simpl in Hm. rewrite Hm. apply Z.div_mul.
    assert (0 < 2 ^ Z.pos e) by (apply Z.pow_pos_nonneg; lia). lia. }
  rewrite Hmag, bool_decide_true; [done|].
  unfold Double.LONG_MIN, Double.LONG_MAX. lia.
Qed.

Lemma binary_round_aux_sign prec emax m e l :
  sign_bit (binary_round_aux prec emax false m e l) = false.
Proof.
  unfold binary_round_aux.
  destruct (shr_fexp prec emax m e l) as [r1 e1].
  destruct (shr_fexp prec emax _ e1 loc_Exact) as [r2 e2].
  destruct (shr_m r2); [done| |done]. destruct (e2 <=? emax - prec); done.
Qed.

Lemma of_long_sign (z : Z) : 0 <= z -> sign_bit (Double.of_long z) = false.
Proof.
  intros Hz. destruct z as [|p|p]; [done| |lia].
  unfold Double.of_long, binary_normalize, binary_round.
  destruct (shl_align _ _ _). apply binary_round_aux_sign.
Qed.

Lemma mul_sign (a b : spec_float) :
  sign_bit a = false -> sign_bit b = false -> sign_bit (Double.mul a b) = false.
Proof.
  destruct a as [[]|[]| |[] ma ea], b as [[]|[]| |[] mb eb]; try done.
  intros _ _. apply binary_round_aux_sign.
Qed.

Lemma div_sign (a b : spec_float) :
  sign_bit a = false -> sign_bit b = false -> sign_bit (Double.div a b) = false.
Proof.
  destruct a as [[]|[]| |[] ma ea], b as [[]|[]| |[] mb eb]; try done.
  intros _ _. unfold Double.div, SFdiv.
  destruct (SFdiv_core_binary _ _ _ _ _ _) as [[mz ez] lz].
  apply binary_round_aux_sign.
Qed.

Lemma mul_mantissa (a b : spec_float) s m e :
  Double.mul a b = S754_finite s m e -> Z.pos m < 2 ^ 53.
Proof.
  destruct a as [sa|sa| |sa ma ea], b as [sb|sb| |sb mb eb]; try done.
  unfold Double.mul, SFmul. intros H.
  apply binary_round_aux_finite in H; [|done..]. apply H.
Qed.

Lemma trunc_mag_nonneg m e : 0 <= Double.trunc_mag m e.
Proof.
  unfold Double.trunc_mag. destruct e as [|e|e].
  - lia.
  - assert (0 < 2 ^ Z.pos e) by (apply Z.pow_pos_nonneg; lia). lia.
  - apply Z.div_pos; [lia|]. apply Z.pow_pos_nonneg; lia.
Qed.

Lemma to_long_nonneg (f : spec_float) (v : Z) :
  sign_bit f = false -> Double.to_long f = Some v -> 0 <= v.
Proof.
  destruct f as [s|s| |s m e]; try done.
  - intros _ [= <-]. done.
  - simpl. intros -> H. case_bool_decide; [|done].
    injection H as <-. apply trunc_mag_nonneg.
Qed.

(** A double that compares below [(double) r] truncates to at most [r]. *)
Lemma lt_of_long_to_long (a : spec_float) (r v : Z) :
  0 <= r < 2 ^ 53 ->
  (forall s m e, a = S754_finite s m e -> Z.pos m < 2 ^ 53) ->
  Double.lt a (Double.of_long r) = true ->
  Double.to_long a = Some v ->
  v <= r.
Proof.
  intros Hr Hm Hlt Hv.
  destruct a as [s|s| |s m e]; [injection Hv as <-; lia|done|done|].
  specialize (Hm _ _ _ eq_refl). simpl in Hv. case_bool_decide; [|done].
  injection Hv as <-. pose proof (trunc_mag_nonneg m e) as Hnn.
  destruct s; [lia|].
  destruct (decide (r = 0)) as [->|Hnz]; [done|].
  destruct (of_long_exact r) as (m2 & e2 & Hb & He2 & Hm2 & Hnorm & _ & _); [lia|].
  rewrite Hb in Hlt. unfold Double.lt, SFltb, SFcompare in Hlt.
  assert (H2 : 0 < 2 ^ (- e2)) by (apply Z.pow_pos_nonneg; lia).
  destruct (Z.compare_spec e e2) as [->|Hlt'|Hgt]; [| |done].
  - assert (Hmm : Z.pos m < Z.pos m2).
    { change (Pos.compare_cont Eq m m2) with (Pos.compare m m2) in Hlt.
      destruct (Pos.compare_spec m m2); [done|lia|done]. }
    unfold Double.trunc_mag.
    destruct e2 as [|e2|e2];
      [change (- 0) with 0 in *; rewrite Z.pow_0_r in *; lia|lia|].
    change (- Z.neg e2) with (Z.pos e2) in *.
    apply Z.lt_succ_r, Z.div_lt_upper_bound; [lia|]. nia.
  - unfold Double.trunc_mag. destruct e as [|e|e]; [lia|lia|].
    apply Z.lt_succ_r, Z.div_lt_upper_bound; [apply Z.pow_pos_nonneg; lia|].
    assert (Hpow : 2 * 2 ^ (- e2) <= 2 ^ Z.pos e).
    { replace (Z.pos e) with (Z.succ (- e2 + (Z.pos e + e2 - 1))) by lia.
      rewrite Z.pow_succ_r, Z.pow_add_r by lia.
      assert (1 <= 2 ^ (Z.pos e + e2 - 1)) by (apply Z.lt_pred_le, Z.pow_pos_nonneg; lia).
      nia. }
    nia.
Qed.

Lemma thread_get_slice_end_le (tid nthreads range : Z) (s : thread_slice) :
  0 <= range < 2 ^ 53 ->
  thread_get_slice tid nthreads range = Some s ->
  slice_end s <= range.
Proof.
  intros Hr. unfold thread_get_slice, MIN_double_long. intros H.
  apply bind_Some in H as (st & _ & H). apply bind_Some in H as (en & Hen & [= <-]).
  cbn [slice_end].
  destruct (Double.lt _ _) eqn:Hlt.
  - eapply lt_of_long_to_long; [done| |exact Hlt|exact Hen].
    intros ??? Hfin. eapply mul_mantissa, Hfin.
  - rewrite to_long_of_long in Hen by done. injection Hen as <-. done.
Qed.

Lemma thread_get_slice_start_nonneg (tid nthreads range : Z) (s : thread_slice) :
  0 <= tid -> 0 <= nthreads -> 0 <= range ->
  thread_get_slice tid nthreads range = Some s ->
  0 <= slice_start s.
Proof.
  intros Ht Hn Hr. unfold thread_get_slice. intros H.
  apply bind_Some in H as (st & Hst & H). apply bind_Some in H as (en & _ & [= <-]).
  cbn [slice_start]. eapply to_long_nonneg; [|exact Hst].
  apply mul_sign; [apply of_long_sign; done|].
  apply div_sign; apply of_long_sign; done.
Qed.

(** ** A single thread gets the whole range *)

Lemma shr_1_even (p : positive) :
  shr_1 {| shr_m := Z.pos p~0; shr_r := false; shr_s := false |}
  = {| shr_m := Z.pos p; shr_r := false; shr_s := false |}.
Proof. reflexivity. Qed.

Lemma shr_iter_exact (k : nat) (p : positive) :
  Nat.iter k shr_1
    {| shr_m := Z.pos (Nat.iter k xO p); shr_r := false; shr_s := false |}
  = {| shr_m := Z.pos p; shr_r := false; shr_s := false |}.
Proof.
  induction k as [|k IH]; [reflexivity|].
  change (Nat.iter (S k) xO p) with ((Nat.iter k xO p)~0)%positive.
  rewrite Nat.iter_succ_r, shr_1_even. apply IH.
Qed.

Lemma digits2_iter_xO (k : nat) (p : positive) :
  Z.pos (digits2_pos (Nat.iter k xO p)) = Z.pos (digits2_pos p) + Z.of_nat k.
Proof.
  induction k as [|k IH]; [cbn; lia|].
  change (Nat.iter (S k) xO p) with ((Nat.iter k xO p)~0)%positive.
  change (digits2_pos (Nat.iter k xO p)~0) with (Pos.succ (digits2_pos (Nat.iter k xO p))).
  rewrite Pos2Z.inj_succ, IH. lia.
Qed.

(** A mantissa of 53 digits followed by [k] zero bits rounds to itself. *)
Lemma binary_round_aux_shifted (s : bool) (m : positive) (e : Z) (k : nat) :
  Z.pos (digits2_pos m) = Double.prec ->
  emin Double.prec Double.emax <= e - Z.of_nat k ->
  e <= Double.emax - Double.prec ->
  binary_round_aux Double.prec Double.emax s (Z.pos (Nat.iter k xO m)) (e - Z.of_nat k)
    loc_Exact
  = S754_finite s m e.
Proof.
  intros Hd Hlo Hhi.
  destruct k as [|k].
  { cbn [Nat.iter]. rewrite Z.sub_0_r. apply binary_round_aux_canonical; [done|].
    cbn in Hlo. lia. }
  unfold binary_round_aux.
  assert (H1 : shr_fexp Double.prec Double.emax (Z.pos (Nat.iter (S k) xO m))
                 (e - Z.of_nat (S k)) loc_Exact
               = ({| shr_m := Z.pos m; shr_r := false; shr_s := false |}, e)).
  { unfold shr_fexp. cbn [Zdigits2]. rewrite digits2_iter_xO, Hd.
    replace (fexp Double.prec Double.emax (Double.prec + Z.of_nat (S k) + (e - Z.of_nat (S k)))
             - (e - Z.of_nat (S k))) with (Z.pos (Pos.of_succ_nat k))
      by (unfold fexp; lia).
    unfold shr. cbn [shr_record_of_loc].
    rewrite iter_pos_nat, SuccNat2Pos.id_succ, shr_iter_exact.
    f_equal. lia. }
  rewrite H1. cbn [shr_m loc_of_shr_record round_nearest_even].
  assert (H2 : shr_fexp Double.prec Double.emax (Z.pos m) e loc_Exact
               = ({| shr_m := Z.pos m; shr_r := false; shr_s := false |}, e)).
  { unfold shr_fexp. cbn [Zdigits2]. rewrite Hd.
    replace (fexp Double.prec Double.emax (Double.prec + e) - e) with 0
      by (unfold fexp; lia).
    reflexivity. }
  rewrite H2. cbn [shr_m].
  destruct (Z.leb_spec e (Double.emax - Double.prec)); [reflexivity|lia].
Qed.

Lemma div_eucl_pair (a b : Z) : Z.div_eucl a b = (a / b, a mod b).
Proof. unfold Z.div, Z.modulo. by destruct (Z.div_eucl a b). Qed.

(** Dividing a normal double by [1.0] is exact. *)
Lemma div_one (m : positive) (e : Z) :
  Z.pos (digits2_pos m) = 53 -> -52 <= e <= 0 ->
  Double.div (S754_finite false m e) (Double.of_long 1) = S754_finite false m e.
Proof.
  intros Hd He.
  change (Double.of_long 1) with (S754_finite false 4503599627370496 (-52)).
  unfold Double.div, SFdiv.
  assert (Hcore : SFdiv_core_binary Double.prec Double.emax (Z.pos m) e
                    4503599627370496 (-52)
                  = (Z.pos m~0, e - 1, loc_Exact)).
  { unfold SFdiv_core_binary. cbn [Zdigits2]. rewrite Hd.
    change (Z.pos (digits2_pos 4503599627370496)) with 53.
    replace (Z.min (fexp Double.prec Double.emax (53 + e - (53 + -52))) (e - -52))
      with (e - 1) by (unfold fexp, emin, Double.prec, Double.emax; lia).
    replace (e - -52 - (e - 1)) with 53 by lia.
    rewrite Z.shiftl_mul_pow2 by lia. rewrite div_eucl_pair.
    replace (Z.pos m * 2 ^ 53) with (Z.pos m~0 * 4503599627370496) by lia.
    rewrite Z.div_mul, Z.mod_mul by lia. reflexivity. }
  rewrite Hcore.
  change (Z.pos m~0) with (Z.pos (Nat.iter 1 xO m)).
  change (e - 1) with (e - Z.of_nat 1).
  apply binary_round_aux_shifted; [done|..];
    unfold emin, Double.prec, Double.emax; cbn; lia.
Qed.

(** Multiplying a normal double by [1.0] is exact. *)
Lemma mul_one (m : positive) (e : Z) :
  Z.pos (digits2_pos m) = 53 -> -52 <= e <= 0 ->
  Double.mul (Double.of_long 1) (S754_finite false m e) = S754_finite false m e.
Proof.
  intros Hd He.
  change (Double.of_long 1) with (S754_finite false 4503599627370496 (-52)).
  unfold Double.mul, SFmul.
  change (4503599627370496 * m)%positive with (Nat.iter 52 xO m).
  replace (-52 + e) with (e - Z.of_nat 52) by lia.
  apply binary_round_aux_shifted; [done|..];
    unfold emin, Double.prec, Double.emax; cbn; lia.
Qed.

Lemma lt_irrefl (s : bool) (m : positive) (e : Z) :
  Double.lt (S754_finite s m e) (S754_finite s m e) = false.
Proof.
  unfold Double.lt, SFltb, SFcompare.
  rewrite Z.compare_refl.
  change (Pos.compare_cont Eq m m) with (Pos.compare m m). rewrite Pos.compare_refl.
  by destruct s.
Qed.

(** With one thread the slice of the thread is the whole range. *)
Lemma thread_get_slice_single (range : Z) :
  0 <= range < 2 ^ 53 ->
  thread_get_slice 0 1 range = Some {| slice_start := 0; slice_end := range |}.
Proof.
  intros Hr. destruct (decide (range = 0)) as [->|Hnz]; [vm_compute; reflexivity|].
  destruct (of_long_exact range) as (m & e & Hx & He & _ & _ & Hd & Helo); [lia|].
  unfold thread_get_slice, MIN_double_long.
  rewrite Hx, div_one by (done || lia).
  change (Double.of_long 0) with (S754_zero false).
  change (Double.mul (S754_zero false) (S754_finite false m e)) with (S754_zero false).
  cbn [Double.to_long mbind option_bind].
  change (0 + 1) with 1. rewrite mul_one by (done || lia).
  rewrite lt_irrefl, <- Hx, to_long_of_long by done. reflexivity.
Qed.

(** ** Arrays *)

Lemma load_Some {A} (l : list A) (i : Z) (a : A) :
  load l i = Some a <-> 0 <= i /\ l !! Z.to_nat i = Some a.
Proof.
  unfold load. destruct (bool_decide_reflect (0 <= i)); [tauto|].
  split; [done|tauto].
Qed.

Lemma load_lt {A} (l : list A) (i : Z) (a : A) :
  load l i = Some a -> 0 <= i < Z.of_nat (length l).
Proof.
  intros [Hi Hl]%load_Some. apply lookup_lt_Some in Hl. lia.
Qed.

Lemma store_Some {A} (l l' : list A) (i : Z) (v : A) :
  store l i v = Some l' <->
  0 <= i < Z.of_nat (length l) /\ l' = <[Z.to_nat i := v]> l.
Proof.
  unfold store. destruct (bool_decide_reflect (0 <= i < Z.of_nat (length l))).
  - split; [intros [= <-]; done|intros [_ ->]; done].
  - split; [done|tauto].
Qed.

Lemma store_length {A} (l l' : list A) (i : Z) (v : A) :
  store l i v = Some l' -> length l' = length l.
Proof. intros [_ ->]%store_Some. apply length_insert. Qed.

Lemma load_store_eq {A} (l l' : list A) (i : Z) (v : A) :
  store l i v = Some l' -> load l' i = Some v.
Proof.
  intros [Hi ->]%store_Some. unfold load. rewrite bool_decide_true by lia.
  apply list_lookup_insert_eq. lia.
Qed.

Lemma load_store_ne {A} (l l' : list A) (i j : Z) (v : A) :
  store l i v = Some l' -> i <> j -> load l' j = load l j.
Proof.
  intros [Hi ->]%store_Some Hne. unfold load. case_bool_decide; [|done].
  apply list_lookup_insert_ne. lia.
Qed.

Lemma load_replicate {A} (n : nat) (a : A) (i : Z) :
  0 <= i < Z.of_nat n -> load (replicate n a) i = Some a.
Proof.
  intros Hi. unfold load. rewrite bool_decide_true by lia.
  apply lookup_replicate_2. lia.
Qed.

(** ** Loops *)

Lemma for_each_app {St} (l1 l2 : list Z) (body : Z -> St -> option St) (s : St) :
  for_each (l1 ++ l2) body s = for_each l1 body s ≫= for_each l2 body.
Proof.
  revert s. induction l1 as [|i l1 IH]; intros s; simpl; [done|].
  destruct (body i s) as [s'|]; simpl; [apply IH|done].
Qed.

Lemma for_loop_empty {St} (lo hi : Z) (body : Z -> St -> option St) (s : St) :
  hi <= lo -> for_loop lo hi body s = Some s.
Proof.
  intros H. unfold for_loop, seqZ. replace (Z.to_nat (hi - lo)) with 0%nat by lia. done.
Qed.

Lemma for_loop_snoc {St} (lo hi : Z) (body : Z -> St -> option St) (s : St) :
  lo <= hi ->
  for_loop lo (hi + 1) body s = for_loop lo hi body s ≫= body hi.
Proof.
  intros H. unfold for_loop.
  replace (hi + 1 - lo) with ((hi - lo) + 1) by lia.
  rewrite seqZ_app by lia. rewrite for_each_app.
  destruct (for_each _ body s) as [s1|]; [|done].
  replace (lo + (hi - lo)) with hi by lia.
  change (seqZ hi 1) with [hi]. cbn. destruct (body hi s1); done.
Qed.

(** Invariant rule: [P i] holds of the state before iteration [i]. *)
Lemma for_loop_ind {St} (P : Z -> St -> Prop) (lo hi : Z)
    (body : Z -> St -> option St) (s s' : St) :
  lo <= hi ->
  P lo s ->
  (forall i t t', lo <= i < hi -> P i t -> body i t = Some t' -> P (i + 1) t') ->
  for_loop lo hi body s = Some s' ->
  P hi s'.
Proof.
  intros Hle H0 Hstep.
  replace hi with (lo + Z.of_nat (Z.to_nat (hi - lo))) in * by lia.
  generalize dependent s'.
  induction (Z.to_nat (hi - lo)) as [|n IH]; intros s'.
  - rewrite for_loop_empty by lia. intros [= <-]. by rewrite Z.add_0_r.
  - replace (lo + Z.of_nat (S n)) with (lo + Z.of_nat n + 1) in * by lia.
    rewrite for_loop_snoc by lia.
    intros (t & Ht & Hb)%bind_Some.
    eapply Hstep; [|apply IH|exact Hb]; [lia|lia|..|exact Ht].
    intros; eapply Hstep; [lia|done..].
Qed.

(** A state property that every iteration keeps. *)
Lemma for_loop_preserves {St} (P : St -> Prop) (lo hi : Z)
    (body : Z -> St -> option St) (s s' : St) :
  P s ->
  (forall i t t', lo <= i < hi -> P t -> body i t = Some t' -> P t') ->
  for_loop lo hi body s = Some s' ->
  P s'.
Proof.
  intros H0 Hstep Hrun. destruct (Z_le_gt_dec lo hi) as [Hle|Hgt].
  - eapply (for_loop_ind (fun _ => P)); eauto.
  - rewrite for_loop_empty in Hrun by lia. by injection Hrun as <-.
Qed.

(** An iteration that fails on every state makes the loop fail. *)
Lemma for_loop_fails {St} (lo hi i : Z) (body : Z -> St -> option St) (s : St) :
  lo <= i < hi ->
  (forall t, body i t = None) ->
  for_loop lo hi body s = None.
Proof.
  intros Hi Hfail. unfold for_loop.
  assert (Hin : i ∈ seqZ lo (hi - lo)) by (apply elem_of_seqZ; lia).
  revert s. induction Hin as [i l|i j l _ IH]; intros s; simpl.
  - by rewrite Hfail.
  - destruct (body j s); simpl; [apply IH; done|done].
Qed.

(** Total-correctness rule for a loop: the invariant lets every iteration
    run. *)
Lemma for_loop_total {St} (P : Z -> St -> Prop) (lo hi : Z)
    (body : Z -> St -> option St) (s : St) :
  lo <= hi ->
  P lo s ->
  (forall i t, lo <= i < hi -> P i t -> exists t', body i t = Some t' /\ P (i + 1) t') ->
  exists s', for_loop lo hi body s = Some s' /\ P hi s'.
Proof.
  intros Hle H0 Hstep.
  replace hi with (lo + Z.of_nat (Z.to_nat (hi - lo))) in * by lia.
  induction (Z.to_nat (hi - lo)) as [|n IH].
  - rewrite for_loop_empty by lia. exists s. by rewrite Z.add_0_r.
  - destruct IH as (s1 & Hrun & HP); [lia| |].
    { intros i t Hi. apply Hstep. lia. }
    replace (lo + Z.of_nat (S n)) with (lo + Z.of_nat n + 1) in * by lia.
    destruct (Hstep (lo + Z.of_nat n) s1) as (s2 & Hb & HP2); [lia|done|].
    exists s2. rewrite for_loop_snoc, Hrun by lia. done.
Qed.

Lemma store_is_Some {A} (l : list A) (i : Z) (v : A) :
  0 <= i < Z.of_nat (length l) -> exists l', store l i v = Some l'.
Proof. intros Hi. unfold store. rewrite bool_decide_true by done. eauto. Qed.

Lemma load_is_Some {A} (l : list A) (i : Z) :
  0 <= i < Z.of_nat (length l) -> exists a, load l i = Some a.
Proof.
  intros Hi. unfold load. rewrite bool_decide_true by lia.
  apply lookup_lt_is_Some_2. lia.
Qed.

(** ** The grid *)




Lemma grid_load_no_junk (grid : grid_t) (i j : Z) :
  grid_load no_junk grid i j = grid_cell grid i j.
Proof.
  unfold grid_load, grid_cell. destruct (mjoin (load grid i)) as [col|]; cbn; [|done].
  destruct (load col j) as [[v|]|]; done.
Qed.





Section SampleCorner.
Variable image : ppm_image.
Let p := x image `quot` STEP.
Let q := y image `quot` STEP.
Hypothesis x_int : 0 <= x image < 2 ^ 31.
Hypothesis y_int : 0 <= y image.

Lemma p_range : 0 <= p < 2 ^ 53.
Proof.
  unfold p, STEP. rewrite Z.quot_div_nonneg by lia.
  split; [apply Z.div_pos; lia|].
  apply Z.div_lt_upper_bound; lia.
Qed.

Lemma q_nonneg : 0 <= q.
Proof. unfold q, STEP. rewrite Z.quot_div_nonneg by lia. apply Z.div_pos; lia. Qed.


End SampleCorner.


(** ** What the sampling stage stores *)


Section Sampling.
Variable image : ppm_image.
Let p := x image `quot` STEP.
Let q := y image `quot` STEP.
Hypothesis x_int : 0 <= x image < 2 ^ 31.
Hypothesis y_int : 0 <= y image.


End Sampling.




(** ** Stamping the glyphs *)

Lemma int_of_long_small (z : Z) : - 2 ^ 31 <= z < 2 ^ 31 -> int_of_long z = z.
Proof. intros Hz. unfold int_of_long. rewrite Z.mod_small; lia. Qed.

Lemma pixel_eta (pc : ppm_pixel) :
  {| red := red pc; green := green pc; blue := blue pc |} = pc.
Proof. by destruct pc. Qed.

(** Two buffer offsets [a * Y + r] with [r] below the row length [Y]
    coincide only when they name the same row and column. *)
Lemma offset_inj (Y a1 r1 a2 r2 : Z) :
  0 <= r1 < Y -> 0 <= r2 < Y -> a1 * Y + r1 = a2 * Y + r2 -> a1 = a2 /\ r1 = r2.
Proof. intros H1 H2 Heq. assert (a1 = a2) by nia. subst. lia. Qed.

Section MarchUpdate.
Variables (image c : ppm_image) (x0 y0 : Z).
Hypothesis x0_nonneg : 0 <= x0.
Hypothesis y0_nonneg : 0 <= y0.
Hypothesis row_fits : y0 + y c <= y image.
Hypothesis idx_int : (x0 + x c) * y image <= 2 ^ 31.

Local Abbreviation dest := (dest image x0 y0).
Local Abbreviation copied := (copied image c x0 y0).
Local Abbreviation copy_inv := (copy_inv image c x0 y0).

Lemma dest_inj (a b a' b' : Z) :
  0 <= b < y c -> 0 <= b' < y c -> dest a b = dest a' b' -> a = a' /\ b = b'.
Proof.
  unfold dest. intros Hb Hb' Heq.
  destruct (offset_inj (y image) (x0 + a) (y0 + b) (x0 + a') (y0 + b')); lia.
Qed.

Lemma copy_step (i j : Z) (img img' : ppm_image) :
  0 <= i < x c -> 0 <= j < y c ->
  copy_inv i j img ->
  (pc ← load (data c) (x c * i + j);
   d ← store (data img) (int_of_long ((x0 + i) * y img + y0 + j))
         {| red := red pc; green := green pc; blue := blue pc |};
   Some {| x := x img; y := y img; data := d |}) = Some img' ->
  copy_inv i (j + 1) img'.
Proof.
  intros Hi Hj (Hx & Hy & Hdone & Hframe).
  intros (pc & Hpc & (d & Hd & [= <-])%bind_Some)%bind_Some.
  rewrite Hy, pixel_eta in Hd. fold (dest i j) in Hd.
  rewrite int_of_long_small in Hd by (unfold dest; nia).
  split; [done|]. split; [done|]. cbn [data]. split.
  - intros a b Ha Hb Hlt.
    destruct (decide (a = i /\ b = j)) as [[-> ->]|Hne].
    + exists pc. split; [done|]. eapply load_store_eq, Hd.
    + destruct (Hdone a b) as (pa & Hpa & Hla); [lia..|].
      exists pa. split; [done|]. rewrite <- Hla.
      eapply load_store_ne; [exact Hd|].
      intros Heq. apply dest_inj in Heq; [|lia..]. lia.
  - intros idx Hidx. rewrite <- Hframe by done.
    eapply load_store_ne; [exact Hd|]. intros <-. by eapply Hidx.
Qed.

Lemma march_update_spec (image' : ppm_image) :
  0 <= x c -> 0 <= y c ->
  march_update image c x0 y0 = Some image' ->
  x image' = x image /\ y image' = y image /\
  (forall a b, 0 <= a < x c -> 0 <= b < y c -> copied image' a b) /\
  (forall idx, (forall a b, 0 <= a < x c -> 0 <= b < y c -> idx <> dest a b) ->
               load (data image') idx = load (data image) idx).
Proof.
  intros Hxc Hyc Hrun. unfold march_update in Hrun.
  assert (Hinv : copy_inv (x c) 0 image').
  { revert Hrun. apply (for_loop_ind (fun i => copy_inv i 0)); [done| |].
    - split; [done|]. split; [done|]. split; [intros; lia|done].
    - intros i t t' Hi Hinv Hrow.
      assert (Hrow' : copy_inv i (y c) t').
      { revert Hrow. apply (for_loop_ind (copy_inv i)); [done..|].
        intros j u u' Hj Hu Hbody. eapply copy_step; done. }
      destruct Hrow' as (? & ? & Hdone & ?).
      split; [done|]. split; [done|]. split; [|done].
      intros a b Ha Hb Hlt. apply Hdone; [done..|lia]. }
  destruct Hinv as (? & ? & Hdone & ?).
  split; [done|]. split; [done|]. split; [|done].
  intros a b Ha Hb. apply Hdone; lia.
Qed.
End MarchUpdate.

Lemma mjoin_load_Some {A} (l : list (option A)) (i : Z) (a : A) :
  mjoin (load l i) = Some a <-> load l i = Some (Some a).
Proof. destruct (load l i) as [[?|]|]; cbn; naive_solver. Qed.

Lemma load_Forall {A} (P : A -> Prop) (l : list A) (i : Z) (a : A) :
  Forall P l -> load l i = Some a -> P a.
Proof.
  intros HP [_ Hl]%load_Some. eapply Forall_lookup_1; done.
Qed.

Section March.
Variable junk : Z -> Z -> option Z.
Variables (image : ppm_image) (grid : grid_t) (cmap : list (option ppm_image)).
Let p := x image `quot` STEP.
Let q := y image `quot` STEP.
Hypothesis x_nonneg : 0 <= x image.
Hypothesis y_nonneg : 0 <= y image.
Hypothesis pixels_int : x image * y image <= 2 ^ 31.
Hypothesis glyphs : Forall glyph_ok cmap.

Local Abbreviation stamped := (stamped junk image grid cmap).
Local Abbreviation march_inv := (march_inv junk image grid cmap).

Lemma pq_bounds : 0 <= p /\ 0 <= q /\ STEP * p <= x image /\ STEP * q <= y image.
Proof.
  unfold p, q, STEP. rewrite !Z.quot_div_nonneg by lia.
  pose proof (Z.mul_div_le (x image) 8). pose proof (Z.mul_div_le (y image) 8).
  pose proof (Z.div_pos (x image) 8). pose proof (Z.div_pos (y image) 8). lia.
Qed.

Lemma march_step (lo i j : Z) (img img' : ppm_image) :
  0 <= lo <= i -> i < p -> 0 <= j < q ->
  march_inv lo i j img ->
  (k ← config_index junk grid i j;
   c ← mjoin (load cmap k);
   march_update img c (i * STEP) (j * STEP)) = Some img' ->
  march_inv lo i (j + 1) img'.
Proof.
  intros Hi Hip Hj (Hx & Hy & Hdone).
  intros (k & Hk & (c & Hc%mjoin_load_Some & Hup)%bind_Some)%bind_Some.
  pose proof pq_bounds as (Hp0 & Hq0 & Hpx & Hqy).
  pose proof (load_Forall _ _ _ _ glyphs Hc) as (Hxc & Hsq & Hyc). cbn in Hxc, Hsq, Hyc.
  unfold p, q, STEP in *.
  apply march_update_spec in Hup as (Hx' & Hy' & Hnew & Hframe);
    [|rewrite ?Hy; nia..].
  split; [congruence|]. split; [congruence|].
  intros i' j' Hi' Hj' Hlt. unfold STEP in Hj'.
  destruct (decide (i' = i /\ j' = j)) as [[-> ->]|Hne].
  - exists k, c. split; [done|]. split; [done|].
    intros a b Ha Hb. destruct (Hnew a b Ha Hb) as (pc & Hpc & Hl).
    exists pc. split; [done|]. unfold dest in Hl. rewrite Hy in Hl. exact Hl.
  - destruct (Hdone i' j') as (k' & c' & Hk' & Hc' & Hpix); [lia..|].
    exists k', c'. split; [done|]. split; [done|].
    intros a b Ha Hb. destruct (Hpix a b Ha Hb) as (pc & Hpc & Hl).
    exists pc. split; [done|]. rewrite <- Hl. apply Hframe.
    intros a0 b0 Ha0 Hb0. unfold dest. rewrite Hy.
    pose proof (load_Forall _ _ _ _ glyphs Hc') as (Hxc' & Hsq' & Hyc').
    cbn in Hxc', Hsq', Hyc'. unfold STEP in *.
    intros Heq.
    destruct (offset_inj (y image) (i' * 8 + a) (j' * 8 + b) (i * 8 + a0) (j * 8 + b0));
      lia.
Qed.

Lemma march_cells_stamped (tid nthreads : Z) (s : thread_slice)
    (image' : ppm_image) :
  0 <= tid -> 0 <= nthreads ->
  thread_get_slice tid nthreads p = Some s ->
  march junk image grid cmap tid nthreads = Some image' ->
  forall i j, in_slice s i -> 0 <= j < q ->
    exists g00 g01 g11 g10 c,
      grid_load junk grid i j = Some g00 /\
      grid_load junk grid i (j + 1) = Some g01 /\
      grid_load junk grid (i + 1) (j + 1) = Some g11 /\
      grid_load junk grid (i + 1) j = Some g10 /\
      load cmap ((8 * g00 + 4 * g01 + 2 * g11 + g10) `mod` 256) = Some (Some c) /\
      forall a b, 0 <= a < x c -> 0 <= b < y c ->
        exists pc, load (data c) (x c * a + b) = Some pc /\
                   load (data image') ((i * STEP + a) * y image + j * STEP + b) = Some pc.
Proof.
  intros Htid Hn Hs Hrun i j Hi Hj.
  pose proof pq_bounds as (Hp0 & Hq0 & Hpx & Hqy).
  assert (Hp53 : 0 <= p < 2 ^ 53) by (unfold STEP in *; nia).
  pose proof (thread_get_slice_end_le _ _ _ _ Hp53 Hs) as Hend.
  pose proof (thread_get_slice_start_nonneg _ _ _ _ Htid Hn Hp0 Hs) as Hstart.
  unfold march in Hrun. fold p q in Hrun. rewrite Hs in Hrun. cbn in Hrun.
  destruct Hi as [Hi1 Hi2].
  assert (Hinv : march_inv (slice_start s) (slice_end s) 0 image').
  { revert Hrun. apply (for_loop_ind (fun i => march_inv (slice_start s) i 0)); [lia| |].
    - split; [done|]. split; [done|]. intros; lia.
    - intros i0 t t' Hi0 Hinv Hrow.
      assert (Hrow' : march_inv (slice_start s) i0 q t').
      { revert Hrow. apply (for_loop_ind (march_inv (slice_start s) i0)); [done..|].
        intros j0 u u' Hj0 Hu Hbody. eapply march_step; [..|exact Hbody]; [lia..|done]. }
      destruct Hrow' as (? & ? & Hdone).
      split; [done|]. split; [done|].
      intros i' j' Hi' Hj' Hlt. apply Hdone; [done..|lia]. }
  destruct Hinv as (_ & _ & Hdone).
  destruct (Hdone i j) as (k & c & Hk & Hc & Hpix); [lia..|].
  unfold config_index in Hk.
  apply bind_Some in Hk as (g00 & H00 & Hk). apply bind_Some in Hk as (g01 & H01 & Hk).
  apply bind_Some in Hk as (g11 & H11 & Hk). apply bind_Some in Hk as (g10 & H10 & [= <-]).
  exists g00, g01, g11, g10, c. done.
Qed.
End March.

(** ** When the stamping succeeds *)

(** [march_update] runs when the glyph has all its pixels and its
    footprint lies inside of the image. *)
Lemma march_update_total (image c : ppm_image) (x0 y0 : Z) :
  0 <= x0 -> 0 <= y0 -> 0 <= x c -> x c = y c ->
  Z.of_nat (length (data c)) = x c * y c ->
  y0 + y c <= y image ->
  (x0 + x c) * y image <= Z.of_nat (length (data image)) ->
  Z.of_nat (length (data image)) <= 2 ^ 31 ->
  exists image', march_update image c x0 y0 = Some image' /\
                 length (data image') = length (data image).
Proof.
  intros Hx0 Hy0 Hxc Hsq Hlen Hrow Hfit Hint. unfold march_update.
  destruct (for_loop_total
    (fun _ img => y img = y image /\ length (data img) = length (data image))
    0 (x c)
    (fun i img => for_loop 0 (y c) (fun j img =>
       let idx_c := x c * i + j in
       let idx_i := int_of_long ((x0 + i) * y img + y0 + j) in
       pc ← load (data c) idx_c;
       d ← store (data img) idx_i {| red := red pc; green := green pc; blue := blue pc |};
       Some {| x := x img; y := y img; data := d |}) img) image)
    as (image' & Hrun & _ & Hl); [done|done| |by exists image'].
  intros i t Hi [Hy Hl].
  apply (for_loop_total
    (fun _ img => y img = y image /\ length (data img) = length (data image)));
    [lia|done|].
  intros j u Hj [Hyu Hlu]. cbn zeta.
  destruct (load_is_Some (data c) (x c * i + j)) as [pc Hpc]; [nia|].
  rewrite Hpc. cbn. rewrite Hyu.
  rewrite int_of_long_small by nia.
  destruct (store_is_Some (data u) ((x0 + i) * y image + y0 + j)
              {| red := red pc; green := green pc; blue := blue pc |}) as [d Hd];
    [rewrite Hlu; nia|].
  rewrite Hd. cbn. eexists. split; [done|]. cbn.
  split; [done|]. rewrite (store_length _ _ _ _ Hd). done.
Qed.

Section MarchTotal.
Variable junk : Z -> Z -> option Z.
Variables (image : ppm_image) (grid : grid_t) (cmap : list (option ppm_image)).
Hypothesis x_nonneg : 0 <= x image < 2 ^ 31.
Hypothesis y_nonneg : 0 <= y image.
Hypothesis pixels_int : x image * y image <= 2 ^ 31.
Hypothesis pixels_all : Z.of_nat (length (data image)) = x image * y image.
Hypothesis glyphs : Forall glyph_ok cmap.
Hypothesis glyphs_full : Forall glyph_full cmap.

(** [march] runs when every cell of the slice has its four corners and
    its glyph. *)
Lemma march_total (tid nthreads : Z) (s : thread_slice) :
  0 <= tid -> 0 <= nthreads ->
  thread_get_slice tid nthreads (x image `quot` STEP) = Some s ->
  (forall i j, in_slice s i -> 0 <= j < y image `quot` STEP ->
     exists k c, config_index junk grid i j = Some k /\ load cmap k = Some (Some c)) ->
  exists image', march junk image grid cmap tid nthreads = Some image'.
Proof.
  intros Htid Hn Hs Hcells.
  pose proof (pq_bounds image (proj1 x_nonneg) y_nonneg) as (Hp0 & Hq0 & Hpx & Hqy).
  assert (Hp53 : 0 <= x image `quot` STEP < 2 ^ 53) by (unfold STEP in *; lia).
  pose proof (thread_get_slice_end_le _ _ _ _ Hp53 Hs) as Hend.
  pose proof (thread_get_slice_start_nonneg _ _ _ _ Htid Hn Hp0 Hs) as Hstart.
  unfold march. rewrite Hs. cbn.
  destruct (Z_le_gt_dec (slice_start s) (slice_end s)) as [Hle|Hgt];
    [|rewrite for_loop_empty by lia; eauto].
  destruct (for_loop_total
    (fun _ img => y img = y image /\ length (data img) = length (data image))
    (slice_start s) (slice_end s)
    (fun i img => for_loop 0 (y image `quot` STEP) (fun j img =>
       k ← config_index junk grid i j;
       c ← mjoin (load cmap k);
       march_update img c (i * STEP) (j * STEP)) img) image)
    as (image' & Hrun & _); [done|done| |by exists image'].
  intros i t Hi Hinv.
  apply (for_loop_total
    (fun _ img => y img = y image /\ length (data img) = length (data image)));
    [lia|done|].
  intros j u Hj [Hyu Hlu].
  destruct (Hcells i j) as (k & c & Hk & Hc); [done..|].
  rewrite Hk. cbn. rewrite Hc. cbn.
  pose proof (load_Forall _ _ _ _ glyphs Hc) as (Hxc & Hsq & Hyc).
  pose proof (load_Forall _ _ _ _ glyphs_full Hc) as Hfull.
  cbn in Hxc, Hsq, Hyc, Hfull. unfold STEP in *.
  destruct (march_update_total u c (i * 8) (j * 8)) as (u' & Hu' & Hlu');
    [rewrite ?Hyu, ?Hlu; nia..|].
  exists u'. split; [done|]. split; [|congruence].
  apply march_update_spec in Hu' as (_ & Hy' & _); [congruence|rewrite ?Hyu; nia..].
Qed.
End MarchTotal.

(** X27.  For a worker [tid] of [nthreads] whose slice of the columns is
    [s], an image that holds its [x * y <= 2 ^ 31] pixels, glyphs that are
    square, no larger than a cell and complete, and a grid and a table that
    give every cell of the slice its four corners and its glyph: [march]
    returns an image [image'], and for every cell [(i, j)] with [i] in the
    slice and [0 <= j < Q] the glyph [c] is the entry of the table at
    [k = 8 * grid[i][j] + 4 * grid[i][j+1] + 2 * grid[i+1][j+1] + grid[i+1][j]]
    (as an [unsigned char]), and every pixel [(a, b)] of [c] is the pixel
    of [image'] at the offset [(i * STEP + a, j * STEP + b)], whatever
    [image] held there. *)
Theorem march_stamps_every_cell (junk : Z -> Z -> option Z) (image : ppm_image)
    (grid : grid_t) (cmap : list (option ppm_image)) (tid nthreads : Z)
    (s : thread_slice) :
  0 <= x image < 2 ^ 31 -> 0 <= y image -> x image * y image <= 2 ^ 31 ->
  Z.of_nat (length (data image)) = x image * y image ->
  Forall glyph_ok cmap -> Forall glyph_full cmap ->
  0 <= tid -> 0 <= nthreads ->
  thread_get_slice tid nthreads (x image `quot` STEP) = Some s ->
  (forall i j, in_slice s i -> 0 <= j < y image `quot` STEP ->
     exists k c, config_index junk grid i j = Some k /\ load cmap k = Some (Some c)) ->
  exists image',
    march junk image grid cmap tid nthreads = Some image' /\
    forall i j, in_slice s i -> 0 <= j < y image `quot` STEP ->
      exists g00 g01 g11 g10 c,
        grid_load junk grid i j = Some g00 /\
        grid_load junk grid i (j + 1) = Some g01 /\
        grid_load junk grid (i + 1) (j + 1) = Some g11 /\
        grid_load junk grid (i + 1) j = Some g10 /\
        load cmap ((8 * g00 + 4 * g01 + 2 * g11 + g10) `mod` 256) = Some (Some c) /\
        forall a b, 0 <= a < x c -> 0 <= b < y c ->
          exists pc, load (data c) (x c * a + b) = Some pc /\
                     load (data image') ((i * STEP + a) * y image + j * STEP + b) = Some pc.
Proof.
  intros Hx Hy Hpix Hall Hglyphs Hfull Htid Hn Hs Hcells.
  destruct (march_total junk image grid cmap Hx Hy Hpix Hall Hglyphs Hfull
              tid nthreads s Htid Hn Hs Hcells) as [image' Hrun].
  exists image'. split; [exact Hrun|].
  exact (march_cells_stamped junk image grid cmap (proj1 Hx) Hy Hpix Hglyphs
           tid nthreads s image' Htid Hn Hs Hrun).
Qed.

(** With one thread the slice is all of the columns: every cell
    [(i, j)] with [0 <= i < P] and [0 <= j < Q] is stamped. *)
Lemma march_single_thread (junk : Z -> Z -> option Z) (image : ppm_image)
    (grid : grid_t) (cmap : list (option ppm_image)) (image' : ppm_image) :
  0 <= x image -> 0 <= y image -> x image * y image <= 2 ^ 31 ->
  Forall glyph_ok cmap ->
  march junk image grid cmap 0 1 = Some image' ->
  forall i j, 0 <= i < x image `quot` STEP -> 0 <= j < y image `quot` STEP ->
    stamped junk image grid cmap image' i j.
Proof.
  intros Hx Hy Hpix Hglyphs Hrun i j Hi Hj.
  pose proof (pq_bounds image Hx Hy) as (Hp0 & Hq0 & Hpx & Hqy).
  assert (Hp53 : 0 <= x image `quot` STEP < 2 ^ 53) by (unfold STEP in *; nia).
  destruct (march_cells_stamped junk image grid cmap Hx Hy Hpix Hglyphs 0 1
              {| slice_start := 0; slice_end := x image `quot` STEP |} image'
              ltac:(lia) ltac:(lia) (thread_get_slice_single _ Hp53) Hrun i j Hi Hj)
    as (g00 & g01 & g11 & g10 & c & H00 & H01 & H11 & H10 & Hc & Hpix').
  exists ((8 * g00 + 4 * g01 + 2 * g11 + g10) `mod` 256), c.
  split; [|done]. unfold config_index. rewrite H00, H01, H11, H10. done.
Qed.

(** ** An image that already fits *)

Section SmallImage.
Variables RESCALE_X RESCALE_Y : Z.
Variable sample_bicubic : ppm_image -> spec_float -> spec_float -> ppm_pixel.
Variables (junk_int : Z) (junk_pixel : ppm_pixel).

(** [rescale_image] returns at once when the source fits. *)
Lemma rescale_image_fits (h : gmap loc ppm_image) (i s : loc) (img : ppm_image)
    (tid nthreads : Z) :
  h !! i = Some img -> fits RESCALE_X RESCALE_Y img ->
  rescale_image RESCALE_X RESCALE_Y sample_bicubic h i s tid nthreads = Some h.
Proof.
  intros Hi Hfit. unfold rescale_image. rewrite Hi. cbn.
  rewrite bool_decide_true by done. done.
Qed.

(** C8.  When the context has no image yet and the decoded image has
  [x <= RESCALE_X] and [y <= RESCALE_Y], the guarded body leaves [image]
  and [scaled] pointing to one and the same object, which is the decoded
  image, and allocates nothing else; [rescale_image] on it, and the
  rescale part of [worker], return the heap and the world unchanged for
  every [tid] and every [nthreads]. *)
Theorem small_image_is_aliased_and_not_rescaled (w : world) (img : ppm_image) :
  image (shared w) = None ->
  read_ppm (disk w) (filename_in (shared w)) = Some img ->
  x img <= RESCALE_X -> y img <= RESCALE_Y ->
  exists w' l,
    once_image_read RESCALE_X RESCALE_Y junk_int junk_pixel w = Some w' /\
    image (shared w') = Some l /\
    scaled (shared w') = Some l /\
    heap w' !! l = Some img /\
    (forall l', l' <> l -> heap w' !! l' = heap w !! l') /\
    forall tid nthreads,
      rescale_image RESCALE_X RESCALE_Y sample_bicubic (heap w') l l tid nthreads
        = Some (heap w') /\
      worker_rescale RESCALE_X RESCALE_Y sample_bicubic tid w' = Some w'.
Proof.
  intros Hnull Hread Hx Hy.
  assert (Hfit : fits RESCALE_X RESCALE_Y img) by done.
  unfold once_image_read. rewrite Hnull, Hread. cbn.
  rewrite bool_decide_true by done.
  eexists _, _. split; [reflexivity|]. cbn.
  split; [done|]. split; [done|].
  split; [apply lookup_insert_eq|].
  split; [intros l' Hne; by apply lookup_insert_ne|].
  intros tid nthreads.
  assert (Hre : forall n, rescale_image RESCALE_X RESCALE_Y sample_bicubic
            (<[fresh (dom (heap w)) := img]> (heap w))
            (fresh (dom (heap w))) (fresh (dom (heap w))) tid n
            = Some (<[fresh (dom (heap w)) := img]> (heap w))).
  { intros n. eapply rescale_image_fits; [apply lookup_insert_eq|done]. }
  split; [apply Hre|].
  unfold worker_rescale. cbn. rewrite Hre. done.
Qed.
End SmallImage.

(** ** The range partitioner on concrete ranges *)

Example slices_8_16 :
  all_slices 8 16 =
  (fun '(a, b) => Some {| slice_start := a; slice_end := b |}) <$>
    [(0,2); (2,4); (4,6); (6,8); (8,10); (10,12); (12,14); (14,16)].
Proof. vm_compute. reflexivity. Qed.

(** C1.  The claim fails on the code for 7 threads and a range of 61:
    the slices of the ordinals 0 to 6 are [0,8) [8,17) [17,26) [26,34)
    [34,43) [43,52) [52,60), and the index 60 of the range lies in none of
    them ([7 * (61.0 / 7)] is rounded to a double below 61), so that the
    slices do not tile the range. *)
Theorem slices_7_61_miss_last_column :
  all_slices 7 61 =
    Some <$> [ {| slice_start := 0; slice_end := 8 |};
               {| slice_start := 8; slice_end := 17 |};
               {| slice_start := 17; slice_end := 26 |};
               {| slice_start := 26; slice_end := 34 |};
               {| slice_start := 34; slice_end := 43 |};
               {| slice_start := 43; slice_end := 52 |};
               {| slice_start := 52; slice_end := 60 |} ] /\
  ~ slices_tile 7 61.
Proof.
  assert (H : all_slices 7 61 =
    Some <$> [ {| slice_start := 0; slice_end := 8 |};
               {| slice_start := 8; slice_end := 17 |};
               {| slice_start := 17; slice_end := 26 |};
               {| slice_start := 26; slice_end := 34 |};
               {| slice_start := 34; slice_end := 43 |};
               {| slice_start := 43; slice_end := 52 |};
               {| slice_start := 52; slice_end := 60 |} ])
    by (vm_compute; reflexivity).
  split; [exact H|].
  intros (sl & Hsl & _ & _ & Hcover). rewrite H in Hsl.
  apply (inj (fmap Some)) in Hsl. subst sl.
  destruct (proj1 (Hcover 60) ltac:(lia)) as (s & Hs & Hin).
  unfold in_slice in Hin.
  repeat (apply elem_of_cons in Hs as [->|Hs]; [cbn in Hin; lia|]).
  by apply elem_of_nil in Hs.
Qed.

(** C4.  The claim fails on the code at [thread_get_slice(6, 7, 61)]: the
    code returns the end 60 where the formula of the specification, in
    exact integer arithmetic, gives 61. *)
Theorem thread_get_slice_not_exact :
  thread_get_slice 6 7 61 = Some {| slice_start := 52; slice_end := 60 |} /\
  slice_exact 6 7 61 = {| slice_start := 52; slice_end := 61 |} /\
  thread_get_slice 6 7 61 <> Some (slice_exact 6 7 61).
Proof. repeat split; vm_compute; (reflexivity || discriminate). Qed.

(** ** Sampling an 8 by 16 image *)

(** C5.  The claim fails on the code for the 8 by 16 image [tall_image]
    and one thread: the boundary cell [grid[0][Q]] is 0, the threshold of
    the white pixel [(0, x - 1)], although the pixel [(0, y - 1)] at the
    boundary coordinate [height - 1] is black. *)
Theorem boundary_row_sampled_at_width :
  sample_stage 1 tall_image
    = Some [Some [Some 1; Some 1; Some 0]; Some [Some 1; Some 1; None]] /\
  (below_sigma <$> pixel_at tall_image (0 * STEP) (y tall_image - 1)) = Some 1 /\
  (below_sigma <$> pixel_at tall_image (0 * STEP) (x tall_image - 1)) = Some 0 /\
  (g ← sample_stage 1 tall_image; grid_cell g 0 (y tall_image `quot` STEP))
    <> (below_sigma <$> pixel_at tall_image (0 * STEP) (y tall_image - 1)).
Proof. repeat split; vm_compute; (reflexivity || discriminate). Qed.

(** ** The 16 by 16 black image *)

(** C7.  The claim fails on the code for the 16 by 16 black image: the
    sampling stage sets eight cells of the 3 by 3 grid to 1 and stores
    nothing in the corner [grid[2][2]]; the configuration index is 15 for
    the cells (0,0), (0,1) and (1,0), and for the cell (1,1) it is
    undefined when the read of the corner is an error, 13 when that byte
    reads 0 and 15 when it reads 1. *)
Theorem black_16_corner_unset :
  exists g,
    sample_stage 1 (solid 16 16 0) = Some g /\
    g = [Some [Some 1; Some 1; Some 1]; Some [Some 1; Some 1; Some 1];
         Some [Some 1; Some 1; None]] /\
    grid_cell g 2 2 = None /\
    config_index no_junk g 0 0 = Some 15 /\
    config_index no_junk g 0 1 = Some 15 /\
    config_index no_junk g 1 0 = Some 15 /\
    config_index no_junk g 1 1 = None /\
    config_index (junk_const 0) g 1 1 = Some 13 /\
    config_index (junk_const 1) g 1 1 = Some 15.
Proof. eexists. repeat split; vm_compute; reflexivity. Qed.

(** ** Whole runs *)

(** C3.  The claim fails on the code for the 8 by 8 black image: with one
    thread the only cell is stamped, with 49 threads no thread has the
    only column in its slice and the output is the input, whichever value
    the uninitialised corner byte reads in the two runs. *)
Theorem output_depends_on_thread_count :
  run_on (junk_const 0) (solid 8 8 0) 1 = Some (solid 8 8 113) /\
  run_on (junk_const 0) (solid 8 8 0) 49 = Some (solid 8 8 0) /\
  run_on (junk_const 1) (solid 8 8 0) 1 = Some (solid 8 8 115) /\
  run_on (junk_const 1) (solid 8 8 0) 49 = Some (solid 8 8 0) /\
  run_on (junk_const 0) (solid 8 8 0) 1 <> run_on (junk_const 0) (solid 8 8 0) 49 /\
  run_on (junk_const 1) (solid 8 8 0) 1 <> run_on (junk_const 1) (solid 8 8 0) 49.
Proof. repeat split; vm_compute; (reflexivity || discriminate). Qed.

(** C9.  The claim fails on the code for the 16 by 16 black image and one
    thread: the output differs between a run in which the never-written
    byte [grid[2][2]] reads 0 (the cell (1,1) gets glyph 13) and a run in
    which it reads 1 (the cell gets glyph 15), and there is no output when
    that read is an error. *)
Theorem output_depends_on_uninitialised_byte :
  run_on (junk_const 0) (solid 16 16 0) 1
    = Some (cells_image 16 16
              (fun i j => if bool_decide (i = 1 /\ j = 1) then 113 else 115)) /\
  run_on (junk_const 1) (solid 16 16 0) 1 = Some (solid 16 16 115) /\
  run_on (junk_const 0) (solid 16 16 0) 1 <> run_on (junk_const 1) (solid 16 16 0) 1 /\
  run_on no_junk (solid 16 16 0) 1 = None.
Proof.
  split; [vm_compute; reflexivity|]. split; [vm_compute; reflexivity|].
  split; [|vm_compute; reflexivity].
  apply (proj1 (bool_decide_eq_false _)). vm_compute. reflexivity.
Qed.

(** ** The theorems at concrete inputs *)


Lemma march_stamps_every_cell_witness :
  (0 <= x (solid 8 8 0) < 2 ^ 31 /\ 0 <= y (solid 8 8 0) /\
   x (solid 8 8 0) * y (solid 8 8 0) <= 2 ^ 31 /\
   Z.of_nat (length (data (solid 8 8 0))) = x (solid 8 8 0) * y (solid 8 8 0) /\
   Forall glyph_ok full_cmap /\ Forall glyph_full full_cmap /\ 0 <= 0 /\ 0 <= 1 /\
   thread_get_slice 0 1 (x (solid 8 8 0) `quot` STEP)
     = Some {| slice_start := 0; slice_end := 1 |} /\
   (forall i j, in_slice {| slice_start := 0; slice_end := 1 |} i ->
      0 <= j < y (solid 8 8 0) `quot` STEP ->
      exists k c,
        config_index no_junk [Some [Some 1; Some 0]; Some [Some 0; Some 1]] i j = Some k /\
        load full_cmap k = Some (Some c))) /\
  exists image',
    march no_junk (solid 8 8 0) [Some [Some 1; Some 0]; Some [Some 0; Some 1]]
      full_cmap 0 1 = Some image' /\
    forall i j, in_slice {| slice_start := 0; slice_end := 1 |} i ->
      0 <= j < y (solid 8 8 0) `quot` STEP ->
      exists g00 g01 g11 g10 c,
        grid_load no_junk [Some [Some 1; Some 0]; Some [Some 0; Some 1]] i j = Some g00 /\
        grid_load no_junk [Some [Some 1; Some 0]; Some [Some 0; Some 1]] i (j + 1)
          = Some g01 /\
        grid_load no_junk [Some [Some 1; Some 0]; Some [Some 0; Some 1]] (i + 1) (j + 1)
          = Some g11 /\
        grid_load no_junk [Some [Some 1; Some 0]; Some [Some 0; Some 1]] (i + 1) j
          = Some g10 /\
        load full_cmap ((8 * g00 + 4 * g01 + 2 * g11 + g10) `mod` 256) = Some (Some c) /\
        forall a b, 0 <= a < x c -> 0 <= b < y c ->
          exists pc, load (data c) (x c * a + b) = Some pc /\
                     load (data image')
                       ((i * STEP + a) * y (solid 8 8 0) + j * STEP + b) = Some pc.
Proof.
  assert (H1 : 0 <= x (solid 8 8 0) < 2 ^ 31)
    by (vm_compute; split; [discriminate|reflexivity]).
  assert (H2 : 0 <= y (solid 8 8 0)) by (vm_compute; discriminate).
  assert (H3 : x (solid 8 8 0) * y (solid 8 8 0) <= 2 ^ 31) by (vm_compute; discriminate).
  assert (H4 : Z.of_nat (length (data (solid 8 8 0)))
               = x (solid 8 8 0) * y (solid 8 8 0)) by (vm_compute; reflexivity).
  assert (H5 : Forall glyph_ok full_cmap)
    by (apply (bool_decide_eq_true_1 (Forall glyph_ok full_cmap)); vm_compute; reflexivity).
  assert (H6 : Forall glyph_full full_cmap)
    by (apply (bool_decide_eq_true_1 (Forall glyph_full full_cmap)); vm_compute;
        reflexivity).
  assert (H7 : 0 <= 0) by lia.
  assert (H8 : 0 <= 1) by lia.
  assert (H9 : thread_get_slice 0 1 (x (solid 8 8 0) `quot` STEP)
               = Some {| slice_start := 0; slice_end := 1 |})
    by (vm_compute; reflexivity).
  assert (H10 : forall i j, in_slice {| slice_start := 0; slice_end := 1 |} i ->
            0 <= j < y (solid 8 8 0) `quot` STEP ->
            exists k c,
              config_index no_junk [Some [Some 1; Some 0]; Some [Some 0; Some 1]] i j
                = Some k /\
              load full_cmap k = Some (Some c)).
  { intros i j Hi Hj. assert (i = 0) as -> by (unfold in_slice in Hi; cbn in Hi; lia).
    assert (j = 0) as ->.
    { change (y (solid 8 8 0) `quot` STEP) with 1 in Hj. lia. }
    eexists _, _. split; vm_compute; reflexivity. }
  split; [exact (conj H1 (conj H2 (conj H3 (conj H4 (conj H5 (conj H6 (conj H7
                   (conj H8 (conj H9 H10)))))))))|].
  exact (march_stamps_every_cell no_junk (solid 8 8 0) _ full_cmap 0 1 _
           H1 H2 H3 H4 H5 H6 H7 H8 H9 H10).
Defined.

Lemma small_image_is_aliased_and_not_rescaled_witness :
  let w := {| shared := main_shared "in.ppm" "out.ppm" 4; heap := ∅;
              disk := <["in.ppm" := solid 16 16 0]> contours |} in
  (image (shared w) = None /\
   read_ppm (disk w) (filename_in (shared w)) = Some (solid 16 16 0) /\
   x (solid 16 16 0) <= 2048 /\ y (solid 16 16 0) <= 2048) /\
  exists w' l,
    once_image_read 2048 2048 0 (gray 0) w = Some w' /\
    image (shared w') = Some l /\
    scaled (shared w') = Some l /\
    heap w' !! l = Some (solid 16 16 0) /\
    (forall l', l' <> l -> heap w' !! l' = heap w !! l') /\
    forall tid nthreads,
      rescale_image 2048 2048 (fun _ _ _ => gray 0) (heap w') l l tid nthreads
        = Some (heap w') /\
      worker_rescale 2048 2048 (fun _ _ _ => gray 0) tid w' = Some w'.
Proof.
  intros w.
  assert (H1 : image (shared w) = None) by reflexivity.
  assert (H2 : read_ppm (disk w) (filename_in (shared w)) = Some (solid 16 16 0))
    by (vm_compute; reflexivity).
  assert (H3 : x (solid 16 16 0) <= 2048) by (vm_compute; discriminate).
  assert (H4 : y (solid 16 16 0) <= 2048) by (vm_compute; discriminate).
  split; [exact (conj H1 (conj H2 (conj H3 H4)))|].
  exact (small_image_is_aliased_and_not_rescaled 2048 2048 (fun _ _ _ => gray 0)
           0 (gray 0) w (solid 16 16 0) H1 H2 H3 H4).
Defined.

(** ** Exactly-once initialisation under every interleaving *)

Module SyncFacts.
Import Sync.
Local Open Scope nat_scope.

(** Case analysis on the position of an instruction in [worker]. *)
Ltac at_pc H tac :=
  vm_compute in H; first [discriminate H | injection H as <- <- | injection H as <-]; tac.

Ltac at_each_pc H tac :=
  let Hlt := fresh "Hlt" in
  pose proof (lookup_lt_Some _ _ _ H) as Hlt; cbn in Hlt;
  repeat (match type of Hlt with
          | ?n < _ =>
              is_var n; destruct n;
              [clear Hlt; at_pc H tac|apply Nat.succ_lt_mono in Hlt]
          end);
  exfalso; lia.

Ltac static :=
  repeat match goal with
         | |- _ /\ _ => split
         | |- forall _ : lock, _ => intros []
         | |- forall _ : field, _ => intros []
         | |- _ -> _ =>
             let H := fresh in
             intros H; try (vm_compute in H; first [congruence|contradiction])
         end;
  vm_compute; reflexivity.

Lemma static_lock (n : nat) (l : lock) :
  worker !! n = Some (Lock l) ->
  holds n l = false /\ holds (S n) l = true /\
  (forall l', l' <> l -> holds (S n) l' = holds n l') /\
  (forall f, before_init (S n) f = before_init n f /\ after_init (S n) f = after_init n f).
Proof. intros H. at_each_pc H static. Qed.

Lemma static_unlock (n : nat) (l : lock) :
  worker !! n = Some (Unlock l) ->
  holds n l = true /\ holds (S n) l = false /\
  (forall l', l' <> l -> holds (S n) l' = holds n l') /\
  (forall f, before_init (S n) f = before_init n f /\ after_init (S n) f = after_init n f).
Proof. intros H. at_each_pc H static. Qed.

Lemma static_test (n : nat) (f : field) (k : nat) :
  worker !! n = Some (IfNull f k) ->
  (forall l, holds (S n) l = holds n l /\ holds (S (n + k)) l = holds n l) /\
  (forall g, sentinel g = f ->
     holds n (guard_of g) = true /\ before_init n g = false /\
     before_init (S n) g = true /\ after_init (S n) g = false /\
     before_init (S (n + k)) g = false /\ after_init (S (n + k)) g = true) /\
  (forall g, sentinel g <> f ->
     before_init (S n) g = before_init n g /\ after_init (S n) g = after_init n g /\
     before_init (S (n + k)) g = before_init n g /\ after_init (S (n + k)) g = after_init n g).
Proof. intros H. at_each_pc H static. Qed.

Lemma static_assign (n : nat) (f : field) :
  worker !! n = Some (Assign f) ->
  (forall l, holds (S n) l = holds n l) /\
  before_init n f = true /\ before_init (S n) f = false /\ after_init (S n) f = true /\
  (sentinel f <> f -> after_init n (sentinel f) = true) /\
  (forall g, g <> f ->
     before_init (S n) g = before_init n g /\ after_init (S n) g = after_init n g) /\
  (forall g, g <> f -> sentinel g = f -> before_init (S n) g = true).
Proof. intros H. at_each_pc H static. Qed.

Lemma static_other (n : nat) (i : instr) :
  worker !! n = Some i ->
  match i with Arrive _ | Leave _ | Work _ => True | _ => False end ->
  (forall l, holds (S n) l = holds n l) /\
  (forall f, before_init (S n) f = before_init n f /\ after_init (S n) f = after_init n f).
Proof. intros H. at_each_pc H static. Qed.

(** Whoever is between the test and the assignment holds the lock. *)
Lemma before_init_holds (n : nat) (f : field) :
  before_init n f = true -> holds n (guard_of f) = true.
Proof.
  unfold before_init, holds.
  rewrite !andb_true_iff, !Nat.ltb_lt, !Nat.leb_le.
  destruct f; vm_compute index_of; lia.
Qed.

Lemma frame_pc {A} (P : nat -> A) (pcs : nat -> nat) (t n t' : nat) :
  P n = P (pcs t) -> P (<[t := n]> pcs t') = P (pcs t').
Proof.
  intros H. destruct (decide (t = t')) as [<-|Hne].
  - by rewrite fn_lookup_insert.
  - by rewrite fn_lookup_insert_ne.
Qed.

(** Two threads that hold the same lock are one. *)
Lemma inv_exclusive (T : nat) (st : state) (l : lock) (t t' : nat) :
  inv T st -> holds (pc st t) l = true -> holds (pc st t') l = true -> t = t'.
Proof.
  intros [Hown _ _ _ _ _ _] H1%Hown H2%Hown. congruence.
Qed.

Lemma inv_init (T : nat) : inv T init_state.
Proof.
  split; cbn.
  - intros l t. split; [done|]. destruct l; vm_compute; done.
  - done.
  - intros f t. destruct f; vm_compute; done.
  - intros f. lia.
  - intros f t H. by apply elem_of_nil in H.
  - done.
  - done.
Qed.

(** A step that moves [t] to [n'] and changes nothing that the static
    predicates of [t] see. *)
Lemma inv_step_silent (T : nat) (st : state) (t n' : nat) (a : barrier -> nat) :
  inv T st ->
  (forall l, holds n' l = holds (pc st t) l) ->
  (forall f, before_init n' f = before_init (pc st t) f /\
             after_init n' f = after_init (pc st t) f) ->
  inv T {| pc := <[t := n']> (pc st); owner := owner st;
           inits := inits st; arrived := a |}.
Proof.
  intros [Hown Hbef Haft Honce Hwho Hord Hpart] Hh Hf.
  split; cbn [pc owner inits arrived]; try done.
  - intros l t'. rewrite (frame_pc (fun m => holds m l)) by apply Hh. apply Hown.
  - intros f t'. rewrite (frame_pc (fun m => before_init m f)) by apply Hf. apply Hbef.
  - intros f t'. rewrite (frame_pc (fun m => after_init m f)) by apply Hf. apply Haft.
  - intros f H1 H2. destruct (Hpart f H1 H2) as [t' Hb]. exists t'.
    rewrite (frame_pc (fun m => before_init m f)) by apply Hf. done.
Qed.

Section Steps.
Variable returns : nat -> work -> bool.
Local Abbreviation step := (step returns).
Local Abbreviation reachable := (reachable returns).
Local Abbreviation run := (run returns).

Lemma inv_step (T : nat) (st st' : state) (t : nat) :
  inv T st -> t < T -> step T t st = Some st' -> inv T st'.
Proof.
  intros Hinv Ht Hstep. unfold step in Hstep.
  destruct (worker !! pc st t) as [i|] eqn:Hi; [|done].
  pose proof Hinv as [Hown Hbef Haft Honce Hwho Hord Hpart].
  destruct i as [l|l|f k|f|b|b|w].
  - (* Lock *)
    destruct (owner st l) eqn:Ho; [done|]. injection Hstep as <-.
    destruct (static_lock _ _ Hi) as (Hh0 & Hh1 & Hhne & Hf).
    split; cbn [pc owner inits arrived]; try done.
    + intros l' t'. destruct (decide (l = l')) as [<-|Hl].
      * rewrite fn_lookup_insert. destruct (decide (t = t')) as [<-|Hne].
        -- rewrite fn_lookup_insert. done.
        -- rewrite fn_lookup_insert_ne by done. split; [congruence|].
           intros H%Hown. congruence.
      * rewrite fn_lookup_insert_ne by done.
        rewrite (frame_pc (fun m => holds m l')) by (apply Hhne; done). apply Hown.
    + intros f t'. rewrite (frame_pc (fun m => before_init m f)) by apply Hf. apply Hbef.
    + intros f t'. rewrite (frame_pc (fun m => after_init m f)) by apply Hf. apply Haft.
    + intros f H1 H2. destruct (Hpart f H1 H2) as [t' Hb]. exists t'.
      rewrite (frame_pc (fun m => before_init m f)) by apply Hf. done.
  - (* Unlock *)
    injection Hstep as <-.
    destruct (static_unlock _ _ Hi) as (Hh1 & Hh0 & Hhne & Hf).
    split; cbn [pc owner inits arrived]; try done.
    + intros l' t'. destruct (decide (l = l')) as [<-|Hl].
      * rewrite fn_lookup_insert. split; [done|].
        destruct (decide (t = t')) as [<-|Hne].
        -- rewrite fn_lookup_insert. congruence.
        -- rewrite fn_lookup_insert_ne by done. intros H.
           destruct Hne. eapply inv_exclusive; done.
      * rewrite fn_lookup_insert_ne by done.
        rewrite (frame_pc (fun m => holds m l')) by (apply Hhne; done). apply Hown.
    + intros f t'. rewrite (frame_pc (fun m => before_init m f)) by apply Hf. apply Hbef.
    + intros f t'. rewrite (frame_pc (fun m => after_init m f)) by apply Hf. apply Haft.
    + intros f H1 H2. destruct (Hpart f H1 H2) as [t' Hb]. exists t'.
      rewrite (frame_pc (fun m => before_init m f)) by apply Hf. done.
  - (* if (!f) *)
    injection Hstep as <-.
    destruct (static_test _ _ _ Hi) as (Hh & Hsame & Hother).
    set (n' := if decide (inits st f = []) then S (pc st t) else S (pc st t) + k).
    assert (Hh' : forall l, holds n' l = holds (pc st t) l).
    { intros l. unfold n'. cbn [Nat.add]. destruct (decide _); apply Hh. }
    unfold set_pc. split; cbn [pc owner inits arrived]; try done.
    + intros l t'. rewrite (frame_pc (fun m => holds m l)) by apply Hh'. apply Hown.
    + intros g t'. destruct (decide (t = t')) as [<-|Hne];
        [rewrite fn_lookup_insert|rewrite fn_lookup_insert_ne by done; apply Hbef].
      destruct (decide (sentinel g = f)) as [Hs|Hs].
      * destruct (Hsame g Hs) as (_ & _ & Hb1 & _ & Hb2 & _).
        unfold n'. cbn [Nat.add]. destruct (decide _) as [Hnull|Hset].
        -- intros _. destruct (inits st g) eqn:Hg; [done|].
           destruct (Hord g); [by rewrite Hg|]. by rewrite Hs.
        -- by rewrite Hb2.
      * destruct (Hother g Hs) as (Hb1 & _ & Hb2 & _).
        unfold n'. cbn [Nat.add]. destruct (decide _); rewrite ?Hb1, ?Hb2; apply Hbef.
    + intros g t'. destruct (decide (t = t')) as [<-|Hne];
        [rewrite fn_lookup_insert|rewrite fn_lookup_insert_ne by done; apply Haft].
      destruct (decide (sentinel g = f)) as [Hs|Hs].
      * destruct (Hsame g Hs) as (Hlock & Hb0 & _ & Ha1 & _ & Ha2).
        unfold n'. cbn [Nat.add]. destruct (decide _) as [Hnull|Hset].
        -- by rewrite Ha1.
        -- intros _ Hg. destruct (Hpart g) as [t' Hb]; [by rewrite Hs|done|].
           assert (t' = t) as ->.
           { eapply inv_exclusive; [done| |done]. by apply before_init_holds. }
           congruence.
      * destruct (Hother g Hs) as (_ & Ha1 & _ & Ha2).
        unfold n'. cbn [Nat.add]. destruct (decide _); rewrite ?Ha1, ?Ha2; apply Haft.
    + intros g H1 H2. destruct (Hpart g H1 H2) as [t' Hb]. exists t'.
      destruct (decide (t = t')) as [<-|Hne];
        [rewrite fn_lookup_insert|by rewrite fn_lookup_insert_ne].
      destruct (decide (sentinel g = f)) as [Hs|Hs].
      * destruct (Hsame g Hs) as (_ & Hb0 & _). congruence.
      * destruct (Hother g Hs) as (Hb1 & _ & Hb2 & _).
        unfold n'. cbn [Nat.add]. destruct (decide _); rewrite ?Hb1, ?Hb2; done.
  - (* f = ... *)
    injection Hstep as <-.
    destruct (static_assign _ _ Hi) as (Hh & Hb0 & Hb1 & Ha1 & Hsent & Hother & Hnext).
    pose proof (Hbef _ _ Hb0) as Hnull.
    assert (Hset : forall g, <[f := inits st f ++ [t]]> (inits st) g
                             = if decide (f = g) then [t] else inits st g).
    { intros g. destruct (decide (f = g)) as [<-|Hg].
      - by rewrite fn_lookup_insert, Hnull.
      - by rewrite fn_lookup_insert_ne. }
    split; cbn [pc owner inits arrived].
    + intros l t'. rewrite (frame_pc (fun m => holds m l)) by apply Hh. apply Hown.
    + intros g t' Hb. rewrite Hset. destruct (decide (f = g)) as [<-|Hg].
      * destruct (decide (t = t')) as [<-|Hne].
        -- rewrite fn_lookup_insert in Hb. congruence.
        -- rewrite fn_lookup_insert_ne in Hb by done.
           destruct Hne. eapply inv_exclusive; [done|by apply before_init_holds..].
      * rewrite (frame_pc (fun m => before_init m g)) in Hb by (apply Hother; done).
        eapply Hbef, Hb.
    + intros g t' Ha. rewrite Hset. destruct (decide (f = g)) as [<-|Hg]; [done|].
      rewrite (frame_pc (fun m => after_init m g)) in Ha by (apply Hother; done).
      eapply Haft, Ha.
    + intros g. rewrite Hset. destruct (decide (f = g)); [cbn; lia|apply Honce].
    + intros g t' Hin. rewrite Hset in Hin. destruct (decide (f = g)).
      * apply list_elem_of_singleton in Hin as ->. done.
      * eapply Hwho, Hin.
    + intros g Hg'. rewrite Hset in Hg'. rewrite Hset.
      destruct (decide (f = sentinel g)) as [Hs|Hs]; [done|].
      destruct (decide (f = g)) as [<-|Hg].
      * eapply Haft, Hsent. done.
      * by apply Hord.
    + intros g Hs' Hg'. rewrite Hset in Hs', Hg'.
      destruct (decide (f = g)) as [<-|Hg]; [done|].
      destruct (decide (f = sentinel g)) as [Hs|Hs].
      * exists t. rewrite fn_lookup_insert. apply Hnext; done.
      * destruct (Hpart g Hs' Hg') as [t' Hb]. exists t'.
        rewrite (frame_pc (fun m => before_init m g)) by (apply Hother; done). done.
  - (* barrier: the call *)
    injection Hstep as <-.
    destruct (static_other _ _ Hi I) as (Hh & Hf).
    apply inv_step_silent; done.
  - (* barrier: the return *)
    destruct (decide _); [|done]. injection Hstep as <-.
    destruct (static_other _ _ Hi I) as (Hh & Hf).
    apply (inv_step_silent T st t _ (arrived st)); done.
  - (* work *)
    destruct (returns t w); [|done]. injection Hstep as <-.
    destruct (static_other _ _ Hi I) as (Hh & Hf).
    apply (inv_step_silent T st t _ (arrived st)); done.
Qed.

Lemma reachable_inv (T : nat) (st : state) : reachable T st -> inv T st.
Proof.
  induction 1 as [|st t st' _ IH Ht Hstep]; [apply inv_init|].
  eapply inv_step; done.
Qed.

Lemma run_reachable (T : nat) (sched : list nat) (st st' : state) :
  reachable T st -> run T sched st = Some st' -> reachable T st'.
Proof.
  revert st. induction sched as [|t sched IH]; intros st Hst; cbn.
  - by intros [= <-].
  - destruct (decide (t < T)); [|done].
    intros (st1 & Hstep & Hrun)%bind_Some.
    eapply IH; [|done]. eapply reachable_step; done.
Qed.

End Steps.

(** The state at the end of [two_thread_schedule]. *)
Lemma two_thread_run :
  exists st, run all_return 2 two_thread_schedule init_state = Some st /\
             pc st 0 = 32 /\ pc st 1 = 32 /\
             (forall f, inits st f = [0]).
Proof.
  destruct (run all_return 2 two_thread_schedule init_state) as [st|] eqn:Hrun;
    [|vm_compute in Hrun; discriminate].
  exists st. split; [done|].
  assert (Hst : Some st = run all_return 2 two_thread_schedule init_state) by done.
  vm_compute in Hst. injection Hst as ->. cbn.
  split; [done|]. split; [done|]. intros []; reflexivity.
Qed.

End SyncFacts.

(** ** Slices when the ratio is exact *)

Lemma iter_xO_Z (k : nat) (p : positive) :
  Z.pos (Nat.iter k xO p) = Z.pos p * 2 ^ Z.of_nat k.
Proof.
  induction k as [|k IH]; [cbn; lia|].
  change (Nat.iter (S k) xO p) with ((Nat.iter k xO p)~0)%positive.
  rewrite Nat2Z.inj_succ, Z.pow_succ_r, Pos2Z.inj_xO, IH by lia. lia.
Qed.

Lemma digits2_pos_le (a b : positive) :
  Z.pos a <= Z.pos b -> Z.pos (digits2_pos a) <= Z.pos (digits2_pos b).
Proof.
  intros Hab.
  pose proof (digits2_pos_bounds a) as [Ha _].
  pose proof (digits2_pos_bounds b) as [_ Hb].
  assert (H : 2 ^ (Z.pos (digits2_pos a) - 1) < 2 ^ Z.pos (digits2_pos b)) by lia.
  apply Z.pow_lt_mono_r_iff in H; lia.
Qed.

Lemma digits2_pos_53 (n : positive) :
  Z.pos n < 2 ^ 53 -> Z.pos (digits2_pos n) <= 53.
Proof.
  intros Hn. pose proof (digits2_pos_bounds n) as [Hlo _].
  assert (H : 2 ^ (Z.pos (digits2_pos n) - 1) < 2 ^ 53) by lia.
  apply Z.pow_lt_mono_r_iff in H; lia.
Qed.

Lemma pad_spec (n : positive) :
  Z.pos n < 2 ^ 53 ->
  Z.of_nat (pad n) = 53 - Z.pos (digits2_pos n) /\
  Z.pos (digits2_pos (Nat.iter (pad n) xO n)) = 53 /\
  2 ^ 52 <= Z.pos (Nat.iter (pad n) xO n) < 2 ^ 53.
Proof.
  intros Hn. pose proof (digits2_pos_53 n Hn) as Hd.
  assert (Hp : Z.of_nat (pad n) = 53 - Z.pos (digits2_pos n)) by (unfold pad; lia).
  assert (Hdig : Z.pos (digits2_pos (Nat.iter (pad n) xO n)) = 53)
    by (rewrite digits2_iter_xO; lia).
  split; [done|]. split; [done|].
  pose proof (digits2_pos_bounds (Nat.iter (pad n) xO n)) as Hb.
  rewrite Hdig in Hb. exact Hb.
Qed.

(** A value of at most 53 significant bits is rounded to itself. *)
Lemma round_dyadic (n : positive) (j : nat) (e0 : Z) :
  Z.pos n < 2 ^ 53 -> (pad n <= j)%nat ->
  -1074 <= e0 -> e0 + Z.of_nat j - Z.of_nat (pad n) <= 971 ->
  binary_round_aux Double.prec Double.emax false (Z.pos (Nat.iter j xO n)) e0 loc_Exact
  = dyadic n (e0 + Z.of_nat j).
Proof.
  intros Hn Hj Hlo Hhi. destruct (pad_spec n Hn) as (Hp & Hd & _).
  assert (Hsplit : Nat.iter j xO n = Nat.iter (j - pad n) xO (Nat.iter (pad n) xO n)).
  { rewrite <- Nat.iter_add. f_equal. lia. }
  rewrite Hsplit.
  replace e0 with ((e0 + Z.of_nat (j - pad n)) - Z.of_nat (j - pad n)) at 1 by lia.
  rewrite binary_round_aux_shifted.
  - unfold dyadic. f_equal. lia.
  - exact Hd.
  - unfold emin, Double.prec, Double.emax. lia.
  - unfold Double.prec, Double.emax. lia.
Qed.

Lemma pos_iter_nat {A} (f : A -> A) (p : positive) (a : A) :
  Pos.iter f a p = Nat.iter (Pos.to_nat p) f a.
Proof. apply Pos2Nat.inj_iter. Qed.

Lemma of_long_dyadic (n : positive) :
  Z.pos n < 2 ^ 53 -> Double.of_long (Z.pos n) = dyadic n 0.
Proof.
  intros Hn. destruct (pad_spec n Hn) as (Hp & Hd & _).
  pose proof (digits2_pos_53 n Hn) as Hd53.
  unfold Double.of_long, binary_normalize, binary_round.
  replace (fexp Double.prec Double.emax (Z.pos (digits2_pos n) + 0))
    with (Z.pos (digits2_pos n) - 53)
    by (unfold fexp, emin, Double.prec, Double.emax; lia).
  unfold shl_align, dyadic.
  destruct (Z.pos (digits2_pos n) - 53 - 0) as [|k|k] eqn:Hk; [|lia|].
  - assert (Hpad : pad n = 0%nat) by lia.
    rewrite Hpad in *. cbn [Nat.iter] in *.
    rewrite binary_round_aux_canonical.
    + f_equal.
    + exact Hd.
    + unfold emin, Double.prec, Double.emax. lia.
  - assert (Hpad : pad n = Pos.to_nat k) by lia.
    rewrite pos_iter_nat, <- Hpad.
    rewrite binary_round_aux_canonical.
    + f_equal. lia.
    + exact Hd.
    + unfold emin, Double.prec, Double.emax. lia.
Qed.

Lemma pad_mul (a b : positive) :
  Z.pos a * Z.pos b < 2 ^ 53 ->
  (pad (a * b) <= pad a + pad b)%nat.
Proof.
  intros Hab.
  assert (Ha : Z.pos a < 2 ^ 53) by nia.
  assert (Hb : Z.pos b < 2 ^ 53) by nia.
  destruct (pad_spec a Ha) as (Hpa & _). destruct (pad_spec b Hb) as (Hpb & _).
  destruct (pad_spec (a * b) Hab) as (Hpab & _).
  pose proof (digits2_pos_le a (a * b) ltac:(nia)).
  pose proof (digits2_pos_53 b Hb). lia.
Qed.

(** A product of at most 53 significant bits is exact. *)
Lemma mul_dyadic (a b : positive) (ea eb : Z) :
  Z.pos a * Z.pos b < 2 ^ 53 ->
  -400 <= ea -> -400 <= eb -> ea + eb <= 900 ->
  Double.mul (dyadic a ea) (dyadic b eb) = dyadic (a * b) (ea + eb).
Proof.
  intros Hab Hea Heb Hhi.
  assert (Ha : Z.pos a < 2 ^ 53) by nia.
  assert (Hb : Z.pos b < 2 ^ 53) by nia.
  destruct (pad_spec a Ha) as (Hpa & _). destruct (pad_spec b Hb) as (Hpb & _).
  pose proof (pad_mul a b Hab) as Hpad.
  unfold Double.mul, SFmul, dyadic. cbn [xorb].
  assert (Hprod : (Nat.iter (pad a) xO a * Nat.iter (pad b) xO b)%positive
                  = Nat.iter (pad a + pad b) xO (a * b)%positive).
  { apply Pos2Z.inj. rewrite Pos2Z.inj_mul, !iter_xO_Z, Pos2Z.inj_mul.
    rewrite Nat2Z.inj_add, Z.pow_add_r by lia. lia. }
  rewrite Hprod, round_dyadic;
    [unfold dyadic; f_equal; lia|by rewrite Pos2Z.inj_mul|done|lia|lia].
Qed.

Lemma new_location_exact (m : Z) : new_location m 0 = loc_Exact.
Proof. unfold new_location. by destruct (Z.even m). Qed.

(** A quotient of at most 53 significant bits is exact. *)
Lemma div_dyadic (a b q : positive) (s : nat) (ea eb : Z) :
  Z.pos a * 2 ^ Z.of_nat s = Z.pos q * Z.pos b ->
  Z.pos a < 2 ^ 53 -> Z.pos b < 2 ^ 53 -> Z.pos q < 2 ^ 53 ->
  -900 <= ea - eb - Z.of_nat s -> ea - eb - Z.of_nat s <= 900 ->
  Double.div (dyadic a ea) (dyadic b eb) = dyadic q (ea - eb - Z.of_nat s).
Proof.
  intros Hq Ha Hb Hq53 Hlo Hhi.
  destruct (pad_spec a Ha) as (Hpa & Hda & Hma).
  destruct (pad_spec b Hb) as (Hpb & Hdb & Hmb).
  destruct (pad_spec q Hq53) as (Hpq & Hdq & Hmq).
  rewrite iter_xO_Z in Hma, Hmb, Hmq.
  unfold Double.div, SFdiv, dyadic. cbn [xorb].
  set (ka := Z.of_nat (pad a)) in *. set (kb := Z.of_nat (pad b)) in *.
  set (kq := Z.of_nat (pad q)) in *. set (sz := Z.of_nat s) in *.
  assert (Hpow : forall k, 0 <= k -> 0 < 2 ^ k) by (intros; apply Z.pow_pos_nonneg; lia).
  pose proof (Hpow ka ltac:(lia)) as H2a. pose proof (Hpow kb ltac:(lia)) as H2b.
  pose proof (Hpow kq ltac:(lia)) as H2q. pose proof (Hpow sz ltac:(lia)) as H2s.
  (* the quotient of the mantissas is [q] followed by [j] zero bits *)
  assert (Hj : 0 <= ka + 53 - kb - sz - kq).
  { destruct (Z_le_gt_dec 0 (ka + 53 - kb - sz - kq)) as [|Hneg]; [done|exfalso].
    assert (Hle : ka + 54 <= kb + sz + kq) by lia.
    assert (H1 : Z.pos a * 2 ^ ka * 2 ^ 54 <= Z.pos a * 2 ^ (kb + sz + kq)).
    { rewrite <- Z.mul_assoc, <- Z.pow_add_r by lia.
      apply Z.mul_le_mono_nonneg_l; [lia|]. apply Z.pow_le_mono_r; lia. }
    rewrite !Z.pow_add_r in H1 by lia.
    assert (H2 : Z.pos a * (2 ^ kb * 2 ^ sz * 2 ^ kq)
                 = (Z.pos q * 2 ^ kq) * (Z.pos b * 2 ^ kb)).
    { transitivity ((Z.pos a * 2 ^ sz) * (2 ^ kb * 2 ^ kq)); [ring|rewrite Hq; ring]. }
    rewrite H2 in H1.
    assert (H3 : Z.pos q * 2 ^ kq * (Z.pos b * 2 ^ kb) < 2 ^ 53 * 2 ^ 53) by nia.
    assert (H4 : 2 ^ 52 * 2 ^ 54 <= Z.pos a * 2 ^ ka * 2 ^ 54) by nia.
    change (2 ^ 52 * 2 ^ 54) with (2 ^ 53 * 2 ^ 53) in H4. lia. }
  set (j := ka + 53 - kb - sz - kq) in *.
  assert (Hcore : SFdiv_core_binary Double.prec Double.emax
                    (Z.pos (Nat.iter (pad a) xO a)) (ea - ka)
                    (Z.pos (Nat.iter (pad b) xO b)) (eb - kb)
                  = (Z.pos (Nat.iter (Z.to_nat (j + kq)) xO q),
                     ea - ka - (eb - kb) - 53, loc_Exact)).
  { unfold SFdiv_core_binary. cbn [Zdigits2]. rewrite Hda, Hdb.
    replace (Z.min (fexp Double.prec Double.emax (53 + (ea - ka) - (53 + (eb - kb))))
               (ea - ka - (eb - kb)))
      with (ea - ka - (eb - kb) - 53)
      by (unfold fexp, emin, Double.prec, Double.emax; lia).
    replace (ea - ka - (eb - kb) - (ea - ka - (eb - kb) - 53)) with 53 by lia.
    rewrite Z.shiftl_mul_pow2 by lia. rewrite div_eucl_pair.
    rewrite !iter_xO_Z. fold ka kb. rewrite Z2Nat.id by lia.
    assert (Heq : Z.pos a * 2 ^ ka * 2 ^ 53
                  = Z.pos q * 2 ^ (j + kq) * (Z.pos b * 2 ^ kb)).
    { assert (Hs : 2 ^ ka * 2 ^ 53 = 2 ^ (j + kq) * 2 ^ kb * 2 ^ sz).
      { rewrite <- !Z.pow_add_r by lia. f_equal. lia. }
      transitivity (Z.pos a * 2 ^ sz * (2 ^ (j + kq) * 2 ^ kb)); [|rewrite Hq; ring].
      rewrite <- Z.mul_assoc, Hs. ring. }
    rewrite Heq, Z.div_mul, Z.mod_mul by lia.
    by rewrite new_location_exact. }
  rewrite Hcore.
  rewrite round_dyadic; [unfold dyadic; f_equal; lia|done|lia|lia|lia].
Qed.

Lemma to_long_dyadic (n : positive) (s : nat) :
  Z.pos n < 2 ^ 53 ->
  Double.to_long (dyadic n (- Z.of_nat s)) = Some (Z.pos n / 2 ^ Z.of_nat s).
Proof.
  intros Hn. destruct (pad_spec n Hn) as (Hp & _ & _).
  assert (H2s : 0 < 2 ^ Z.of_nat s) by (apply Z.pow_pos_nonneg; lia).
  assert (H2k : 0 < 2 ^ Z.of_nat (pad n)) by (apply Z.pow_pos_nonneg; lia).
  unfold Double.to_long, dyadic.
  assert (Hmag : Double.trunc_mag (Nat.iter (pad n) xO n) (- Z.of_nat s - Z.of_nat (pad n))
                 = Z.pos n / 2 ^ Z.of_nat s).
  { unfold Double.trunc_mag. rewrite iter_xO_Z.
    destruct (- Z.of_nat s - Z.of_nat (pad n)) as [|e|e] eqn:He; [|lia|].
    - replace (Z.of_nat s) with 0 by lia. replace (Z.of_nat (pad n)) with 0 by lia.
      rewrite !Z.pow_0_r, Z.div_1_r. lia.
    - replace (Z.pos e) with (Z.of_nat s + Z.of_nat (pad n)) by lia.
      rewrite Z.pow_add_r by lia. apply Z.div_mul_cancel_r; lia. }
  rewrite Hmag, bool_decide_true; [done|].
  assert (0 <= Z.pos n / 2 ^ Z.of_nat s) by (apply Z.div_pos; lia).
  assert (Z.pos n / 2 ^ Z.of_nat s <= Z.pos n).
  { apply Z.div_le_upper_bound; [lia|]. nia. }
  unfold Double.LONG_MIN, Double.LONG_MAX. lia.
Qed.

Lemma lt_dyadic (a b : positive) (s : nat) :
  Z.pos a < 2 ^ 53 -> Z.pos b < 2 ^ 53 ->
  Double.lt (dyadic a (- Z.of_nat s)) (dyadic b 0)
  = bool_decide (Z.pos a < Z.pos b * 2 ^ Z.of_nat s).
Proof.
  intros Ha Hb.
  destruct (pad_spec a Ha) as (Hpa & _ & Hma). destruct (pad_spec b Hb) as (Hpb & _ & Hmb).
  rewrite iter_xO_Z in Hma, Hmb.
  unfold Double.lt, SFltb, SFcompare, dyadic.
  set (ka := Z.of_nat (pad a)) in *. set (kb := Z.of_nat (pad b)) in *.
  set (sz := Z.of_nat s) in *.
  assert (Hpow : forall k, 0 <= k -> 0 < 2 ^ k) by (intros; apply Z.pow_pos_nonneg; lia).
  pose proof (Hpow ka ltac:(lia)) as H2a. pose proof (Hpow kb ltac:(lia)) as H2b.
  pose proof (Hpow sz ltac:(lia)) as H2s.
  destruct (Z.compare_spec (- sz - ka) (0 - kb)) as [Heq|Hlt|Hgt].
  - change (Pos.compare_cont Eq ?x ?y) with (Pos.compare x y).
    assert (Hk : kb = sz + ka) by lia.
    assert (Hiff : Z.pos (Nat.iter (pad a) xO a) < Z.pos (Nat.iter (pad b) xO b)
                   <-> Z.pos a < Z.pos b * 2 ^ sz).
    { rewrite !iter_xO_Z. fold ka kb. rewrite Hk, Z.pow_add_r by lia. nia. }
    destruct (Pos.compare_spec (Nat.iter (pad a) xO a) (Nat.iter (pad b) xO b)) as [E|L|G];
      symmetry.
    + apply bool_decide_eq_false. rewrite <- Hiff, E. lia.
    + apply bool_decide_eq_true. apply Hiff. lia.
    + apply bool_decide_eq_false. rewrite <- Hiff. lia.
  - symmetry. apply bool_decide_eq_true.
    assert (Hk : kb + 1 <= sz + ka) by lia.
    assert (H1 : 2 ^ (kb + 1) <= 2 ^ (sz + ka)) by (apply Z.pow_le_mono_r; lia).
    rewrite !Z.pow_add_r in H1 by lia. change (2 ^ 1) with 2 in H1. nia.
  - symmetry. apply bool_decide_eq_false.
    assert (Hk : sz + ka + 1 <= kb) by lia.
    assert (H1 : 2 ^ (sz + ka + 1) <= 2 ^ kb) by (apply Z.pow_le_mono_r; lia).
    rewrite !Z.pow_add_r in H1 by lia. change (2 ^ 1) with 2 in H1. nia.
Qed.

Lemma ratio_floor (t range nthreads q : Z) (s : nat) :
  0 < nthreads -> range * 2 ^ Z.of_nat s = q * nthreads ->
  t * q / 2 ^ Z.of_nat s = t * range / nthreads.
Proof.
  intros Hn Hq.
  assert (H2s : 0 < 2 ^ Z.of_nat s) by (apply Z.pow_pos_nonneg; lia).
  rewrite <- (Z.div_mul_cancel_r (t * range) nthreads (2 ^ Z.of_nat s)) by lia.
  rewrite <- (Z.div_mul_cancel_r (t * q) (2 ^ Z.of_nat s) nthreads) by lia.
  f_equal; [|ring]. rewrite <- !Z.mul_assoc, Hq. ring.
Qed.

Lemma of_long_zero : Double.of_long 0 = S754_zero false.
Proof. reflexivity. Qed.

Lemma mul_zero_r (n : positive) (e : Z) :
  Double.mul (dyadic n e) (S754_zero false) = S754_zero false.
Proof. reflexivity. Qed.

(** When [range / nthreads] is a double without rounding, that is when
    [range * 2 ^ s] is a multiple [q * nthreads] of the thread count below
    [2 ^ 53], the bounds of every slice are those of the exact formula. *)
Lemma thread_get_slice_exact_ratio (tid nthreads range q : Z) (s : nat) :
  0 <= tid < nthreads -> nthreads < 2 ^ 53 -> 0 <= range -> (s <= 64)%nat ->
  range * 2 ^ Z.of_nat s = q * nthreads ->
  range * 2 ^ Z.of_nat s < 2 ^ 53 ->
  thread_get_slice tid nthreads range = Some (slice_exact tid nthreads range).
Proof.
  intros Htid Hn Hr Hs Hq Hlt.
  assert (H2s : 0 < 2 ^ Z.of_nat s) by (apply Z.pow_pos_nonneg; lia).
  assert (Hr53 : range < 2 ^ 53) by nia.
  unfold thread_get_slice, MIN_double_long, slice_exact.
  destruct nthreads as [|n|n]; [lia| |lia].
  rewrite (of_long_dyadic n) by done.
  destruct range as [|r|r]; [| |lia].
  - (* an empty range *)
    rewrite of_long_zero.
    change (Double.div (S754_zero false) (dyadic n 0)) with (S754_zero false).
    assert (Hz : forall t, 0 <= t < 2 ^ 53 ->
              Double.mul (Double.of_long t) (S754_zero false) = S754_zero false).
    { intros [|t|t] Ht; [done| |lia]. rewrite of_long_dyadic by lia. apply mul_zero_r. }
    rewrite !Hz by lia. cbn [Double.to_long mbind option_bind].
    change (Double.lt (S754_zero false) (S754_zero false)) with false.
    cbn [Double.to_long mbind option_bind].
    rewrite !Z.mul_0_r, Z.div_0_l by lia. done.
  - assert (Hqpos : 0 < q) by nia.
    destruct q as [|q|q]; [lia| |lia].
    assert (Hq53 : Z.pos q < 2 ^ 53) by nia.
    rewrite (of_long_dyadic r) by done.
    rewrite (div_dyadic r n q s 0 0) by (done || lia).
    replace (0 - 0 - Z.of_nat s) with (- Z.of_nat s) by lia.
    assert (Hprod : forall t, 0 < t <= Z.pos n -> t * Z.pos q < 2 ^ 53) by (intros; nia).
    assert (Hmul : forall t : positive, Z.pos t <= Z.pos n ->
              Double.mul (Double.of_long (Z.pos t)) (dyadic q (- Z.of_nat s))
              = dyadic (t * q) (- Z.of_nat s)).
    { intros t Ht. rewrite of_long_dyadic by lia.
      rewrite mul_dyadic; [done| |lia..]. apply Hprod. lia. }
    assert (Hstart : Double.to_long
                       (Double.mul (Double.of_long tid) (dyadic q (- Z.of_nat s)))
                     = Some (tid * Z.pos r / Z.pos n)).
    { destruct tid as [|t|t]; [|  |lia].
      - rewrite of_long_zero. by rewrite Z.div_0_l by lia.
      - rewrite Hmul by lia. rewrite to_long_dyadic by (apply (Hprod (Z.pos t)); lia).
        f_equal. rewrite Pos2Z.inj_mul. by apply ratio_floor. }
    rewrite Hstart. cbn [mbind option_bind].
    destruct (tid + 1) as [|t1|t1] eqn:Ht1; [lia| |lia].
    rewrite Hmul by lia. rewrite lt_dyadic by (done || apply (Hprod (Z.pos t1)); lia).
    assert (Hfloor : Z.pos (t1 * q) / 2 ^ Z.of_nat s = Z.pos t1 * Z.pos r / Z.pos n).
    { rewrite Pos2Z.inj_mul. by apply ratio_floor. }
    case_bool_decide as Hcmp.
    + rewrite to_long_dyadic by (apply (Hprod (Z.pos t1)); lia).
      cbn [mbind option_bind]. do 2 f_equal. rewrite Hfloor.
      rewrite Z.min_l; [done|]. rewrite <- Hfloor.
      apply Z.lt_le_incl, Z.div_lt_upper_bound; lia.
    + rewrite <- (of_long_dyadic r) by done. rewrite to_long_of_long by lia.
      cbn [mbind option_bind]. do 2 f_equal.
      rewrite Z.min_r; [done|]. rewrite <- Hfloor.
      apply Z.div_le_lower_bound; lia.
Qed.

(** *** The exact formula tiles the range *)

Lemma slice_exact_lookup (nthreads range : Z) (k : nat) (s : thread_slice) :
  ((fun tid => slice_exact tid nthreads range) <$> seqZ 0 nthreads) !! k = Some s ->
  Z.of_nat k < nthreads /\ s = slice_exact (Z.of_nat k) nthreads range.
Proof.
  rewrite list_lookup_fmap. intros H.
  destruct (seqZ 0 nthreads !! k) as [t|] eqn:Ht; [|done].
  apply lookup_seqZ in Ht as [-> Hk]. injection H as <-. split; [lia|].
  f_equal. 
Qed.

Lemma slice_exact_bounds (tid nthreads range : Z) :
  0 <= tid < nthreads -> 0 <= range ->
  slice_start (slice_exact tid nthreads range) = tid * range / nthreads /\
  slice_end (slice_exact tid nthreads range) = (tid + 1) * range / nthreads /\
  0 <= tid * range / nthreads <= (tid + 1) * range / nthreads /\
  (tid + 1) * range / nthreads <= range.
Proof.
  intros Ht Hr. cbn [slice_exact slice_start slice_end].
  assert (Hle : (tid + 1) * range / nthreads <= range).
  { apply Z.div_le_upper_bound; [lia|]. nia. }
  split; [done|]. split; [lia|]. split; [|done]. split.
  - apply Z.div_pos; nia.
  - apply Z.div_le_mono; nia.
Qed.

Lemma floor_mono (a b range nthreads : Z) :
  0 < nthreads -> 0 <= range -> a <= b -> a * range / nthreads <= b * range / nthreads.
Proof. intros. apply Z.div_le_mono; nia. Qed.

(** Between two values of a function on [0 .. n] lies a step that
    crosses any given level. *)
Lemma crossing (f : Z -> Z) (n : nat) (i : Z) :
  f 0 <= i < f (Z.of_nat n) ->
  exists t, 0 <= t < Z.of_nat n /\ f t <= i < f (t + 1).
Proof.
  induction n as [|n IH]; [intros [? ?]; change (Z.of_nat 0) with 0 in *; lia|].
  intros [Hlo Hhi].
  destruct (Z_lt_le_dec i (f (Z.of_nat n))) as [Hlt|Hge].
  - destruct IH as (t & Ht & Hft); [lia|]. exists t. split; [lia|done].
  - exists (Z.of_nat n). split; [lia|].
    replace (Z.of_nat n + 1) with (Z.of_nat (S n)) by lia. lia.
Qed.

Lemma slices_tile_exact_ratio (nthreads range q : Z) (s : nat) :
  0 < nthreads < 2 ^ 53 -> 0 <= range -> (s <= 64)%nat ->
  range * 2 ^ Z.of_nat s = q * nthreads ->
  range * 2 ^ Z.of_nat s < 2 ^ 53 ->
  slices_tile nthreads range.
Proof.
  intros Hn Hr Hs Hq Hlt.
  exists ((fun tid => slice_exact tid nthreads range) <$> seqZ 0 nthreads).
  split; [|split; [|split]].
  - unfold all_slices. rewrite <- list_fmap_compose.
    apply list_fmap_ext. intros k tid [-> Hk]%lookup_seqZ. cbn.
    apply (thread_get_slice_exact_ratio _ _ _ q s); (done || lia).
  - intros k a b [Hk ->]%slice_exact_lookup [Hk' ->]%slice_exact_lookup.
    destruct (slice_exact_bounds (Z.of_nat k) nthreads range) as (_ & -> & _); [lia|done|].
    destruct (slice_exact_bounds (Z.of_nat (S k)) nthreads range) as (-> & _); [lia|done|].
    do 2 f_equal. lia.
  - intros k k' a b i Hne [Hk ->]%slice_exact_lookup [Hk' ->]%slice_exact_lookup.
    unfold in_slice.
    destruct (slice_exact_bounds (Z.of_nat k) nthreads range) as (-> & -> & _);
      [lia|done|].
    destruct (slice_exact_bounds (Z.of_nat k') nthreads range) as (-> & -> & _);
      [lia|done|].
    intros Hi Hi'.
    destruct (Z_lt_le_dec (Z.of_nat k) (Z.of_nat k')) as [Hlt'|Hge].
    + pose proof (floor_mono (Z.of_nat k + 1) (Z.of_nat k') range nthreads). lia.
    + pose proof (floor_mono (Z.of_nat k' + 1) (Z.of_nat k) range nthreads). lia.
  - intros i. split.
    + intros Hi.
      destruct (crossing (fun t => t * range / nthreads) (Z.to_nat nthreads) i)
        as (t & Ht & Hcross).
      { rewrite Z2Nat.id by lia. cbn beta.
        rewrite (Z.mul_comm nthreads range), Z.div_mul, Z.mul_0_l, Z.div_0_l by lia. lia. }
      rewrite Z2Nat.id in Ht by lia.
      exists (slice_exact t nthreads range). split.
      * apply list_elem_of_fmap. exists t. split; [done|]. apply elem_of_seqZ. lia.
      * unfold in_slice.
        destruct (slice_exact_bounds t nthreads range) as (-> & -> & _); [lia|done|].
        exact Hcross.
    + intros (sl & Hin & Hi). apply list_elem_of_fmap in Hin as (t & -> & Ht%elem_of_seqZ).
      unfold in_slice in Hi.
      destruct (slice_exact_bounds t nthreads range) as (H1 & H2 & H3 & H4); [lia|done|].
      rewrite H1, H2 in Hi. lia.
Qed.

(** X1.  With a thread count that is a power of two, [2 ^ k], and a range
    for which [range * 2 ^ k] is below [2 ^ 53], the double arithmetic of
    [thread_get_slice] is exact: every ordinal gets the bounds
    [tid * range / nthreads] and [(tid + 1) * range / nthreads] of integer
    arithmetic, and the slices tile the range. *)
Theorem power_of_two_slices_are_exact (k : nat) (range : Z) :
  (k <= 52)%nat -> 0 <= range -> range * 2 ^ Z.of_nat k < 2 ^ 53 ->
  (forall tid, 0 <= tid < 2 ^ Z.of_nat k ->
     thread_get_slice tid (2 ^ Z.of_nat k) range
     = Some (slice_exact tid (2 ^ Z.of_nat k) range)) /\
  slices_tile (2 ^ Z.of_nat k) range.
Proof.
  intros Hk Hr Hlt.
  assert (Hpow : 0 < 2 ^ Z.of_nat k < 2 ^ 53).
  { split; [apply Z.pow_pos_nonneg; lia|]. apply Z.pow_lt_mono_r; lia. }
  split.
  - intros tid Htid.
    apply (thread_get_slice_exact_ratio tid _ range range k); (done || lia).
  - apply (slices_tile_exact_ratio _ range range k); (done || lia).
Qed.

(** X2.  With a thread count that divides the range, [range = q *
    nthreads] below [2 ^ 53], every ordinal gets the [q] indices from
    [tid * q] on, and the slices tile the range. *)
Theorem evenly_divided_slices (nthreads q : Z) :
  0 < nthreads < 2 ^ 53 -> 0 <= q -> q * nthreads < 2 ^ 53 ->
  (forall tid, 0 <= tid < nthreads ->
     thread_get_slice tid nthreads (q * nthreads)
     = Some {| slice_start := tid * q; slice_end := (tid + 1) * q |}) /\
  slices_tile nthreads (q * nthreads).
Proof.
  intros Hn Hq Hlt.
  assert (Hr : 0 <= q * nthreads) by nia.
  split.
  - intros tid Htid.
    rewrite (thread_get_slice_exact_ratio tid nthreads (q * nthreads) q 0);
      [|done|lia|done|lia|cbn; lia|cbn; lia].
    unfold slice_exact. do 2 f_equal.
    + rewrite Z.mul_assoc, Z.div_mul by lia. done.
    + rewrite Z.mul_assoc, Z.div_mul by lia. apply Z.min_l. nia.
  - apply (slices_tile_exact_ratio nthreads (q * nthreads) q 0);
      [done|done|lia|cbn; lia|cbn; lia].
Qed.

(** X3.  Whatever the thread count, a slice that [thread_get_slice]
    returns for an ordinal [tid >= 0] and a range below [2 ^ 53] lies
    within the range: its start is not negative, its end is at most
    [range], and every index of the slice is an index of the range. *)
Theorem slices_stay_in_range (tid nthreads range : Z) (s : thread_slice) :
  0 <= tid -> 0 <= nthreads -> 0 <= range < 2 ^ 53 ->
  thread_get_slice tid nthreads range = Some s ->
  0 <= slice_start s /\ slice_end s <= range /\
  forall i, in_slice s i -> 0 <= i < range.
Proof.
  intros Htid Hn Hr Hs.
  pose proof (thread_get_slice_start_nonneg _ _ _ _ Htid Hn (proj1 Hr) Hs) as Hlo.
  pose proof (thread_get_slice_end_le _ _ _ _ Hr Hs) as Hhi.
  split; [done|]. split; [done|]. unfold in_slice. lia.
Qed.

(** *** The theorems at concrete inputs *)

Lemma power_of_two_slices_are_exact_witness :
  ((3 <= 52)%nat /\ 0 <= 16 /\ 16 * 2 ^ Z.of_nat 3 < 2 ^ 53) /\
  (forall tid, 0 <= tid < 2 ^ Z.of_nat 3 ->
     thread_get_slice tid (2 ^ Z.of_nat 3) 16
     = Some (slice_exact tid (2 ^ Z.of_nat 3) 16)) /\
  slices_tile (2 ^ Z.of_nat 3) 16.
Proof.
  assert (H1 : (3 <= 52)%nat) by lia.
  assert (H2 : 0 <= 16) by lia.
  assert (H3 : 16 * 2 ^ Z.of_nat 3 < 2 ^ 53) by (vm_compute; reflexivity).
  split; [exact (conj H1 (conj H2 H3))|].
  exact (power_of_two_slices_are_exact 3 16 H1 H2 H3).
Defined.

Lemma evenly_divided_slices_witness :
  (0 < 3 < 2 ^ 53 /\ 0 <= 20 /\ 20 * 3 < 2 ^ 53) /\
  (forall tid, 0 <= tid < 3 ->
     thread_get_slice tid 3 (20 * 3)
     = Some {| slice_start := tid * 20; slice_end := (tid + 1) * 20 |}) /\
  slices_tile 3 (20 * 3).
Proof.
  assert (H1 : 0 < 3 < 2 ^ 53) by (vm_compute; split; reflexivity).
  assert (H2 : 0 <= 20) by lia.
  assert (H3 : 20 * 3 < 2 ^ 53) by (vm_compute; reflexivity).
  split; [exact (conj H1 (conj H2 H3))|].
  exact (evenly_divided_slices 3 20 H1 H2 H3).
Defined.

Lemma slices_stay_in_range_witness :
  (0 <= 6 /\ 0 <= 7 /\ 0 <= 61 < 2 ^ 53 /\
   thread_get_slice 6 7 61 = Some {| slice_start := 52; slice_end := 60 |}) /\
  0 <= slice_start {| slice_start := 52; slice_end := 60 |} /\
  slice_end {| slice_start := 52; slice_end := 60 |} <= 61 /\
  forall i, in_slice {| slice_start := 52; slice_end := 60 |} i -> 0 <= i < 61.
Proof.
  assert (H1 : 0 <= 6) by lia.
  assert (H2 : 0 <= 7) by lia.
  assert (H3 : 0 <= 61 < 2 ^ 53) by (vm_compute; split; [discriminate|reflexivity]).
  assert (H4 : thread_get_slice 6 7 61 = Some {| slice_start := 52; slice_end := 60 |})
    by (vm_compute; reflexivity).
  split; [exact (conj H1 (conj H2 (conj H3 H4)))|].
  exact (slices_stay_in_range 6 7 61 _ H1 H2 H3 H4).
Defined.

(** ** Checking a tiling by computation *)

Lemma chain_spec (sl : list thread_slice) (lo hi : Z) :
  chain lo hi sl = true ->
  lo <= hi /\
  (forall k s s', sl !! k = Some s -> sl !! S k = Some s' ->
                  slice_end s = slice_start s') /\
  (forall s i, s ∈ sl -> in_slice s i -> lo <= i < hi) /\
  (forall k k' s s' i, k <> k' -> sl !! k = Some s -> sl !! k' = Some s' ->
                       in_slice s i -> ~ in_slice s' i) /\
  (forall i, lo <= i < hi -> exists s, s ∈ sl /\ in_slice s i).
Proof.
  revert lo. induction sl as [|a sl IH]; intros lo; cbn [chain].
  - intros ->%bool_decide_eq_true. split; [lia|]. split; [done|].
    split; [intros s i Hs; by apply elem_of_nil in Hs|]. split; [done|]. lia.
  - rewrite !andb_true_iff, !bool_decide_eq_true. intros [[Hs Hle] Hc].
    destruct (IH _ Hc) as (Hhi & Hadj & Hin & Hdis & Hcov).
    split; [lia|]. split; [|split; [|split]].
    + intros [|k] s s'; cbn.
      * intros [= <-] Hs'. destruct sl as [|b sl']; [done|].
        injection Hs' as <-. cbn [chain] in Hc.
        rewrite !andb_true_iff, !bool_decide_eq_true in Hc. lia.
      * apply Hadj.
    + intros s i [->|Hs']%elem_of_cons Hi.
      * unfold in_slice in Hi. lia.
      * specialize (Hin s i Hs' Hi). lia.
    + intros [|k] [|k'] s s' i Hne; cbn; try done.
      * intros [= <-] Hs' Hi Hi'. apply list_elem_of_lookup_2 in Hs'.
        specialize (Hin s' i Hs' Hi'). unfold in_slice in Hi. lia.
      * intros Hs' [= <-] Hi Hi'. apply list_elem_of_lookup_2 in Hs'.
        specialize (Hin s i Hs' Hi). unfold in_slice in Hi'. lia.
      * apply Hdis. lia.
    + intros i Hi. destruct (Z_lt_le_dec i (slice_end a)) as [Hlt|Hge].
      * exists a. split; [left|]. unfold in_slice. lia.
      * destruct (Hcov i) as (s & Hs' & Hi'); [lia|]. exists s. split; [by right|done].
Qed.

Lemma tiles_b_sound (nthreads range : Z) :
  tiles_b nthreads range = true -> slices_tile nthreads range.
Proof.
  unfold tiles_b. destruct (mapM id (all_slices nthreads range)) as [sl|] eqn:Hsl; [|done].
  intros Hc. apply chain_spec in Hc as (_ & Hadj & Hin & Hdis & Hcov).
  exists sl. split; [|split; [done|split; [done|]]].
  - apply mapM_Some in Hsl. clear -Hsl.
    induction Hsl as [|x y l k Hxy _ IH]; [done|]. cbn in *. by rewrite Hxy, IH.
  - intros i. split; [apply Hcov|]. intros (s & Hs & Hi). eapply Hin; done.
Qed.

(** ** Loading the glyphs *)

(** X4.  For every thread count from 1 to 48 the slices of the
    [CONTOUR_CONFIG_COUNT] glyph indices tile them: every glyph is loaded
    by exactly one thread of [init_cmap]. *)
Theorem glyph_slices_tile (nthreads : Z) :
  1 <= nthreads <= 48 -> slices_tile nthreads CONTOUR_CONFIG_COUNT.
Proof.
  intros Hn. apply tiles_b_sound.
  assert (Hall : forallb (fun n => tiles_b n CONTOUR_CONFIG_COUNT) (seqZ 1 48) = true)
    by (vm_compute; reflexivity).
  rewrite forallb_forall in Hall. apply Hall.
  apply list_elem_of_In, elem_of_seqZ. lia.
Qed.

Section InitCmap.
Variable d : gmap string ppm_image.

Let body : Z -> list (option ppm_image) -> option (list (option ppm_image)) :=
  fun i cmap => c ← read_ppm d (contour_filename i); store cmap i (Some c).

(** The loop of [init_cmap] over [[lo, hi)]. *)
Lemma init_cmap_loop (lo hi : Z) (cmap cmap' : list (option ppm_image)) :
  for_loop lo hi body cmap = Some cmap' ->
  length cmap' = length cmap /\
  (forall i, lo <= i < hi ->
     exists c, read_ppm d (contour_filename i) = Some c /\
               load cmap' i = Some (Some c)) /\
  (forall i, ~ lo <= i < hi -> load cmap' i = load cmap i).
Proof.
  destruct (Z_le_gt_dec lo hi) as [Hle|Hgt].
  2: { rewrite for_loop_empty by lia. intros [= <-]. split; [done|]. split; [lia|done]. }
  intros Hrun.
  apply (for_loop_ind (fun k m =>
           length m = length cmap /\
           (forall i, lo <= i < k ->
              exists c, read_ppm d (contour_filename i) = Some c /\
                        load m i = Some (Some c)) /\
           (forall i, ~ lo <= i < k -> load m i = load cmap i))
         lo hi body cmap cmap' Hle); [| |exact Hrun].
  - split; [done|]. split; [lia|done].
  - intros i m m' Hi (Hlen & Hdone & Hframe) Hb. unfold body in Hb.
    apply bind_Some in Hb as (c & Hc & Hst).
    split; [|split].
    + by rewrite (store_length _ _ _ _ Hst).
    + intros i' Hi'. destruct (decide (i' = i)) as [->|Hne].
      * exists c. split; [done|]. eapply load_store_eq, Hst.
      * destruct (Hdone i') as (c' & Hc' & Hl); [lia|]. exists c'. split; [done|].
        by rewrite (load_store_ne _ _ _ _ _ Hst).
    + intros i' Hi'. rewrite (load_store_ne _ _ _ _ _ Hst) by lia. apply Hframe. lia.
Qed.

Lemma init_cmap_loop_total (lo hi : Z) (cmap : list (option ppm_image)) :
  0 <= lo -> hi <= Z.of_nat (length cmap) ->
  (forall i, lo <= i < hi -> is_Some (read_ppm d (contour_filename i))) ->
  exists cmap', for_loop lo hi body cmap = Some cmap'.
Proof.
  intros Hlo Hhi Hfiles.
  destruct (Z_le_gt_dec lo hi) as [Hle|Hgt].
  2: { rewrite for_loop_empty by lia. eauto. }
  destruct (for_loop_total (fun _ m => length m = length cmap) lo hi body cmap Hle)
    as (cmap' & Hrun & _); [done| |eauto].
  intros i m Hi Hlen. destruct (Hfiles i Hi) as [c Hc]. unfold body. rewrite Hc. cbn.
  destruct (store_is_Some m i (Some c)) as [m' Hm']; [lia|].
  exists m'. split; [done|]. by rewrite (store_length _ _ _ _ Hm').
Qed.
End InitCmap.

(** What a tiling says about the slice of each ordinal. *)
Lemma slices_tile_inv (nthreads range : Z) :
  slices_tile nthreads range ->
  (forall tid, 0 <= tid < nthreads ->
     exists s, thread_get_slice tid nthreads range = Some s) /\
  (forall i, 0 <= i < range ->
     exists tid s, 0 <= tid < nthreads /\
                   thread_get_slice tid nthreads range = Some s /\ in_slice s i) /\
  (forall tid tid' s s' i,
     0 <= tid < nthreads -> 0 <= tid' < nthreads -> tid <> tid' ->
     thread_get_slice tid nthreads range = Some s ->
     thread_get_slice tid' nthreads range = Some s' ->
     in_slice s i -> ~ in_slice s' i) /\
  (forall tid s i, 0 <= tid < nthreads ->
     thread_get_slice tid nthreads range = Some s -> in_slice s i -> 0 <= i < range).
Proof.
  intros (sl & Hall & _ & Hdis & Hcov).
  assert (Hlook : forall tid, 0 <= tid < nthreads ->
            thread_get_slice tid nthreads range = sl !! Z.to_nat tid).
  { intros tid Ht.
    assert (H : all_slices nthreads range !! Z.to_nat tid
                = Some (thread_get_slice tid nthreads range)).
    { unfold all_slices. rewrite list_lookup_fmap, lookup_seqZ_lt by lia.
      cbn. do 2 f_equal. lia. }
    rewrite Hall, list_lookup_fmap in H.
    destruct (sl !! Z.to_nat tid) as [s|]; cbn in *; congruence. }
  assert (Hlen : Z.of_nat (length sl) = Z.max 0 nthreads).
  { apply (f_equal length) in Hall. unfold all_slices in Hall.
    rewrite !length_fmap, length_seqZ in Hall. lia. }
  split; [|split; [|split]].
  - intros tid Ht. rewrite Hlook by done.
    destruct (lookup_lt_is_Some_2 sl (Z.to_nat tid)) as [s Hs]; [lia|].
    rewrite Hs. eauto.
  - intros i Hi. destruct (proj1 (Hcov i) Hi) as (s & Hs & Hin).
    apply list_elem_of_lookup in Hs as [k Hk].
    pose proof (lookup_lt_Some _ _ _ Hk) as Hlt.
    exists (Z.of_nat k), s. split; [lia|]. split; [|done].
    rewrite Hlook by lia. rewrite Nat2Z.id, Hk. done.
  - intros tid tid' s s' i Ht Ht' Hne Hs Hs'.
    rewrite Hlook in Hs, Hs' by done.
    destruct (sl !! Z.to_nat tid) as [a|] eqn:Ha; [|done].
    destruct (sl !! Z.to_nat tid') as [b|] eqn:Hb; [|done].
    injection Hs as <-. injection Hs' as <-.
    apply (Hdis (Z.to_nat tid) (Z.to_nat tid')); [lia|done|done].
  - intros tid s i Ht Hs Hin. apply Hcov. exists s. split; [|done].
    rewrite Hlook in Hs by done.
    destruct (sl !! Z.to_nat tid) as [a|] eqn:Ha; [|done].
    injection Hs as <-. eapply list_elem_of_lookup_2, Ha.
Qed.

(** X5.  [init_cmap] for one thread: when the table has its
    [CONTOUR_CONFIG_COUNT] entries and the glyph files of the thread's
    slice exist, the call returns, the entries of the slice hold the
    images decoded from [./contours/<i>.ppm], and the other entries are
    as before. *)
Theorem init_cmap_loads_its_slice (d : gmap string ppm_image)
    (cmap : list (option ppm_image)) (tid nthreads : Z) (s : thread_slice) :
  Z.of_nat (length cmap) = CONTOUR_CONFIG_COUNT ->
  0 <= tid -> 0 <= nthreads ->
  thread_get_slice tid nthreads CONTOUR_CONFIG_COUNT = Some s ->
  (forall i, in_slice s i -> is_Some (d !! contour_filename i)) ->
  exists cmap',
    init_cmap d cmap tid nthreads = Some cmap' /\
    length cmap' = length cmap /\
    (forall i, in_slice s i ->
       exists c, d !! contour_filename i = Some c /\ load cmap' i = Some (Some c)) /\
    (forall i, ~ in_slice s i -> load cmap' i = load cmap i).
Proof.
  intros Hlen Htid Hn Hs Hfiles.
  assert (Hr : 0 <= CONTOUR_CONFIG_COUNT < 2 ^ 53) by (vm_compute; split; [discriminate|done]).
  pose proof (thread_get_slice_start_nonneg _ _ _ _ Htid Hn (proj1 Hr) Hs) as Hlo.
  pose proof (thread_get_slice_end_le _ _ _ _ Hr Hs) as Hhi.
  unfold init_cmap. rewrite Hs. cbn [mbind option_bind].
  destruct (init_cmap_loop_total d (slice_start s) (slice_end s) cmap)
    as [cmap' Hrun]; [done|lia|exact Hfiles|].
  exists cmap'. split; [exact Hrun|].
  apply init_cmap_loop in Hrun as (Hl & Hdone & Hframe). done.
Qed.

(** X6.  The glyph-loading stage: when the slices of the thread count
    tile the [CONTOUR_CONFIG_COUNT] indices and the glyph files exist, the
    calls of [init_cmap] by all the threads return and leave in every
    entry [i] of the table the image decoded from [./contours/<i>.ppm]. *)
Theorem cmap_stage_fills_the_table (d : gmap string ppm_image) (nthreads : Z) :
  slices_tile nthreads CONTOUR_CONFIG_COUNT -> glyphs_on_disk d ->
  exists cmap',
    cmap_stage d nthreads = Some cmap' /\
    Z.of_nat (length cmap') = CONTOUR_CONFIG_COUNT /\
    forall i, 0 <= i < CONTOUR_CONFIG_COUNT ->
      exists c, d !! contour_filename i = Some c /\ load cmap' i = Some (Some c).
Proof.
  intros Htile Hdisk.
  destruct (slices_tile_inv _ _ Htile) as (Hex & Hcov & _ & Hin).
  assert (Hr : 0 <= CONTOUR_CONFIG_COUNT < 2 ^ 53) by (vm_compute; split; [discriminate|done]).
  assert (Hn : 0 <= nthreads).
  { destruct (Hcov 0) as (tid & _ & Ht & _); [vm_compute; split; [discriminate|done]|]. lia. }
  set (loaded := fun (m : list (option ppm_image)) (i : Z) =>
         exists c, d !! contour_filename i = Some c /\ load m i = Some (Some c)).
  destruct (for_loop_total
              (fun k m => Z.of_nat (length m) = CONTOUR_CONFIG_COUNT /\
                          forall tid s i, 0 <= tid < k ->
                            thread_get_slice tid nthreads CONTOUR_CONFIG_COUNT = Some s ->
                            in_slice s i -> loaded m i)
              0 nthreads (fun tid cmap => init_cmap d cmap tid nthreads)
              (replicate (Z.to_nat CONTOUR_CONFIG_COUNT) None) Hn)
    as (cmap' & Hrun & Hlen & Hall).
  - split; [by rewrite length_replicate|]. intros; lia.
  - intros tid m Ht [Hlen Hdone].
    destruct (Hex tid Ht) as [s Hs].
    pose proof (thread_get_slice_start_nonneg _ _ _ _ (proj1 Ht) Hn (proj1 Hr) Hs) as Hlo.
    pose proof (thread_get_slice_end_le _ _ _ _ Hr Hs) as Hhi.
    unfold init_cmap. rewrite Hs. cbn [mbind option_bind].
    destruct (init_cmap_loop_total d (slice_start s) (slice_end s) m)
      as [m' Hm']; [done|lia| |].
    { intros i Hi. apply Hdisk. lia. }
    exists m'. split; [exact Hm'|].
    apply init_cmap_loop in Hm' as (Hl & Hnew & Hframe).
    split; [by rewrite Hl|].
    intros tid' s' i Ht' Hs' Hi.
    destruct (decide (slice_start s <= i < slice_end s)) as [Hin'|Hout].
    + apply Hnew, Hin'.
    + destruct (decide (tid' = tid)) as [->|Hne].
      * assert (s' = s) as -> by congruence. done.
      * destruct (Hdone tid' s' i) as (c & Hc & Hl'); [lia|done|done|].
        exists c. split; [done|]. by rewrite Hframe.
  - exists cmap'. split; [exact Hrun|]. split; [done|].
    intros i Hi. destruct (Hcov i Hi) as (tid & s & Ht & Hs & Hin').
    eapply Hall; done.
Qed.

(** ** Rescaling an image that does not fit *)

Section Rescale.
Variable RESCALE_X RESCALE_Y : Z.
Variable sample_bicubic : ppm_image -> spec_float -> spec_float -> ppm_pixel.

Variable h0 : gmap loc ppm_image.
Variable src dst : loc.
Variable img sc : ppm_image.
Hypothesis distinct : src <> dst.
Hypothesis at_image : h0 !! src = Some img.
Hypothesis at_scaled : h0 !! dst = Some sc.

Let body : Z -> gmap loc ppm_image -> option (gmap loc ppm_image) :=
  fun i h =>
    img ← h !! src;
    sc ← h !! dst;
    let sample :=
      sample_bicubic img
        (Single.div (Single.of_long (i `quot` RESCALE_Y)) (Single.of_long (RESCALE_X - 1)))
        (Single.div (Single.of_long (i `rem` RESCALE_Y)) (Single.of_long (RESCALE_Y - 1))) in
    d ← store (data sc) i sample;
    Some (<[dst := {| x := x sc; y := y sc; data := d |}]> h).

(** The state of the loop of [rescale_image] before the index [k], for a
    slice that starts at [lo] and a scaled image that was [sc0] before the
    loop. *)
Let rescaled (sc0 : ppm_image) (lo k : Z) (h : gmap loc ppm_image) : Prop :=
  h !! src = Some img /\
  (forall l, l <> dst -> h !! l = h0 !! l) /\
  exists sc', h !! dst = Some sc' /\
    x sc' = x sc0 /\ y sc' = y sc0 /\ length (data sc') = length (data sc0) /\
    (forall i, lo <= i < k ->
       load (data sc') i = Some (resampled RESCALE_X RESCALE_Y sample_bicubic img i)) /\
    (forall i, ~ lo <= i < k -> load (data sc') i = load (data sc0) i).

Lemma rescale_loop (sc0 : ppm_image) (lo hi : Z) (h : gmap loc ppm_image) :
  0 <= lo -> hi <= Z.of_nat (length (data sc0)) ->
  rescaled sc0 lo lo h ->
  exists h', for_loop lo hi body h = Some h' /\ rescaled sc0 lo hi h'.
Proof.
  intros Hlo Hhi Hinit.
  destruct (Z_le_gt_dec lo hi) as [Hle|Hgt].
  2: { exists h. rewrite for_loop_empty by lia. split; [done|].
       destruct Hinit as (Himg & Hother & sc' & Hsc' & Hx & Hy & Hlen & _ & Hframe).
       split; [done|]. split; [done|]. exists sc'. repeat (split; [done|]).
       split; [intros; lia|]. intros i _. apply Hframe. lia. }
  apply (for_loop_total (rescaled sc0 lo) lo hi body h Hle Hinit).
  intros i m Hi (Himg & Hother & sc' & Hsc' & Hx & Hy & Hlen & Hdone & Hframe).
  unfold body. rewrite Himg, Hsc'. cbn [mbind option_bind].
  destruct (store_is_Some (data sc') i
              (resampled RESCALE_X RESCALE_Y sample_bicubic img i)) as [d' Hd']; [lia|].
  unfold resampled in Hd'. rewrite Hd'. cbn [mbind option_bind].
  eexists. split; [done|]. split; [|split].
  - by rewrite lookup_insert_ne.
  - intros l Hl. rewrite lookup_insert_ne by done. by apply Hother.
  - eexists. split; [apply lookup_insert_eq|]. cbn [x y data].
    split; [done|]. split; [done|]. split; [by rewrite (store_length _ _ _ _ Hd')|].
    split.
    + intros i' Hi'. destruct (decide (i' = i)) as [->|Hne].
      * apply (load_store_eq _ _ _ _ Hd').
      * rewrite (load_store_ne _ _ _ _ _ Hd') by done. apply Hdone. lia.
    + intros i' Hi'. rewrite (load_store_ne _ _ _ _ _ Hd') by lia. apply Hframe. lia.
Qed.

(** [rescale_image] when the image does not fit, from a heap in which the
    scaled image is [cur]. *)
Lemma rescale_image_run (h : gmap loc ppm_image) (cur : ppm_image)
    (tid nthreads : Z) (s : thread_slice) :
  ~ fits RESCALE_X RESCALE_Y img ->
  h !! src = Some img -> (forall l, l <> dst -> h !! l = h0 !! l) ->
  h !! dst = Some cur ->
  Z.of_nat (length (data cur)) = RESCALE_X * RESCALE_Y ->
  RESCALE_X * RESCALE_Y < 2 ^ 53 ->
  0 <= tid -> 0 <= nthreads ->
  thread_get_slice tid nthreads (RESCALE_X * RESCALE_Y) = Some s ->
  exists h',
    rescale_image RESCALE_X RESCALE_Y sample_bicubic h src dst tid nthreads
      = Some h' /\
    rescaled {| x := RESCALE_X; y := RESCALE_Y; data := data cur |}
      (slice_start s) (slice_end s) h'.
Proof.
  intros Hbig Himg Hother Hcur Hlen Hr53 Htid Hn Hs.
  assert (Hr : 0 <= RESCALE_X * RESCALE_Y < 2 ^ 53) by lia.
  pose proof (thread_get_slice_start_nonneg _ _ _ _ Htid Hn (proj1 Hr) Hs) as Hlo.
  pose proof (thread_get_slice_end_le _ _ _ _ Hr Hs) as Hhi.
  unfold rescale_image. rewrite Himg. cbn [mbind option_bind].
  rewrite bool_decide_false by done. rewrite Hcur. cbn [mbind option_bind].
  rewrite Hs. cbn [mbind option_bind].
  apply rescale_loop; [done|cbn [data]; lia|].
  split; [by rewrite lookup_insert_ne|]. split.
  - intros l Hl. rewrite lookup_insert_ne by done. by apply Hother.
  - eexists. split; [apply lookup_insert_eq|]. cbn [x y data].
    repeat (split; [done|]). split; [intros; lia|done].
Qed.

(** X7.  [rescale_image] for one thread, when the image does not fit
    and the scaled buffer is an object of its own with room for
    [RESCALE_X * RESCALE_Y] pixels: the call returns; the source image
    and the rest of the heap are as before; the scaled image has the
    target dimensions; the pixels of the thread's slice are those that
    [sample_bicubic] computes from the source image at the coordinates
    [(i / RESCALE_Y) / (RESCALE_X - 1)] and [(i % RESCALE_Y) / (RESCALE_Y - 1)];
    and the other pixels are as before. *)
Theorem rescale_image_resamples_its_slice (tid nthreads : Z) (s : thread_slice) :
  ~ fits RESCALE_X RESCALE_Y img ->
  Z.of_nat (length (data sc)) = RESCALE_X * RESCALE_Y ->
  RESCALE_X * RESCALE_Y < 2 ^ 53 ->
  0 <= tid -> 0 <= nthreads ->
  thread_get_slice tid nthreads (RESCALE_X * RESCALE_Y) = Some s ->
  exists h' sc',
    rescale_image RESCALE_X RESCALE_Y sample_bicubic h0 src dst tid nthreads
      = Some h' /\
    h' !! src = Some img /\
    (forall l, l <> dst -> h' !! l = h0 !! l) /\
    h' !! dst = Some sc' /\
    x sc' = RESCALE_X /\ y sc' = RESCALE_Y /\
    length (data sc') = length (data sc) /\
    (forall i, in_slice s i ->
       load (data sc') i = Some (resampled RESCALE_X RESCALE_Y sample_bicubic img i)) /\
    (forall i, ~ in_slice s i -> load (data sc') i = load (data sc) i).
Proof.
  intros Hbig Hlen Hr53 Htid Hn Hs.
  destruct (rescale_image_run h0 sc tid nthreads s) as (h' & Hrun & Hres); try done.
  destruct Hres as (Himg & Hother & sc' & Hsc' & Hx & Hy & Hl & Hnew & Hframe).
  exists h', sc'. done.
Qed.

(** The rescale stage, from a world whose heap is [h0]. *)
Lemma rescale_stage_run (w : world) :
  heap w = h0 ->
  image (shared w) = Some src -> scaled (shared w) = Some dst ->
  ~ fits RESCALE_X RESCALE_Y img ->
  Z.of_nat (length (data sc)) = RESCALE_X * RESCALE_Y ->
  RESCALE_X * RESCALE_Y < 2 ^ 53 ->
  1 <= nthreads (shared w) ->
  slices_tile (nthreads (shared w)) (RESCALE_X * RESCALE_Y) ->
  exists w' sc',
    stage (worker_rescale RESCALE_X RESCALE_Y sample_bicubic) w = Some w' /\
    shared w' = shared w /\ disk w' = disk w /\
    heap w' !! src = Some img /\
    (forall l, l <> dst -> heap w' !! l = heap w !! l) /\
    heap w' !! dst = Some sc' /\
    x sc' = RESCALE_X /\ y sc' = RESCALE_Y /\
    Z.of_nat (length (data sc')) = RESCALE_X * RESCALE_Y /\
    forall i, 0 <= i < RESCALE_X * RESCALE_Y ->
      load (data sc') i = Some (resampled RESCALE_X RESCALE_Y sample_bicubic img i).
Proof.
  intros Hheap Himage Hscaled Hbig Hlen Hr53 HT Htile.
  destruct (slices_tile_inv _ _ Htile) as (Hex & Hcov & _ & _).
  set (T := nthreads (shared w)) in *.
  destruct (for_loop_total
              (fun k w' =>
                 shared w' = shared w /\ disk w' = disk w /\
                 heap w' !! src = Some img /\
                 (forall l, l <> dst -> heap w' !! l = h0 !! l) /\
                 exists cur, heap w' !! dst = Some cur /\
                   Z.of_nat (length (data cur)) = RESCALE_X * RESCALE_Y /\
                   (1 <= k -> x cur = RESCALE_X /\ y cur = RESCALE_Y) /\
                   forall tid s i, 0 <= tid < k ->
                     thread_get_slice tid T (RESCALE_X * RESCALE_Y) = Some s ->
                     in_slice s i ->
                     load (data cur) i
                     = Some (resampled RESCALE_X RESCALE_Y sample_bicubic img i))
              0 T (worker_rescale RESCALE_X RESCALE_Y sample_bicubic) w)
    as (w' & Hrun & Hsh & Hdisk & Himg & Hother & cur & Hcur & Hl & Hdim & Hall).
  - lia.
  - rewrite Hheap. repeat (split; [done|]). exists sc.
    split; [done|]. split; [done|]. split; intros; lia.
  - intros tid m Ht (Hsh & Hdisk & Himg & Hother & cur & Hcur & Hl & Hdim & Hdone).
    destruct (Hex tid Ht) as [s Hs].
    destruct (rescale_image_run (heap m) cur tid T s) as (h' & Hrun & Hres);
      try done; try lia.
    destruct Hres as (Himg' & Hother' & sc' & Hsc' & Hx & Hy & Hl' & Hnew & Hframe).
    cbn [x y data] in *.
    exists (set_heap m h'). split.
    { unfold worker_rescale. rewrite Hsh, Himage, Hscaled. cbn [mbind option_bind].
      fold T. rewrite Hrun. done. }
    cbn [set_heap shared heap disk]. repeat (split; [done|]).
    exists sc'. split; [done|]. split; [lia|]. split; [done|].
    intros tid' s' i Ht' Hs' Hi.
    destruct (decide (slice_start s <= i < slice_end s)) as [Hin|Hout].
    + by apply Hnew.
    + rewrite Hframe by done.
      destruct (decide (tid' = tid)) as [->|Hne].
      * assert (s' = s) as -> by congruence. done.
      * apply (Hdone tid' s'); [lia|done|done].
  - exists w', cur. split; [exact Hrun|]. repeat (split; [done|]).
    split; [intros l Hne; rewrite Hheap; by apply Hother|].
    split; [done|]. destruct (Hdim HT) as [-> ->]. repeat (split; [done|]).
    intros i Hi. destruct (Hcov i Hi) as (tid & s & Ht & Hs & Hin).
    eapply Hall; done.
Qed.

End Rescale.

(** X8.  The rescale stage, when the image does not fit and the slices
    of the thread count tile the [RESCALE_X * RESCALE_Y] pixels: the calls
    of [rescale_image] by all the threads return, change neither the
    source image nor the context nor the files, and leave a scaled image
    of the target dimensions in which every pixel is the one that
    [sample_bicubic] computes from the source image. *)
Theorem rescale_stage_resamples_every_pixel (RESCALE_X RESCALE_Y : Z)
    (sample_bicubic : ppm_image -> spec_float -> spec_float -> ppm_pixel)
    (w : world) (src dst : loc) (img sc : ppm_image) :
  image (shared w) = Some src -> scaled (shared w) = Some dst -> src <> dst ->
  heap w !! src = Some img -> heap w !! dst = Some sc ->
  ~ fits RESCALE_X RESCALE_Y img ->
  Z.of_nat (length (data sc)) = RESCALE_X * RESCALE_Y ->
  RESCALE_X * RESCALE_Y < 2 ^ 53 ->
  1 <= nthreads (shared w) ->
  slices_tile (nthreads (shared w)) (RESCALE_X * RESCALE_Y) ->
  exists w' sc',
    stage (worker_rescale RESCALE_X RESCALE_Y sample_bicubic) w = Some w' /\
    shared w' = shared w /\ disk w' = disk w /\
    heap w' !! src = Some img /\
    (forall l, l <> dst -> heap w' !! l = heap w !! l) /\
    heap w' !! dst = Some sc' /\
    x sc' = RESCALE_X /\ y sc' = RESCALE_Y /\
    Z.of_nat (length (data sc')) = RESCALE_X * RESCALE_Y /\
    forall i, 0 <= i < RESCALE_X * RESCALE_Y ->
      load (data sc') i = Some (resampled RESCALE_X RESCALE_Y sample_bicubic img i).
Proof.
  intros Himage Hscaled Hne Himg Hsc Hbig Hlen Hr53 HT Htile.
  exact (rescale_stage_run RESCALE_X RESCALE_Y sample_bicubic (heap w) src dst img sc
           Hne Himg Hsc w eq_refl Himage Hscaled Hbig Hlen Hr53 HT Htile).
Qed.

(** ** The sampling stage: bounds, shape and thread count *)

Lemma load_ext {A} (l1 l2 : list A) :
  length l1 = length l2 -> (forall i, load l1 i = load l2 i) -> l1 = l2.
Proof.
  intros Hlen Hext. apply list_eq. intros k.
  specialize (Hext (Z.of_nat k)). unfold load in Hext.
  rewrite !bool_decide_true, Nat2Z.id in Hext by lia. done.
Qed.

Lemma load_None_ge {A} (l : list A) (i : Z) :
  Z.of_nat (length l) <= i -> load l i = None.
Proof.
  intros Hi. unfold load. rewrite bool_decide_true by lia.
  apply lookup_ge_None. lia.
Qed.

Lemma load_None_neg {A} (l : list A) (i : Z) : i < 0 -> load l i = None.
Proof. intros Hi. unfold load. by rewrite bool_decide_false by lia. Qed.

Lemma grid_malloc_run (g : grid_t) (i n : Z) :
  0 <= i < Z.of_nat (length g) ->
  exists g', grid_malloc g i n = Some g' /\
    load g' i = Some (Some (replicate (Z.to_nat n) None)) /\
    length g' = length g /\
    forall a, a <> i -> load g' a = load g a.
Proof.
  intros Hi. unfold grid_malloc.
  destruct (store_is_Some g i (Some (replicate (Z.to_nat n) (@None Z)))) as [g' Hg']; [done|].
  exists g'. split; [done|]. split; [eapply load_store_eq, Hg'|].
  split; [eapply store_length, Hg'|].
  intros a Ha. eapply load_store_ne; [exact Hg'|done].
Qed.

Lemma grid_store_run (g : grid_t) (i j v : Z) (col : column) :
  load g i = Some (Some col) -> 0 <= j < Z.of_nat (length col) ->
  exists col' g',
    store col j (Some v) = Some col' /\
    grid_store g i j v = Some g' /\
    load g' i = Some (Some col') /\
    length g' = length g /\
    forall a, a <> i -> load g' a = load g a.
Proof.
  intros Hcol Hj. unfold grid_store. rewrite Hcol. cbn [mjoin option_join mbind option_bind].
  destruct (store_is_Some col j (Some v)) as [col' Hcol']; [done|].
  rewrite Hcol'. cbn [mbind option_bind].
  destruct (store_is_Some g i (Some col')) as [g' Hg']; [by apply load_lt in Hcol|].
  exists col', g'. split; [done|]. split; [done|].
  split; [eapply load_store_eq, Hg'|]. split; [eapply store_length, Hg'|].
  intros a Ha. eapply load_store_ne; [exact Hg'|done].
Qed.

Section SampleRun.
Variable image : ppm_image.
Let p := x image `quot` STEP.
Let q := y image `quot` STEP.
Hypothesis image_wf : image_ok image.

Lemma pq_facts :
  0 <= p < 2 ^ 53 /\ 0 <= q /\ STEP * p <= x image /\ STEP * q <= y image.
Proof.
  destruct image_wf as (Hx & Hy & _).
  assert (Hx' : 0 <= x image < 2 ^ 31) by lia.
  assert (Hy' : 0 <= y image) by lia.
  pose proof (p_range image Hx') as Hp. pose proof (q_nonneg image Hy') as Hq.
  destruct (pq_bounds image (proj1 Hx') Hy') as (_ & _ & H1 & H2).
  fold p in Hp, H1. fold q in Hq, H2. done.
Qed.

(** The inner loop of [sample_grid] on a column of [Q + 1] bytes. *)
Lemma rows_run (g : grid_t) (i : Z) (off : Z -> Z) (col0 : column) :
  load g i = Some (Some col0) -> Z.of_nat (length col0) = q + 1 ->
  (forall j, 0 <= j < q -> 0 <= off j < x image * y image) ->
  exists g' col,
    for_loop 0 q (fun j grid =>
      curr_pix ← load (data image) (off j);
      grid_store grid i j (below_sigma curr_pix)) g = Some g' /\
    length g' = length g /\
    (forall a, a <> i -> load g' a = load g a) /\
    load g' i = Some (Some col) /\
    Z.of_nat (length col) = q + 1 /\
    (forall j, 0 <= j < q ->
       exists px, load (data image) (off j) = Some px /\
                  load col j = Some (Some (below_sigma px))) /\
    (forall b, q <= b -> load col b = load col0 b).
Proof.
  intros Hcol0 Hlen0 Hoff.
  destruct pq_facts as (_ & Hq & _). destruct image_wf as (_ & _ & Hdata).
  destruct (for_loop_total
              (fun k g' =>
                 length g' = length g /\
                 (forall a, a <> i -> load g' a = load g a) /\
                 exists col, load g' i = Some (Some col) /\
                   Z.of_nat (length col) = q + 1 /\
                   (forall j, 0 <= j < k ->
                      exists px, load (data image) (off j) = Some px /\
                                 load col j = Some (Some (below_sigma px))) /\
                   (forall b, k <= b -> load col b = load col0 b))
              0 q
              (fun j grid =>
                 curr_pix ← load (data image) (off j);
                 grid_store grid i j (below_sigma curr_pix)) g Hq)
    as (g' & Hrun & Hl & Hframe & col & Hcol & Hlen & Hdone & Hrest).
  - split; [done|]. split; [done|]. exists col0. repeat (split; [done|]).
    split; [intros; lia|done].
  - intros j m Hj (Hl & Hframe & col & Hcol & Hlen & Hdone & Hrest).
    destruct (load_is_Some (data image) (off j)) as [px Hpx];
      [rewrite Hdata; by apply Hoff|].
    rewrite Hpx. cbn [mbind option_bind].
    destruct (grid_store_run m i j (below_sigma px) col) as (col' & m' & Hst & Hm' & Hi' & Hl' & Hf');
      [done|lia|].
    exists m'. split; [done|]. split; [congruence|]. split.
    { intros a Ha. rewrite Hf' by done. by apply Hframe. }
    exists col'. split; [done|]. split; [by rewrite (store_length _ _ _ _ Hst)|]. split.
    + intros j' Hj'. destruct (decide (j' = j)) as [->|Hne].
      * exists px. split; [done|]. eapply load_store_eq, Hst.
      * destruct (Hdone j') as (px' & Hpx' & Hc); [lia|]. exists px'. split; [done|].
        by rewrite (load_store_ne _ _ _ _ _ Hst).
    + intros b Hb. rewrite (load_store_ne _ _ _ _ _ Hst) by lia. apply Hrest. lia.
  - exists g', col. done.
Qed.

Lemma interior_in_bounds (i j : Z) :
  0 <= i < p -> 0 <= j < q ->
  0 <= i * STEP * y image + j * STEP < x image * y image.
Proof.
  destruct pq_facts as (_ & _ & Hp & Hq). unfold STEP in *. intros Hi Hj. nia.
Qed.

Lemma last_in_bounds (j : Z) :
  0 <= j < q -> 0 <= (x image - 1) * y image + j * STEP < x image * y image.
Proof.
  destruct pq_facts as (Hp0 & _ & Hp & Hq). destruct image_wf as (Hx & Hy & _).
  unfold STEP in *. intros Hj. nia.
Qed.

(** One thread's [sample_grid] on a backbone of [P + 1] pointers. *)
Lemma sample_grid_run (g : grid_t) (tid nthreads : Z) (s : thread_slice) :
  Z.of_nat (length g) = p + 1 ->
  0 <= tid -> 0 <= nthreads ->
  thread_get_slice tid nthreads p = Some s ->
  edge_in_bounds image (slice_start s) (slice_end s) ->
  exists g',
    sample_grid g image tid nthreads = Some g' /\
    length g' = length g /\
    (forall i, in_slice s i -> column_is image g' i) /\
    (tid = nthreads - 1 -> last_column_is image g') /\
    (forall a, ~ in_slice s a -> a <> p -> load g' a = load g a) /\
    (tid <> nthreads - 1 -> load g' p = load g p).
Proof.
  intros Hlen Htid Hn Hs Hedge.
  destruct pq_facts as (Hp & Hq & Hp8 & Hq8). destruct image_wf as (Hx & Hy & Hdata).
  pose proof (thread_get_slice_start_nonneg _ _ _ _ Htid Hn (proj1 Hp) Hs) as Hlo.
  pose proof (thread_get_slice_end_le _ _ _ _ Hp Hs) as Hhi.
  unfold sample_grid. fold p q. rewrite Hs. cbn [mbind option_bind].
  set (outer := fun i grid =>
         grid ← grid_malloc grid i (q + 1);
         curr_pix ← load (data image) (i * STEP * y image + x image - 1);
         grid ← grid_store grid i q (below_sigma curr_pix);
         for_loop 0 q (fun j grid =>
           curr_pix ← load (data image) (i * STEP * y image + j * STEP);
           grid_store grid i j (below_sigma curr_pix)) grid).
  assert (Houter : exists g1,
            for_loop (slice_start s) (slice_end s) outer g = Some g1 /\
            length g1 = length g /\
            (forall i, in_slice s i -> column_is image g1 i) /\
            (forall a, ~ in_slice s a -> load g1 a = load g a)).
  { destruct (Z_le_gt_dec (slice_start s) (slice_end s)) as [Hle|Hgt].
    2: { exists g. rewrite for_loop_empty by lia. split; [done|]. split; [done|].
         split; [|done]. intros i [? ?]. lia. }
    destruct (for_loop_total
                (fun k g1 =>
                   length g1 = length g /\
                   (forall i, slice_start s <= i < k -> column_is image g1 i) /\
                   (forall a, ~ in_slice s a -> load g1 a = load g a))
                (slice_start s) (slice_end s) outer g Hle)
      as (g1 & Hrun & Hl & Hcols & Hframe).
    - split; [done|]. split; [intros; lia|done].
    - intros i m Hi (Hl & Hcols & Hframe). unfold outer.
      destruct (grid_malloc_run m i (q + 1)) as (m1 & Hm1 & Hc1 & Hl1 & Hf1); [lia|].
      rewrite Hm1. cbn [mbind option_bind].
      destruct (load_is_Some (data image) (i * STEP * y image + x image - 1))
        as [px Hpx].
      { rewrite Hdata. split; [unfold STEP; nia|]. apply Hedge. lia. }
      rewrite Hpx. cbn [mbind option_bind].
      destruct (grid_store_run m1 i q (below_sigma px) _ Hc1)
        as (col2 & m2 & Hst2 & Hm2 & Hc2 & Hl2 & Hf2);
        [rewrite length_replicate; lia|].
      rewrite Hm2. cbn [mbind option_bind].
      destruct (rows_run m2 i (fun j => i * STEP * y image + j * STEP) col2 Hc2)
        as (m3 & col3 & Hm3 & Hl3 & Hf3 & Hc3 & Hlen3 & Hrows & Hrest).
      { rewrite (store_length _ _ _ _ Hst2), length_replicate. lia. }
      { intros j Hj. apply interior_in_bounds; lia. }
      exists m3. split; [exact Hm3|]. split; [congruence|]. split.
      + intros i' Hi'. destruct (decide (i' = i)) as [->|Hne].
        * exists col3. split; [done|]. split; [done|]. split; [done|].
          exists px. split; [done|]. fold q. rewrite Hrest by lia.
          eapply load_store_eq, Hst2.
        * destruct (Hcols i') as (col & Hcol & Hrest'); [lia|].
          exists col. split; [|done]. by rewrite Hf3, Hf2, Hf1.
      + intros a Ha. assert (a <> i) by (intros ->; apply Ha; split; lia).
        rewrite Hf3, Hf2, Hf1 by done. by apply Hframe.
    - exists g1. split; [done|]. split; [done|]. split; [|done].
      intros i [? ?]. apply Hcols. lia. }
  destruct Houter as (g1 & Hrun & Hl1 & Hcols & Hframe). fold outer.
  rewrite Hrun. cbn [mbind option_bind].
  assert (Hnotp : ~ in_slice s p) by (intros [? ?]; lia).
  case_bool_decide as Hlast.
  - destruct (grid_malloc_run g1 p (q + 1)) as (g2 & Hg2 & Hc2 & Hl2 & Hf2); [lia|].
    rewrite Hg2. cbn [mbind option_bind].
    destruct (rows_run g2 p (fun j => (x image - 1) * y image + j * STEP) _ Hc2)
      as (g3 & col3 & Hg3 & Hl3 & Hf3 & Hc3 & Hlen3 & Hrows & Hrest).
    { rewrite length_replicate. lia. }
    { intros j Hj. by apply last_in_bounds. }
    exists g3. split; [exact Hg3|]. split; [congruence|]. split; [|split; [|split]].
    + intros i Hi. assert (i <> p) by (intros ->; done).
      destruct (Hcols i Hi) as (col & Hcol & Hrest'). exists col. split; [|done].
      by rewrite Hf3, Hf2.
    + intros _. exists col3. split; [done|]. split; [done|]. split; [done|].
      fold q. rewrite Hrest by lia. apply load_replicate. lia.
    + intros a Ha Hap. rewrite Hf3, Hf2 by done. by apply Hframe.
    + done.
  - exists g1. split; [done|]. split; [done|]. split; [done|]. split; [done|].
    split; [intros a Ha _; by apply Hframe|]. intros _. by apply Hframe.
Qed.

Lemma column_is_ext (g g' : grid_t) (i : Z) :
  load g' i = load g i -> column_is image g i -> column_is image g' i.
Proof. intros Hext (col & Hcol & Hrest). exists col. by rewrite Hext. Qed.

(** The sampling stage on an image whose edge reads are in bounds. *)
Lemma sample_stage_run (T : Z) :
  1 <= T -> slices_tile T p -> edge_in_bounds image 0 p ->
  exists g, sample_stage T image = Some g /\ grid_is image g.
Proof.
  intros HT Htile Hedge.
  destruct (slices_tile_inv _ _ Htile) as (Hex & Hcov & _ & Hin).
  destruct pq_facts as (Hp & Hq & _).
  unfold sample_stage. fold p.
  destruct (for_loop_total
              (fun k g =>
                 Z.of_nat (length g) = p + 1 /\
                 (forall tid s i, 0 <= tid < k ->
                    thread_get_slice tid T p = Some s -> in_slice s i ->
                    column_is image g i) /\
                 (k = T -> last_column_is image g))
              0 T (fun tid grid => sample_grid grid image tid T)
              (replicate (Z.to_nat (p + 1)) None))
    as (g & Hrun & Hlen & Hcols & Hlast).
  - lia.
  - split; [rewrite length_replicate; lia|]. split; intros; lia.
  - intros tid m Ht (Hlen & Hcols & _).
    destruct (Hex tid Ht) as [s Hs].
    destruct (sample_grid_run m tid T s) as (m' & Hm' & Hl' & Hnew & Hlast' & Hframe & _);
      [done|lia|lia|done| |].
    { intros i Hi. apply Hedge. specialize (Hin tid s i Ht Hs). unfold in_slice in Hin. lia. }
    exists m'. split; [done|]. split; [lia|]. split.
    + intros tid' s' i Ht' Hs' Hi.
      destruct (decide (in_slice s i)) as [Hi'|Hi']; [by apply Hnew|].
      assert (tid' <> tid) by (intros ->; congruence).
      apply (column_is_ext m).
      * apply Hframe; [done|]. specialize (Hin tid' s' i ltac:(lia) Hs' Hi). lia.
      * apply (Hcols tid' s'); [lia|done|done].
    + intros Hk. apply Hlast'. lia.
  - exists g. split; [done|]. split; [done|]. split; [|by apply Hlast].
    intros i Hi. destruct (Hcov i Hi) as (tid & s & Ht & Hs & Hi').
    by apply (Hcols tid s).
Qed.

(** The sampling stage on an image whose last edge read is out of bounds. *)
Lemma sample_stage_fails (T : Z) :
  1 <= T -> slices_tile T p ->
  1 <= p -> x image * y image < STEP * (p - 1) * y image + x image ->
  sample_stage T image = None.
Proof.
  intros HT Htile Hp1 Hout.
  destruct (slices_tile_inv _ _ Htile) as (_ & Hcov & _ & _).
  destruct image_wf as (_ & _ & Hdata).
  destruct (Hcov (p - 1)) as (tid & s & Ht & Hs & Hi); [lia|].
  unfold sample_stage. apply (for_loop_fails 0 T tid); [done|].
  intros g. unfold sample_grid. fold p. rewrite Hs. cbn [mbind option_bind].
  rewrite (for_loop_fails _ _ (p - 1)); [done|exact Hi|].
  intros m. destruct (grid_malloc m (p - 1) _); [|done]. cbn [mbind option_bind].
  rewrite load_None_ge; [done|]. rewrite Hdata. lia.
Qed.

Lemma edge_in_bounds_last :
  edge_in_bounds image 0 p <->
  p = 0 \/ STEP * (p - 1) * y image + x image <= x image * y image.
Proof.
  destruct pq_facts as (Hp & _). destruct image_wf as (Hx & Hy & _).
  unfold edge_in_bounds. split.
  - intros H. destruct (decide (p = 0)) as [|Hp0]; [by left|right].
    specialize (H (p - 1) ltac:(lia)). lia.
  - intros [Hp0|Hle] i Hi; [lia|]. unfold STEP in *. nia.
Qed.

End SampleRun.

Lemma grid_is_unique (image : ppm_image) (g g' : grid_t) :
  image_ok image -> grid_is image g -> grid_is image g' -> g = g'.
Proof.
  intros Hwf (Hlen & Hcols & Hlast) (Hlen' & Hcols' & Hlast').
  destruct (pq_facts image Hwf) as (Hp & Hq & _).
  apply load_ext; [lia|]. intros i.
  destruct (Z_lt_le_dec i 0) as [Hneg|Hnn]; [by rewrite !load_None_neg|].
  destruct (Z_lt_le_dec (x image `quot` STEP) i) as [Hbig|Hle];
    [rewrite !load_None_ge by lia; done|].
  assert (Hcol : forall col col' : column,
            Z.of_nat (length col) = y image `quot` STEP + 1 ->
            Z.of_nat (length col') = y image `quot` STEP + 1 ->
            (forall j, 0 <= j <= y image `quot` STEP -> load col j = load col' j) ->
            col = col').
  { intros col col' Hl Hl' Hext. apply load_ext; [lia|]. intros j.
    destruct (Z_lt_le_dec j 0); [by rewrite !load_None_neg|].
    destruct (Z_lt_le_dec (y image `quot` STEP) j);
      [rewrite !load_None_ge by lia; done|]. apply Hext. lia. }
  destruct (decide (i = x image `quot` STEP)) as [->|Hne].
  - destruct Hlast as (col & -> & Hl & Hrows & Hc).
    destruct Hlast' as (col' & -> & Hl' & Hrows' & Hc').
    do 2 f_equal. apply Hcol; [done..|]. intros j Hj.
    destruct (decide (j = y image `quot` STEP)) as [->|Hj']; [congruence|].
    destruct (Hrows j) as (px & Hpx & ->); [lia|].
    destruct (Hrows' j) as (px' & Hpx' & ->); [lia|]. congruence.
  - destruct (Hcols i) as (col & -> & Hl & Hrows & px & Hpx & Hc); [lia|].
    destruct (Hcols' i) as (col' & -> & Hl' & Hrows' & px' & Hpx' & Hc'); [lia|].
    do 2 f_equal. apply Hcol; [done..|]. intros j Hj.
    destruct (decide (j = y image `quot` STEP)) as [->|Hj']; [congruence|].
    destruct (Hrows j) as (px1 & Hpx1 & ->); [lia|].
    destruct (Hrows' j) as (px2 & Hpx2 & ->); [lia|]. congruence.
Qed.

(** X9.  On an image of positive dimensions and a thread count whose
    slices tile the [P] columns, the sampling stage returns just when the
    read [data[i * STEP * y + x - 1]] of the last column [i = P - 1] lies
    inside of the buffer of [x * y] pixels; otherwise a thread reads past
    the end of the buffer. *)
Theorem sampling_returns_iff_edge_in_bounds (image : ppm_image) (T : Z) :
  image_ok image -> 1 <= T -> slices_tile T (x image `quot` STEP) ->
  is_Some (sample_stage T image) <->
  x image `quot` STEP = 0 \/
  STEP * (x image `quot` STEP - 1) * y image + x image <= x image * y image.
Proof.
  intros Hwf HT Htile. split.
  - intros [g Hg].
    destruct (decide (x image `quot` STEP = 0)) as [|Hp0]; [by left|right].
    destruct (Z_le_gt_dec (STEP * (x image `quot` STEP - 1) * y image + x image)
                (x image * y image)) as [|Hgt]; [done|exfalso].
    destruct (pq_facts image Hwf) as (Hp & _).
    rewrite (sample_stage_fails image Hwf T) in Hg; [done|done|done|lia|lia].
  - intros Hedge%(edge_in_bounds_last image Hwf).
    destruct (sample_stage_run image Hwf T HT Htile Hedge) as (g & -> & _). eauto.
Qed.

(** X10.  The sampling stage does not depend on the thread count: on an
    image of positive dimensions, two thread counts whose slices tile the
    [P] columns leave the same grid, or both stop at the same read out of
    bounds. *)
Theorem sampling_is_independent_of_thread_count (image : ppm_image) (T T' : Z) :
  image_ok image -> 1 <= T -> 1 <= T' ->
  slices_tile T (x image `quot` STEP) -> slices_tile T' (x image `quot` STEP) ->
  sample_stage T image = sample_stage T' image.
Proof.
  intros Hwf HT HT' Htile Htile'.
  destruct (pq_facts image Hwf) as (Hp & _).
  destruct (decide (x image `quot` STEP = 0 \/
                    STEP * (x image `quot` STEP - 1) * y image + x image
                    <= x image * y image)) as [Hedge|Hout].
  - apply (edge_in_bounds_last image Hwf) in Hedge.
    destruct (sample_stage_run image Hwf T HT Htile Hedge) as (g & -> & Hg).
    destruct (sample_stage_run image Hwf T' HT' Htile' Hedge) as (g' & -> & Hg').
    f_equal. by apply (grid_is_unique image).
  - rewrite !(sample_stage_fails image Hwf) by (done || lia). done.
Qed.

(** The grid that the sampling stage returns is the sampled grid. *)
Lemma sample_stage_grid_is (image : ppm_image) (T : Z) (g : grid_t) :
  image_ok image -> 1 <= T -> slices_tile T (x image `quot` STEP) ->
  sample_stage T image = Some g -> grid_is image g.
Proof.
  intros Hwf HT Htile Hg.
  destruct (pq_facts image Hwf) as (Hp & _).
  destruct (decide (x image `quot` STEP = 0 \/
                    STEP * (x image `quot` STEP - 1) * y image + x image
                    <= x image * y image)) as [Hedge|Hout].
  - apply (edge_in_bounds_last image Hwf) in Hedge.
    destruct (sample_stage_run image Hwf T HT Htile Hedge) as (g' & Hg' & Hgrid).
    congruence.
  - rewrite (sample_stage_fails image Hwf) in Hg by (done || lia). done.
Qed.

Lemma below_sigma_bit (px : ppm_pixel) : below_sigma px = 0 \/ below_sigma px = 1.
Proof. unfold below_sigma. case_bool_decide; auto. Qed.

(** What a read of a sampled cell yields. *)
Lemma grid_is_load (junk : Z -> Z -> option Z) (image : ppm_image) (g : grid_t)
    (i j : Z) :
  image_ok image -> grid_is image g ->
  0 <= i <= x image `quot` STEP -> 0 <= j <= y image `quot` STEP ->
  (i, j) <> (x image `quot` STEP, y image `quot` STEP) ->
  exists v, grid_load junk g i j = Some v /\ (v = 0 \/ v = 1).
Proof.
  intros Hwf (_ & Hcols & Hlast) Hi Hj Hne. unfold grid_load.
  destruct (decide (i = x image `quot` STEP)) as [->|Hip].
  - destruct Hlast as (col & -> & _ & Hrows & _). cbn.
    destruct (Hrows j) as (px & _ & ->); [|cbn; eauto using below_sigma_bit].
    destruct (decide (j = y image `quot` STEP)) as [->|]; [done|lia].
  - destruct (Hcols i) as (col & -> & _ & Hrows & px & _ & Hq); [lia|]. cbn.
    destruct (decide (j = y image `quot` STEP)) as [->|Hjq].
    + rewrite Hq. cbn. eauto using below_sigma_bit.
    + destruct (Hrows j) as (px' & _ & ->); [lia|]. cbn. eauto using below_sigma_bit.
Qed.

(** A grid as the sampling stage leaves it gives every cell its
    configuration index, the corner cell when the byte read for
    [grid[P][Q]] is 0 or 1. *)
Lemma grid_is_config_index (junk : Z -> Z -> option Z) (image : ppm_image)
    (g : grid_t) (i j : Z) :
  image_ok image -> grid_is image g ->
  0 <= i < x image `quot` STEP -> 0 <= j < y image `quot` STEP ->
  (i, j) <> (x image `quot` STEP - 1, y image `quot` STEP - 1) \/
  (exists b, junk (x image `quot` STEP) (y image `quot` STEP) = Some b /\
             (b = 0 \/ b = 1)) ->
  exists k, config_index junk g i j = Some k /\ 0 <= k < CONTOUR_CONFIG_COUNT.
Proof.
  intros Hwf Hgrid Hi Hj Hcorner.
  destruct (grid_is_load junk image g i j Hwf Hgrid) as (g00 & H00 & Hb00);
    [lia|lia|intros [=]; lia|].
  destruct (grid_is_load junk image g i (j + 1) Hwf Hgrid) as (g01 & H01 & Hb01);
    [lia|lia|intros [=]; lia|].
  destruct (grid_is_load junk image g (i + 1) j Hwf Hgrid) as (g10 & H10 & Hb10);
    [lia|lia|intros [=]; lia|].
  assert (H11 : exists g11, grid_load junk g (i + 1) (j + 1) = Some g11 /\
                            (g11 = 0 \/ g11 = 1)).
  { destruct (decide ((i + 1, j + 1)
                      = (x image `quot` STEP, y image `quot` STEP))) as [Heq|Hne].
    - injection Heq as Hi' Hj'.
      destruct Hcorner as [Hne|(b & Hb & Hbit)]; [destruct Hne; f_equal; lia|].
      exists b. split; [|done]. rewrite Hi', Hj'.
      destruct Hgrid as (_ & _ & col & Hcol & _ & _ & Hq).
      unfold grid_load. rewrite Hcol. cbn. rewrite Hq. done.
    - apply (grid_is_load junk image g); [done|done|lia|lia|done]. }
  destruct H11 as (g11 & H11 & Hb11).
  unfold config_index. rewrite H00, H01, H11, H10. cbn [mbind option_bind].
  eexists. split; [done|]. unfold CONTOUR_CONFIG_COUNT.
  destruct Hb00 as [-> | ->], Hb01 as [-> | ->], Hb11 as [-> | ->], Hb10 as [-> | ->];
    vm_compute; split; congruence.
Qed.

(** X19.  After the sampling stage, on an image of positive dimensions and
    with a thread count whose slices tile the [P] columns, every cell
    other than the corner cell [(P-1, Q-1)] has a configuration index
    below [CONTOUR_CONFIG_COUNT], whatever the uninitialised bytes hold,
    so that [cmap[k]] is an entry of the table; the corner cell has one
    when the byte read for [grid[P][Q]] is 0 or 1. *)
Theorem sampled_cells_select_a_glyph (junk : Z -> Z -> option Z) (image : ppm_image)
    (T : Z) (g : grid_t) (i j : Z) :
  image_ok image -> 1 <= T -> slices_tile T (x image `quot` STEP) ->
  sample_stage T image = Some g ->
  0 <= i < x image `quot` STEP -> 0 <= j < y image `quot` STEP ->
  (i, j) <> (x image `quot` STEP - 1, y image `quot` STEP - 1) \/
  (exists b, junk (x image `quot` STEP) (y image `quot` STEP) = Some b /\
             (b = 0 \/ b = 1)) ->
  exists k, config_index junk g i j = Some k /\ 0 <= k < CONTOUR_CONFIG_COUNT.
Proof.
  intros Hwf HT Htile Hg Hi Hj Hcorner.
  apply (grid_is_config_index junk image g i j Hwf); [|done..].
  by apply (sample_stage_grid_is image T).
Qed.



(** ** The marching stage: what a thread writes, and in which order *)

(** *** Loops of commuting steps *)

Section Commute.
Context {St : Type} (P : St -> Prop).

Lemma commutes_sym (a b : St -> option St) : commutes P a b -> commutes P b a.
Proof. intros H s Hs. symmetry. by apply H. Qed.

Lemma preserves_for_each (l : list Z) (g : Z -> St -> option St) :
  (forall j, j ∈ l -> preserves P (g j)) -> preserves P (for_each l g).
Proof.
  induction l as [|j l IH]; intros Hg s s' Hs; cbn.
  - by intros [= <-].
  - intros (s1 & H1 & H2)%bind_Some.
    eapply IH; [|eapply (Hg j); [left|exact Hs|exact H1]|exact H2].
    intros j' Hj'. apply Hg. by right.
Qed.

Lemma commutes_for_each (a : St -> option St) (l : list Z)
    (g : Z -> St -> option St) :
  preserves P a ->
  (forall j, j ∈ l -> preserves P (g j)) ->
  (forall j, j ∈ l -> commutes P a (g j)) ->
  commutes P a (for_each l g).
Proof.
  intros Ha. induction l as [|j l IH]; intros Hg Hc s Hs; cbn.
  - by destruct (a s).
  - assert (Hj : a s ≫= g j = g j s ≫= a) by (apply Hc; [left|done]).
    assert (IH' : commutes P a (for_each l g)).
    { apply IH; intros j' Hj'; [apply Hg|apply Hc]; by right. }
    destruct (a s) as [s1|] eqn:Has, (g j s) as [s2|] eqn:Hgs; cbn in *.
    + rewrite Hj. apply IH'. eapply (Hg j); [left|exact Hs|exact Hgs].
    + by rewrite Hj.
    + rewrite <- IH' by (eapply (Hg j); [left|exact Hs|exact Hgs]).
      by rewrite <- Hj.
    + done.
Qed.

Lemma commutes_guard {A} (a : St -> option St) (o : option A)
    (h : A -> St -> option St) :
  (forall v, o = Some v -> commutes P a (h v)) ->
  commutes P a (fun s => v ← o; h v s).
Proof.
  intros H s Hs. destruct o as [v|]; cbn.
  - by apply H.
  - by destruct (a s).
Qed.

Lemma preserves_guard {A} (o : option A) (h : A -> St -> option St) :
  (forall v, o = Some v -> preserves P (h v)) ->
  preserves P (fun s => v ← o; h v s).
Proof. intros H s s' Hs. destruct o as [v|]; cbn; [by apply H|done]. Qed.

End Commute.

Section Commute2.
Context {St : Type} (P : St -> Prop).

Lemma preserves_for_loop (lo hi : Z) (g : Z -> St -> option St) :
  (forall j, lo <= j < hi -> preserves P (g j)) -> preserves P (for_loop lo hi g).
Proof.
  intros Hg. apply preserves_for_each. intros j Hj%elem_of_seqZ. apply Hg. lia.
Qed.

Lemma commutes_for_loop (a : St -> option St) (lo hi : Z) (g : Z -> St -> option St) :
  preserves P a ->
  (forall j, lo <= j < hi -> preserves P (g j)) ->
  (forall j, lo <= j < hi -> commutes P a (g j)) ->
  commutes P a (for_loop lo hi g).
Proof.
  intros Ha Hg Hc. apply commutes_for_each; [done|..];
    intros j Hj%elem_of_seqZ; [apply Hg|apply Hc]; lia.
Qed.

End Commute2.

(** *** Two pixel copies *)

Lemma march_update_put (image c : ppm_image) (x0 y0 : Z) :
  march_update image c x0 y0
  = for_loop 0 (x c) (fun i => for_loop 0 (y c) (fun j => put c x0 y0 i j)) image.
Proof. reflexivity. Qed.

Lemma march_stamp (junk : Z -> Z -> option Z) (image : ppm_image) (grid : grid_t)
    (cmap : list (option ppm_image)) (tid nthreads : Z) :
  march junk image grid cmap tid nthreads
  = slice ← thread_get_slice tid nthreads (x image `quot` STEP);
    for_loop (slice_start slice) (slice_end slice)
      (fun i => for_loop 0 (y image `quot` STEP) (fun j => stamp junk grid cmap i j))
      image.
Proof. reflexivity. Qed.

Section Put.
Variable image : ppm_image.

Lemma put_preserves (c : ppm_image) (x0 y0 i j : Z) :
  preserves (same_dims image) (put c x0 y0 i j).
Proof.
  intros s s' Hs. unfold put.
  intros (pc & _ & (d & _ & [= <-])%bind_Some)%bind_Some. exact Hs.
Qed.

Lemma put_commutes (c1 c2 : ppm_image) (x1 y1 i1 j1 x2 y2 i2 j2 : Z) :
  int_of_long ((x1 + i1) * y image + y1 + j1)
  <> int_of_long ((x2 + i2) * y image + y2 + j2) ->
  commutes (same_dims image) (put c1 x1 y1 i1 j1) (put c2 x2 y2 i2 j2).
Proof.
  intros Hne s [Hx Hy]. unfold put. rewrite Hy.
  set (I1 := int_of_long ((x1 + i1) * y image + y1 + j1)) in *.
  set (I2 := int_of_long ((x2 + i2) * y image + y2 + j2)) in *.
  destruct (load (data c1) (x c1 * i1 + j1)) as [p1|],
           (load (data c2) (x c2 * i2 + j2)) as [p2|]; cbn [mbind option_bind].
  - unfold store.
    destruct (bool_decide_reflect (0 <= I1 < Z.of_nat (length (data s)))) as [H1|H1],
             (bool_decide_reflect (0 <= I2 < Z.of_nat (length (data s)))) as [H2|H2];
      cbn [mbind option_bind data y x]; rewrite ?Hy; fold I1 I2;
      rewrite ?length_insert.
    + rewrite !bool_decide_true by done. cbn [mbind option_bind]. do 2 f_equal.
      apply list_insert_insert_ne. lia.
    + rewrite bool_decide_false by done. done.
    + rewrite bool_decide_false by done. done.
    + done.
  - by destruct (store _ _ _).
  - by destruct (store _ _ _).
  - done.
Qed.

End Put.

Section Stamp.
Variable junk : Z -> Z -> option Z.
Variables (image : ppm_image) (grid : grid_t) (cmap : list (option ppm_image)).
Let p := x image `quot` STEP.
Let q := y image `quot` STEP.
Hypothesis x_nonneg : 0 <= x image.
Hypothesis y_nonneg : 0 <= y image.
Hypothesis pixels_int : x image * y image <= 2 ^ 31.
Hypothesis glyphs : Forall glyph_ok cmap.

Local Abbreviation dims := (same_dims image).

Lemma march_update_preserves (c : ppm_image) (x0 y0 : Z) :
  preserves dims (fun img => march_update img c x0 y0).
Proof.
  change (preserves dims
            (for_loop 0 (x c) (fun i => for_loop 0 (y c) (fun j => put c x0 y0 i j)))).
  apply preserves_for_loop. intros i _. apply preserves_for_loop. intros j _.
  apply put_preserves.
Qed.

Lemma stamp_preserves (i j : Z) : preserves dims (stamp junk grid cmap i j).
Proof.
  intros s s' Hs. unfold stamp.
  intros (k & _ & (c & _ & Hup)%bind_Some)%bind_Some.
  eapply march_update_preserves; done.
Qed.

(** The pixel of the cell [(i, j)] that the glyph pixel [(a, b)] goes to
    has an index of its own. *)
Lemma cell_pixel_index (i j a b : Z) :
  0 <= i < p -> 0 <= j < q -> 0 <= a < STEP -> 0 <= b < STEP ->
  int_of_long ((i * STEP + a) * y image + j * STEP + b)
  = (i * STEP + a) * y image + (j * STEP + b) /\
  0 <= j * STEP + b < y image.
Proof.
  intros Hi Hj Ha Hb.
  destruct (pq_bounds image x_nonneg y_nonneg) as (_ & _ & Hp & Hq).
  fold p in Hp. fold q in Hq. unfold STEP in *.
  rewrite int_of_long_small by nia. lia.
Qed.

(** The glyphs of two cells in different columns of the grid commute. *)
Lemma glyphs_commute (c1 c2 : ppm_image) (i1 j1 i2 j2 : Z) :
  glyph_ok (Some c1) -> glyph_ok (Some c2) ->
  0 <= i1 < p -> 0 <= j1 < q -> 0 <= i2 < p -> 0 <= j2 < q -> i1 <> i2 ->
  commutes dims (fun img => march_update img c1 (i1 * STEP) (j1 * STEP))
                (fun img => march_update img c2 (i2 * STEP) (j2 * STEP)).
Proof.
  intros (Hx1 & Hsq1 & Hy1) (Hx2 & Hsq2 & Hy2) Hi1 Hj1 Hi2 Hj2 Hne.
  change (commutes dims
    (for_loop 0 (x c1) (fun a => for_loop 0 (y c1)
       (fun b => put c1 (i1 * STEP) (j1 * STEP) a b)))
    (for_loop 0 (x c2) (fun a => for_loop 0 (y c2)
       (fun b => put c2 (i2 * STEP) (j2 * STEP) a b)))).
  apply commutes_for_loop.
  { apply preserves_for_loop. intros a _. apply preserves_for_loop. intros b _.
    apply put_preserves. }
  { intros a _. apply preserves_for_loop. intros b _. apply put_preserves. }
  intros a2 Ha2. apply commutes_for_loop.
  { apply preserves_for_loop. intros a _. apply preserves_for_loop. intros b _.
    apply put_preserves. }
  { intros b _. apply put_preserves. }
  intros b2 Hb2. apply commutes_sym. apply commutes_for_loop.
  { apply put_preserves. }
  { intros a _. apply preserves_for_loop. intros b _. apply put_preserves. }
  intros a1 Ha1. apply commutes_for_loop.
  { apply put_preserves. }
  { intros b _. apply put_preserves. }
  intros b1 Hb1. apply put_commutes.
  destruct (cell_pixel_index i1 j1 a1 b1) as [-> ?]; [done|done|lia|lia|].
  destruct (cell_pixel_index i2 j2 a2 b2) as [-> ?]; [done|done|lia|lia|].
  intros Heq. apply offset_inj in Heq; [|done..]. unfold STEP in *. lia.
Qed.

(** The stamps of two cells in different columns of the grid commute. *)
Lemma stamps_commute (i1 j1 i2 j2 : Z) :
  0 <= i1 < p -> 0 <= j1 < q -> 0 <= i2 < p -> 0 <= j2 < q -> i1 <> i2 ->
  commutes dims (stamp junk grid cmap i1 j1) (stamp junk grid cmap i2 j2).
Proof.
  intros Hi1 Hj1 Hi2 Hj2 Hne.
  assert (Hform : forall i j,
            stamp junk grid cmap i j
            = fun img => c ← (config_index junk grid i j ≫= fun k => mjoin (load cmap k));
                         march_update img c (i * STEP) (j * STEP)).
  { intros i j. unfold stamp.
    destruct (config_index junk grid i j) as [k|]; [|done]. done. }
  rewrite !Hform.
  apply commutes_guard. intros c2 Hc2. apply commutes_sym.
  apply commutes_guard. intros c1 Hc1.
  apply bind_Some in Hc1 as (k1 & _ & Hc1%mjoin_load_Some).
  apply bind_Some in Hc2 as (k2 & _ & Hc2%mjoin_load_Some).
  apply commutes_sym, glyphs_commute; try done.
  - eapply load_Forall, Hc1. done.
  - eapply load_Forall, Hc2. done.
Qed.

(** [march] on an image of the dimensions of [image]. *)
Lemma march_same_dims (img : ppm_image) (tid nthreads : Z) (s : thread_slice) :
  dims img -> thread_get_slice tid nthreads p = Some s ->
  march junk img grid cmap tid nthreads
  = for_loop (slice_start s) (slice_end s)
      (fun i => for_loop 0 q (fun j => stamp junk grid cmap i j)) img.
Proof.
  intros [Hx Hy] Hs. rewrite march_stamp, Hx, Hy. fold p q. by rewrite Hs.
Qed.

Lemma columns_preserve (lo hi : Z) :
  preserves dims (for_loop lo hi (fun i => for_loop 0 q (fun j => stamp junk grid cmap i j))).
Proof.
  apply preserves_for_loop. intros i _. apply preserves_for_loop. intros j _.
  apply stamp_preserves.
Qed.

(** The columns of two slices that share no index commute. *)
Lemma columns_commute (lo1 hi1 lo2 hi2 : Z) :
  0 <= lo1 -> hi1 <= p -> 0 <= lo2 -> hi2 <= p ->
  (forall i, lo1 <= i < hi1 -> ~ lo2 <= i < hi2) ->
  commutes dims
    (for_loop lo1 hi1 (fun i => for_loop 0 q (fun j => stamp junk grid cmap i j)))
    (for_loop lo2 hi2 (fun i => for_loop 0 q (fun j => stamp junk grid cmap i j))).
Proof.
  intros Hlo1 Hhi1 Hlo2 Hhi2 Hdis.
  apply commutes_for_loop; [apply columns_preserve| |].
  { intros i _. apply preserves_for_loop. intros j _. apply stamp_preserves. }
  intros i2 Hi2. apply commutes_for_loop; [apply columns_preserve| |].
  { intros j _. apply stamp_preserves. }
  intros j2 Hj2. apply commutes_sym.
  apply commutes_for_loop; [apply stamp_preserves| |].
  { intros i _. apply preserves_for_loop. intros j _. apply stamp_preserves. }
  intros i1 Hi1. apply commutes_for_loop; [apply stamp_preserves| |].
  { intros j _. apply stamp_preserves. }
  intros j1 Hj1. apply commutes_sym, stamps_commute; try lia.
  intros ->. by apply (Hdis i2).
Qed.

End Stamp.

Lemma put_length (c : ppm_image) (x0 y0 i j : Z) (n : nat) :
  preserves (fun img : ppm_image => length (data img) = n) (put c x0 y0 i j).
Proof.
  intros s s' Hs. unfold put.
  intros (pc & _ & (d & Hd & [= <-])%bind_Some)%bind_Some.
  cbn [data]. by rewrite (store_length _ _ _ _ Hd).
Qed.

Lemma stamp_length (junk : Z -> Z -> option Z) (grid : grid_t)
    (cmap : list (option ppm_image)) (i j : Z) (n : nat) :
  preserves (fun img : ppm_image => length (data img) = n) (stamp junk grid cmap i j).
Proof.
  intros s s' Hs. unfold stamp.
  intros (k & _ & (c & _ & Hup)%bind_Some)%bind_Some.
  rewrite march_update_put in Hup. revert Hup.
  apply (preserves_for_loop (fun img : ppm_image => length (data img) = n)); [|done].
  intros a _. apply preserves_for_loop. intros b _. apply put_length.
Qed.

(** The columns of cells [lo <= i < hi] are stamped into their own rows
    of pixels only. *)
Lemma columns_frame (junk : Z -> Z -> option Z) (image : ppm_image)
    (grid : grid_t) (cmap : list (option ppm_image)) (lo hi : Z) (image' : ppm_image) :
  0 <= x image -> 0 <= y image -> x image * y image <= 2 ^ 31 ->
  Forall glyph_ok cmap ->
  0 <= lo -> hi <= x image `quot` STEP ->
  for_loop lo hi
    (fun i => for_loop 0 (y image `quot` STEP) (fun j => stamp junk grid cmap i j))
    image = Some image' ->
  x image' = x image /\ y image' = y image /\
  length (data image') = length (data image) /\
  forall r c, 0 <= r -> 0 <= c < y image ->
    r < lo * STEP \/ hi * STEP <= r \/ y image `quot` STEP * STEP <= c ->
    load (data image') (r * y image + c) = load (data image) (r * y image + c).
Proof.
  intros Hx Hy Hpix Hglyphs Hlo Hhi Hrun.
  destruct (pq_bounds image Hx Hy) as (Hp0 & Hq0 & Hp8 & Hq8).
  set (outside := fun r c : Z =>
         r < lo * STEP \/ hi * STEP <= r \/ y image `quot` STEP * STEP <= c).
  set (kept := fun img : ppm_image =>
         same_dims image img /\ length (data img) = length (data image) /\
         forall r c, 0 <= r -> 0 <= c < y image -> outside r c ->
           load (data img) (r * y image + c) = load (data image) (r * y image + c)).
  assert (Hkept : kept image').
  { revert Hrun. apply (for_loop_preserves kept); [by split|].
    intros i t t' Hi Ht. apply (for_loop_preserves kept); [done|].
    intros j u u' Hj (Hd & Hl & Hframe) Hst.
    split; [eapply stamp_preserves; done|].
    split; [eapply (stamp_length junk grid cmap i j); done|].
    intros r c Hr Hc Hout. rewrite <- (Hframe r c Hr Hc Hout).
    unfold stamp in Hst.
    apply bind_Some in Hst as (k & _ & (g & Hg%mjoin_load_Some & Hup)%bind_Some).
    pose proof (load_Forall _ _ _ _ Hglyphs Hg) as (Hxg & Hsq & Hyg).
    cbn in Hxg, Hsq, Hyg. destruct Hd as [Hdx Hdy].
    apply march_update_spec in Hup as (_ & _ & _ & Hkeep);
      [|rewrite ?Hdy; unfold STEP in *; nia..].
    apply Hkeep. intros a b Ha Hb. unfold dest. rewrite Hdy.
    destruct (cell_pixel_index image Hx Hy Hpix i j a b) as [_ Hcol];
      [lia|lia|lia|lia|].
    intros Heq.
    replace ((i * STEP + a) * y image + j * STEP + b)
      with ((i * STEP + a) * y image + (j * STEP + b)) in Heq by lia.
    apply offset_inj in Heq as [-> ->]; [|done..].
    unfold outside, STEP in *. lia. }
  destruct Hkept as ([? ?] & ? & Hframe). done.
Qed.

(** X11.  [march] writes only the pixels of its own columns of cells: on
    an image of at most [2 ^ 31] pixels and with glyphs that are square and
    no larger than a cell, the image that a thread's call returns has the
    dimensions and the size of the one it got, and a pixel in a row below
    [start * STEP] or from [end * STEP] on, or in a column from
    [Q * STEP] on, is as it was. *)
Theorem march_writes_only_its_rows (junk : Z -> Z -> option Z) (image : ppm_image)
    (grid : grid_t) (cmap : list (option ppm_image)) (tid nthreads : Z)
    (s : thread_slice) (image' : ppm_image) :
  0 <= x image < 2 ^ 31 -> 0 <= y image -> x image * y image <= 2 ^ 31 ->
  Forall glyph_ok cmap ->
  0 <= tid -> 0 <= nthreads ->
  thread_get_slice tid nthreads (x image `quot` STEP) = Some s ->
  march junk image grid cmap tid nthreads = Some image' ->
  x image' = x image /\ y image' = y image /\
  length (data image') = length (data image) /\
  forall r c, 0 <= r -> 0 <= c < y image ->
    r < slice_start s * STEP \/ slice_end s * STEP <= r \/
    y image `quot` STEP * STEP <= c ->
    load (data image') (r * y image + c) = load (data image) (r * y image + c).
Proof.
  intros Hx31 Hy Hpix Hglyphs Htid Hn Hs Hrun.
  pose proof (proj1 Hx31) as Hx.
  destruct (pq_bounds image Hx Hy) as (Hp0 & Hq0 & Hp8 & Hq8).
  assert (Hp53 : 0 <= x image `quot` STEP < 2 ^ 53) by (unfold STEP in *; lia).
  pose proof (thread_get_slice_start_nonneg _ _ _ _ Htid Hn Hp0 Hs) as Hlo.
  pose proof (thread_get_slice_end_le _ _ _ _ Hp53 Hs) as Hhi.
  rewrite (march_same_dims junk image grid cmap image tid nthreads s) in Hrun by done.
  by apply (columns_frame junk image grid cmap (slice_start s) (slice_end s)).
Qed.

(** X12.  The [march] calls of two threads whose slices share no column
    commute: on an image of at most [2 ^ 31] pixels and with glyphs that
    are square and no larger than a cell, running one and then the other
    gives the image, or the failure, that running them in the other order
    gives. *)
Theorem march_threads_commute (junk : Z -> Z -> option Z) (image : ppm_image)
    (grid : grid_t) (cmap : list (option ppm_image)) (nthreads tid1 tid2 : Z)
    (s1 s2 : thread_slice) :
  0 <= x image < 2 ^ 31 -> 0 <= y image -> x image * y image <= 2 ^ 31 ->
  Forall glyph_ok cmap ->
  0 <= tid1 -> 0 <= tid2 -> 0 <= nthreads ->
  thread_get_slice tid1 nthreads (x image `quot` STEP) = Some s1 ->
  thread_get_slice tid2 nthreads (x image `quot` STEP) = Some s2 ->
  (forall i, in_slice s1 i -> ~ in_slice s2 i) ->
  (img ← march junk image grid cmap tid1 nthreads; march junk img grid cmap tid2 nthreads)
  = (img ← march junk image grid cmap tid2 nthreads; march junk img grid cmap tid1 nthreads).
Proof.
  intros Hx31 Hy Hpix Hglyphs Ht1 Ht2 Hn Hs1 Hs2 Hdis.
  pose proof (proj1 Hx31) as Hx.
  destruct (pq_bounds image Hx Hy) as (Hp0 & _ & Hp8 & _).
  assert (Hp53 : 0 <= x image `quot` STEP < 2 ^ 53) by (unfold STEP in *; lia).
  pose proof (thread_get_slice_start_nonneg _ _ _ _ Ht1 Hn Hp0 Hs1) as Hlo1.
  pose proof (thread_get_slice_end_le _ _ _ _ Hp53 Hs1) as Hhi1.
  pose proof (thread_get_slice_start_nonneg _ _ _ _ Ht2 Hn Hp0 Hs2) as Hlo2.
  pose proof (thread_get_slice_end_le _ _ _ _ Hp53 Hs2) as Hhi2.
  assert (Hdims : same_dims image image) by done.
  set (M := fun s : thread_slice =>
         for_loop (slice_start s) (slice_end s)
           (fun i => for_loop 0 (y image `quot` STEP)
                       (fun j => stamp junk grid cmap i j))).
  assert (Hthen : forall t t' s s',
            thread_get_slice t nthreads (x image `quot` STEP) = Some s ->
            thread_get_slice t' nthreads (x image `quot` STEP) = Some s' ->
            (img ← march junk image grid cmap t nthreads;
             march junk img grid cmap t' nthreads) = M s image ≫= M s').
  { intros t t' s s' Hs Hs'.
    rewrite (march_same_dims junk image grid cmap image t nthreads s) by done.
    fold (M s). destruct (M s image) as [img|] eqn:Himg; [|done]. cbn.
    apply (march_same_dims junk image grid cmap); [|done].
    eapply (columns_preserve junk image grid cmap); [exact Hdims|exact Himg]. }
  rewrite (Hthen tid1 tid2 s1 s2), (Hthen tid2 tid1 s2 s1) by done.
  apply (columns_commute junk image grid cmap Hx Hy Hpix Hglyphs); try done.
Qed.

(** ** The guarded bodies and the output file *)

Lemma for_loop_first {St} (lo hi : Z) (body : Z -> St -> option St) (s : St) :
  lo < hi -> for_loop lo hi body s = body lo s ≫= for_loop (lo + 1) hi body.
Proof.
  intros Hlt. unfold for_loop.
  replace (hi - lo) with (Z.succ (hi - (lo + 1))) by lia.
  rewrite seqZ_cons by lia. cbn. replace (Z.succ lo) with (lo + 1) by lia.
  by rewrite Z.pred_succ.
Qed.

Section Run.
Variable RESCALE_X RESCALE_Y : Z.
Variable sample_bicubic : ppm_image -> spec_float -> spec_float -> ppm_pixel.
Variable junk : Z -> Z -> option Z.
Variable junk_int : Z.
Variable junk_pixel : ppm_pixel.

Local Abbreviation once_image_read := (once_image_read RESCALE_X RESCALE_Y junk_int junk_pixel).
Local Abbreviation worker_alloc := (worker_alloc RESCALE_X RESCALE_Y junk_int junk_pixel).
Local Abbreviation worker_rescale := (worker_rescale RESCALE_X RESCALE_Y sample_bicubic).
Local Abbreviation run_workers :=
  (run_workers RESCALE_X RESCALE_Y sample_bicubic junk junk_int junk_pixel).

(** X20.  A guarded body that has run once does nothing when it runs
    again: for each of the four bodies of [worker] under a mutex (the
    decode of the input with the choice of the scaled buffer, the
    allocation of the glyph table, the allocation of the grid backbone,
    the write of the output), running it twice in a row gives the state,
    or the failure, that running it once gives. *)
Theorem guarded_bodies_run_once (w : world) :
  once_image_read w ≫= once_image_read = once_image_read w /\
  once_cmap_alloc (once_cmap_alloc w) = once_cmap_alloc w /\
  once_grid_alloc w ≫= once_grid_alloc = once_grid_alloc w /\
  once_write w ≫= once_write = once_write w.
Proof.
  assert (Hidem : forall f : world -> option world,
            (forall w', f w = Some w' -> f w' = Some w') -> f w ≫= f = f w).
  { intros f H. destruct (f w) as [w'|] eqn:E; [cbn; by apply H|done]. }
  split; [|split; [|split]].
  - apply Hidem. intros w'. unfold once_image_read.
    destruct (image (shared w)) as [l|] eqn:Himg.
    + intros [= <-]. by rewrite Himg.
    + intros (img & _ & H)%bind_Some. case_bool_decide; by injection H as <-.
  - unfold once_cmap_alloc. destruct (cmap (shared w)) as [c|] eqn:Hc.
    + by rewrite Hc.
    + done.
  - apply Hidem. intros w'. unfold once_grid_alloc.
    destruct (grid (shared w)) as [g|] eqn:Hg.
    + intros [= <-]. by rewrite Hg.
    + intros (l & _ & (sc & _ & [= <-])%bind_Some)%bind_Some. done.
  - apply Hidem. intros w'. unfold once_write. case_bool_decide as Hfin.
    + intros (l & _ & (sc & _ & [= <-])%bind_Some)%bind_Some. done.
    + intros [= <-]. by rewrite bool_decide_false.
Qed.

(** X21.  The guarded decode of an image that does not fit: the context
    gets the decoded image at a fresh address and, at another fresh
    address, a scaled buffer of [RESCALE_X * RESCALE_Y] pixels of its own;
    the rest of the heap and the files are unchanged. *)
Theorem large_image_gets_its_own_buffer (w : world) (img : ppm_image) :
  image (shared w) = None ->
  read_ppm (disk w) (filename_in (shared w)) = Some img ->
  ~ fits RESCALE_X RESCALE_Y img ->
  exists w' l l' sc,
    once_image_read w = Some w' /\
    image (shared w') = Some l /\ scaled (shared w') = Some l' /\ l <> l' /\
    heap w !! l = None /\ heap w !! l' = None /\
    heap w' !! l = Some img /\ heap w' !! l' = Some sc /\
    length (data sc) = Z.to_nat (RESCALE_X * RESCALE_Y) /\
    (forall a, a <> l -> a <> l' -> heap w' !! a = heap w !! a) /\
    disk w' = disk w.
Proof.
  intros Hnull Hread Hbig. unfold once_image_read.
  rewrite Hnull, Hread. cbn [mbind option_bind]. rewrite bool_decide_false by done.
  set (l := fresh (dom (heap w))).
  set (l' := fresh (dom (<[l := img]> (heap w)))).
  assert (Hl : heap w !! l = None) by (apply not_elem_of_dom, is_fresh).
  assert (Hl' : <[l := img]> (heap w) !! l' = None) by (apply not_elem_of_dom, is_fresh).
  assert (Hne : l <> l').
  { intros Heq. rewrite <- Heq, lookup_insert_eq in Hl'. done. }
  rewrite lookup_insert_ne in Hl' by done.
  eexists _, l, l', _. split; [done|]. cbn [shared heap disk image scaled set_images].
  repeat (split; [done|]).
  split; [rewrite lookup_insert_ne by done; apply lookup_insert_eq|].
  split; [apply lookup_insert_eq|]. cbn [data].
  split; [apply length_replicate|]. split; [|done].
  intros a Ha Ha'. by rewrite !lookup_insert_ne.
Qed.

Lemma quiet_alloc : quiet worker_alloc.
Proof.
  intros tid w w'. unfold worker_alloc.
  intros (w1 & Hread & [= <-])%bind_Some.
  assert (H1 : kept w w1).
  { revert Hread. unfold once_image_read.
    destruct (image (shared w)); [by intros [= <-]|].
    intros (img & _ & H)%bind_Some. case_bool_decide; by injection H as <-. }
  destruct H1 as (Hd & Hf & Ho & Hn). unfold once_cmap_alloc.
  destruct (cmap (shared w1)); cbn; by rewrite ?Hd, ?Hf, ?Ho, ?Hn.
Qed.

Lemma quiet_rescale : quiet worker_rescale.
Proof.
  intros tid w w'. unfold worker_rescale.
  intros (i & _ & (s & _ & (h & _ & [= <-])%bind_Some)%bind_Some)%bind_Some. done.
Qed.

Lemma quiet_cmap_init : quiet worker_cmap_init.
Proof.
  intros tid w w'. unfold worker_cmap_init.
  intros (w1 & Hg & (c & _ & (c' & _ & [= <-])%bind_Some)%bind_Some)%bind_Some.
  assert (H1 : kept w w1).
  { revert Hg. unfold once_grid_alloc. destruct (grid (shared w)); [by intros [= <-]|].
    by intros (l & _ & (sc & _ & [= <-])%bind_Some)%bind_Some. }
  exact H1.
Qed.

Lemma quiet_sample_grid : quiet worker_sample_grid.
Proof.
  intros tid w w'. unfold worker_sample_grid.
  intros (g & _ & (l & _ & (sc & _ & (g' & _ & [= <-])%bind_Some)%bind_Some)%bind_Some)%bind_Some.
  done.
Qed.

Lemma quiet_march : quiet (worker_march junk).
Proof.
  intros tid w w'. unfold worker_march.
  intros (g & _ & (c & _ & (l & _ & (sc & _ & (sc' & _ & [= <-])%bind_Some)%bind_Some)%bind_Some)%bind_Some)%bind_Some.
  done.
Qed.

Lemma stage_kept (part : Z -> world -> option world) (w w' : world) :
  quiet part -> stage part w = Some w' -> kept w w'.
Proof.
  intros Hq. unfold stage.
  apply (for_loop_preserves (kept w)); [done|].
  intros i t t' _ (Hd & Hf & Ho & Hn) Hrun.
  destruct (Hq i t t' Hrun) as (Hd' & Hf' & Ho' & Hn').
  unfold kept. by rewrite Hd', Hf', Ho', Hn'.
Qed.

(** After the first thread has written, the others find [finished] set. *)
Lemma write_stage_once (w w' : world) :
  1 <= nthreads (shared w) -> finished (shared w) = 0 ->
  stage worker_write w = Some w' ->
  exists l sc, scaled (shared w) = Some l /\ heap w !! l = Some sc /\
    w' = {| shared := set_finished (shared w) 1; heap := heap w;
            disk := write_ppm (disk w) sc (filename_out (shared w)) |}.
Proof.
  intros Hn Hfin. unfold stage. rewrite for_loop_first by lia.
  assert (Hfirst : worker_write 0 w =
      (l ← scaled (shared w); sc ← heap w !! l;
       Some {| shared := set_finished (shared w) 1; heap := heap w;
               disk := write_ppm (disk w) sc (filename_out (shared w)) |})).
  { unfold worker_write, once_write. by rewrite bool_decide_true. }
  rewrite Hfirst. clear Hfirst.
  intros (w1 & (l & Hl & (sc & Hsc & [= <-])%bind_Some)%bind_Some & Hrest)%bind_Some.
  exists l, sc. split; [done|]. split; [done|].
  revert Hrest. apply (for_loop_preserves (fun t => t = _)); [done|].
  intros i t t' _ -> Hrun. unfold worker_write, once_write in Hrun.
  rewrite bool_decide_false in Hrun by done. by injection Hrun as <-.
Qed.

(** X22.  What a run of the pool does to the files: with at least one
    thread and [finished] clear at the start, a run that gets to its end
    has stored exactly one file, the one named [filename_out], and every
    other file is as before; the image stored is the one that [scaled]
    points to at the end, and [finished] is 1. *)
Theorem run_writes_only_the_output_file (w w' : world) :
  1 <= nthreads (shared w) -> finished (shared w) = 0 ->
  run_workers w = Some w' ->
  exists l sc, scaled (shared w') = Some l /\ heap w' !! l = Some sc /\
    disk w' = <[filename_out (shared w) := sc]> (disk w) /\
    finished (shared w') = 1.
Proof.
  intros Hn Hfin. unfold run_workers.
  intros (w1 & H1 & (w2 & H2 & (w3 & H3 & (w4 & H4 & (w5 & H5 & H6)%bind_Some)%bind_Some)%bind_Some)%bind_Some)%bind_Some.
  apply stage_kept in H1, H2, H3, H4, H5;
    auto using quiet_alloc, quiet_rescale, quiet_cmap_init, quiet_sample_grid, quiet_march.
  destruct H1 as (Hd1 & Hf1 & Ho1 & Hn1), H2 as (Hd2 & Hf2 & Ho2 & Hn2),
    H3 as (Hd3 & Hf3 & Ho3 & Hn3), H4 as (Hd4 & Hf4 & Ho4 & Hn4),
    H5 as (Hd5 & Hf5 & Ho5 & Hn5).
  apply write_stage_once in H6 as (l & sc & Hl & Hsc & ->); [|lia|congruence].
  exists l, sc. cbn. split; [done|]. split; [done|]. split; [|done].
  unfold write_ppm. congruence.
Qed.

End Run.

(** ** Slices that tile make one loop *)

Lemma for_loop_split {St} (lo mid hi : Z) (body : Z -> St -> option St) (s : St) :
  lo <= mid <= hi ->
  for_loop lo hi body s = for_loop lo mid body s ≫= for_loop mid hi body.
Proof.
  intros H. unfold for_loop.
  replace (hi - lo) with ((mid - lo) + (hi - mid)) by lia.
  rewrite seqZ_app by lia. rewrite for_each_app.
  replace (lo + (mid - lo)) with mid by lia. done.
Qed.

(** Two loop bodies that agree on the states of an invariant. *)
Lemma for_each_ext_inv {St} (P : St -> Prop) (l : list Z)
    (f g : Z -> St -> option St) (s : St) :
  P s ->
  (forall i t, i ∈ l -> P t -> f i t = g i t) ->
  (forall i t t', i ∈ l -> P t -> g i t = Some t' -> P t') ->
  for_each l f s = for_each l g s.
Proof.
  revert s. induction l as [|i l IH]; intros s Hs Hfg Hg; [done|].
  cbn. rewrite Hfg by (done || left). destruct (g i s) as [t|] eqn:Ht; [|done]. cbn.
  apply IH.
  - eapply Hg; [left|exact Hs|exact Ht].
  - intros; apply Hfg; [by right|done].
  - intros ? ? ? ?; apply Hg; by right.
Qed.

Lemma for_loop_ext_inv {St} (P : St -> Prop) (lo hi : Z)
    (f g : Z -> St -> option St) (s : St) :
  P s ->
  (forall i t, lo <= i < hi -> P t -> f i t = g i t) ->
  (forall i t t', lo <= i < hi -> P t -> g i t = Some t' -> P t') ->
  for_loop lo hi f s = for_loop lo hi g s.
Proof.
  intros Hs Hfg Hg. unfold for_loop. apply (for_each_ext_inv P); [done| |].
  - intros i t Hi%elem_of_seqZ. apply Hfg. lia.
  - intros i t t' Hi%elem_of_seqZ. apply Hg. lia.
Qed.

(** The first slice starts at 0. *)
Lemma slice_start_zero (nthreads range : Z) (s : thread_slice) :
  thread_get_slice 0 nthreads range = Some s -> slice_start s = 0.
Proof.
  unfold thread_get_slice. rewrite of_long_zero.
  intros (v & Hv & (e & _ & [= <-])%bind_Some)%bind_Some. cbn.
  destruct (Double.div _ _) as [sg|sg| |sg m e']; cbn in Hv; try done.
  - by injection Hv as <-.
  - by injection Hv as <-.
Qed.

(** A chain of slices that starts at or below [c] and whose indices are
    those of [[c, range)], each in one slice only: the loops of the slices
    one after the other are the loop from [c] to [range]. *)
Lemma for_slices_chain {St} (body : Z -> St -> option St) (range : Z)
    (sl : list thread_slice) (c : Z) (s : St) :
  c <= range ->
  (forall s0, sl !! 0%nat = Some s0 -> slice_start s0 <= c) ->
  (forall k s1 s2, sl !! k = Some s1 -> sl !! S k = Some s2 ->
                   slice_end s1 = slice_start s2) ->
  (forall k k' s1 s2 i, k <> k' -> sl !! k = Some s1 -> sl !! k' = Some s2 ->
                        in_slice s1 i -> ~ in_slice s2 i) ->
  (forall s1 i, s1 ∈ sl -> in_slice s1 i -> c <= i < range) ->
  (forall i, c <= i < range -> exists s1, s1 ∈ sl /\ in_slice s1 i) ->
  for_slices sl body s = for_loop c range body s.
Proof.
  revert c s. induction sl as [|s0 sl IH]; intros c s Hc Hfirst Hchain Hdis Hin Hcov.
  - cbn. rewrite for_loop_empty; [done|].
    destruct (Z_le_gt_dec range c) as [|Hlt]; [done|].
    destruct (Hcov c) as (s1 & Hs1%elem_of_nil & _); [lia|done].
  - cbn [for_slices].
    pose proof (Hfirst s0 eq_refl) as Hstart.
    assert (Hnext : forall s1, sl !! 0%nat = Some s1 -> slice_start s1 = slice_end s0).
    { intros s1 Hs1. symmetry. by apply (Hchain 0%nat). }
    assert (Hchain' : forall k s1 s2, sl !! k = Some s1 -> sl !! S k = Some s2 ->
                                      slice_end s1 = slice_start s2).
    { intros k s1 s2 H1 H2. by apply (Hchain (S k)). }
    assert (Hdis' : forall k k' s1 s2 i, k <> k' -> sl !! k = Some s1 ->
              sl !! k' = Some s2 -> in_slice s1 i -> ~ in_slice s2 i).
    { intros k k' s1 s2 i Hne H1 H2. apply (Hdis (S k) (S k')); [lia|done..]. }
    destruct (Z_le_gt_dec (slice_end s0) (slice_start s0)) as [Hempty|Hfull].
    + rewrite for_loop_empty by done. cbn.
      apply IH; [done| | done | done | |].
      * intros s1 Hs1. rewrite (Hnext s1 Hs1). lia.
      * intros s1 i Hs1. apply Hin. by right.
      * intros i Hi. destruct (Hcov i Hi) as (s1 & [->|Hs1]%elem_of_cons & Hi1);
          [unfold in_slice in Hi1; lia|by exists s1].
    + assert (Hc0 : slice_start s0 = c).
      { destruct (Hin s0 (slice_start s0)) as [? _]; [left|unfold in_slice; lia|lia]. }
      assert (Hend : slice_end s0 <= range).
      { destruct (Hin s0 (slice_end s0 - 1)) as [_ ?]; [left|unfold in_slice; lia|lia]. }
      rewrite Hc0. rewrite (for_loop_split c (slice_end s0) range) by lia.
      destruct (for_loop c (slice_end s0) body s) as [t|]; [|done]. cbn.
      apply IH; [done| |done|done| |].
      * intros s1 Hs1. rewrite (Hnext s1 Hs1). lia.
      * intros s1 i [k Hk]%list_elem_of_lookup Hi1.
        destruct (Hin s1 i) as [? ?]; [right; by apply (list_elem_of_lookup_2 _ k)|done|].
        split; [|done].
        destruct (Z_le_gt_dec (slice_end s0) i) as [|Hlt]; [done|].
        exfalso. apply (Hdis 0%nat (S k) s0 s1 i); [lia|done|done| |done].
        unfold in_slice. lia.
      * intros i Hi. destruct (Hcov i) as (s1 & [->|Hs1]%elem_of_cons & Hi1); [lia| |].
        -- unfold in_slice in Hi1. lia.
        -- by exists s1.
Qed.

(** The loop over the threads, each running the loop of its slice, is the
    loop over the slices. *)
Lemma for_each_slices {St} (get : Z -> option thread_slice) (body : Z -> St -> option St)
    (l : list Z) (sl : list thread_slice) (s : St) :
  get <$> l = Some <$> sl ->
  for_each l (fun tid t => s0 ← get tid;
                           for_loop (slice_start s0) (slice_end s0) body t) s
  = for_slices sl body s.
Proof.
  revert sl s. induction l as [|tid l IH]; intros [|s0 sl] s Heq; try done.
  cbn in Heq. injection Heq as H0 Hrest. cbn. rewrite H0. cbn.
  destruct (for_loop _ _ body s) as [t|]; [|done]. cbn. by apply IH.
Qed.

(** With slices that tile the range, the threads one after the other run
    the loop over the whole range. *)
Lemma tiled_loops {St} (body : Z -> St -> option St) (nthreads range : Z) (s : St) :
  1 <= nthreads -> 0 <= range ->
  slices_tile nthreads range ->
  for_loop 0 nthreads
    (fun tid t => s0 ← thread_get_slice tid nthreads range;
                  for_loop (slice_start s0) (slice_end s0) body t) s
  = for_loop 0 range body s.
Proof.
  intros HT Hr (sl & Hall & Hchain & Hdis & Hcov).
  unfold for_loop at 1. rewrite Z.sub_0_r.
  rewrite (for_each_slices (fun tid => thread_get_slice tid nthreads range) body _ sl)
    by exact Hall.
  apply for_slices_chain; [done| |done|done| |].
  - intros s0 Hs0.
    assert (H0 : all_slices nthreads range !! 0%nat = Some (Some s0)).
    { rewrite Hall, list_lookup_fmap, Hs0. done. }
    unfold all_slices in H0. rewrite list_lookup_fmap, lookup_seqZ_lt in H0 by lia.
    cbn in H0. injection H0 as H0. rewrite (slice_start_zero _ _ _ H0). done.
  - intros s1 i Hs1 Hi. apply Hcov. by exists s1.
  - intros i Hi. by apply Hcov.
Qed.

(** ** The stages with slices that tile *)

(** The glyph-loading stage is the loop over the sixteen files. *)
Lemma cmap_stage_run (d : gmap string ppm_image) (nthreads : Z) :
  1 <= nthreads -> slices_tile nthreads CONTOUR_CONFIG_COUNT ->
  cmap_stage d nthreads
  = for_loop 0 CONTOUR_CONFIG_COUNT
      (fun i cmap => c ← read_ppm d (contour_filename i); store cmap i (Some c))
      (replicate (Z.to_nat CONTOUR_CONFIG_COUNT) None).
Proof.
  intros HT Htile. unfold cmap_stage, init_cmap.
  by apply (tiled_loops _ nthreads CONTOUR_CONFIG_COUNT).
Qed.

(** The marching stage is the loop over all the columns of cells. *)
Lemma march_stage_run (junk : Z -> Z -> option Z) (image : ppm_image) (grid : grid_t)
    (cmap : list (option ppm_image)) (nthreads : Z) :
  0 <= x image -> 1 <= nthreads -> slices_tile nthreads (x image `quot` STEP) ->
  march_stage junk nthreads image grid cmap
  = for_loop 0 (x image `quot` STEP)
      (fun i => for_loop 0 (y image `quot` STEP) (fun j => stamp junk grid cmap i j))
      image.
Proof.
  intros Hx HT Htile. unfold march_stage.
  rewrite <- (tiled_loops _ nthreads (x image `quot` STEP)); [|done| |done].
  - apply (for_loop_ext_inv (same_dims image)); [done| |].
    + intros tid img _ [Hdx Hdy]. rewrite march_stamp, Hdx, Hdy. done.
    + intros tid img img' _ Hd.
      intros (s & _ & Hrun)%bind_Some.
      eapply (columns_preserve junk image grid cmap); [exact Hd|exact Hrun].
  - apply Z.quot_pos; [done|]. by vm_compute.
Qed.

Lemma march_one_thread (junk : Z -> Z -> option Z) (image : ppm_image) (grid : grid_t)
    (cmap : list (option ppm_image)) :
  0 <= x image `quot` STEP < 2 ^ 53 ->
  march junk image grid cmap 0 1
  = for_loop 0 (x image `quot` STEP)
      (fun i => for_loop 0 (y image `quot` STEP) (fun j => stamp junk grid cmap i j))
      image.
Proof.
  intros Hp. rewrite march_stamp, (thread_get_slice_single _ Hp). done.
Qed.

(** X23.  The marching stage does not depend on the thread count: on an
    image whose width is that of an [int], and with a thread count whose
    slices tile the [P] columns of cells, the calls of [march] by all the
    threads in turn give the image, or the failure, that the call of a
    single thread gives. *)
Theorem march_stage_is_one_thread (junk : Z -> Z -> option Z) (image : ppm_image)
    (grid : grid_t) (cmap : list (option ppm_image)) (nthreads : Z) :
  0 <= x image < 2 ^ 31 -> 1 <= nthreads ->
  slices_tile nthreads (x image `quot` STEP) ->
  march_stage junk nthreads image grid cmap = march junk image grid cmap 0 1.
Proof.
  intros Hx HT Htile.
  rewrite march_stage_run by (done || lia). symmetry. apply march_one_thread.
  split; [apply Z.quot_pos; [lia|by vm_compute]|].
  apply Z.le_lt_trans with (x image); [|lia].
  apply Z.quot_le_upper_bound; [by vm_compute|]. unfold STEP. lia.
Qed.

(** ** The stages of [worker] as loops over the shared objects *)

(** A loop on a state that holds the state of another loop. *)
Lemma for_each_lift {A B} (embed : B -> A) (l : list Z)
    (f : Z -> A -> option A) (g : Z -> B -> option B) (b : B) :
  (forall i b, i ∈ l -> f i (embed b) = embed <$> g i b) ->
  for_each l f (embed b) = embed <$> for_each l g b.
Proof.
  revert b. induction l as [|i l IH]; intros b Hfg; [done|].
  cbn. rewrite Hfg by left. destruct (g i b) as [b'|]; [|done]. cbn.
  apply IH. intros; apply Hfg. by right.
Qed.

Lemma for_loop_lift {A B} (embed : B -> A) (lo hi : Z)
    (f : Z -> A -> option A) (g : Z -> B -> option B) (b : B) :
  (forall i b, lo <= i < hi -> f i (embed b) = embed <$> g i b) ->
  for_loop lo hi f (embed b) = embed <$> for_loop lo hi g b.
Proof.
  intros Hfg. apply for_each_lift. intros i b' Hi%elem_of_seqZ. apply Hfg. lia.
Qed.

(** The same when the first iteration starts from a state of its own. *)
Lemma for_loop_lift_first {A B} (embed : B -> A) (lo hi : Z)
    (f : Z -> A -> option A) (g : Z -> B -> option B) (a : A) (b : B) :
  lo < hi ->
  f lo a = embed <$> g lo b ->
  (forall i b, lo < i < hi -> f i (embed b) = embed <$> g i b) ->
  for_loop lo hi f a = embed <$> for_loop lo hi g b.
Proof.
  intros Hlt H0 Hfg. rewrite !for_loop_first by done. rewrite H0.
  destruct (g lo b) as [b'|]; [|done]. cbn.
  apply for_loop_lift. intros i b'' Hi. apply Hfg. lia.
Qed.

(** A loop whose iterations all leave the state as it is. *)
Lemma for_loop_idle {St} (lo hi : Z) (f : Z -> St -> option St) (s : St) :
  (forall i, lo <= i < hi -> f i s = Some s) -> for_loop lo hi f s = Some s.
Proof.
  intros Hf. unfold for_loop.
  assert (H : forall i, i ∈ seqZ lo (hi - lo) -> f i s = Some s).
  { intros i Hi%elem_of_seqZ. apply Hf. lia. }
  induction (seqZ lo (hi - lo)) as [|i l IH]; [done|].
  cbn. rewrite H by left. cbn. apply IH. intros; apply H. by right.
Qed.

Lemma world_eta (w : world) :
  {| shared := shared w; heap := heap w; disk := disk w |} = w.
Proof. by destruct w. Qed.

Section Pipe.
Variable RESCALE_X RESCALE_Y : Z.
Variable sample_bicubic : ppm_image -> spec_float -> spec_float -> ppm_pixel.
Variable junk : Z -> Z -> option Z.
Variable junk_int : Z.
Variable junk_pixel : ppm_pixel.

Local Abbreviation once_image_read := (once_image_read RESCALE_X RESCALE_Y junk_int junk_pixel).
Local Abbreviation worker_alloc := (worker_alloc RESCALE_X RESCALE_Y junk_int junk_pixel).
Local Abbreviation worker_rescale := (worker_rescale RESCALE_X RESCALE_Y sample_bicubic).
Local Abbreviation run_workers :=
  (run_workers RESCALE_X RESCALE_Y sample_bicubic junk junk_int junk_pixel).
Local Abbreviation pipeline :=
  (pipeline RESCALE_X RESCALE_Y sample_bicubic junk junk_int junk_pixel).
Local Abbreviation fits := (fits RESCALE_X RESCALE_Y).

(** After its first run, the allocation part does nothing. *)
Lemma worker_alloc_done (tid tid' : Z) (w w' : world) :
  worker_alloc tid w = Some w' -> worker_alloc tid' w' = Some w'.
Proof.
  unfold worker_alloc. intros (w1 & Hread & [= <-])%bind_Some.
  assert (H1 : is_Some (image (shared w1))).
  { revert Hread. unfold once_image_read.
    destruct (image (shared w)) eqn:Hi; [intros [= <-]; by rewrite Hi|].
    intros (img & _ & H)%bind_Some. case_bool_decide; injection H as <-; by eexists. }
  assert (H2 : is_Some (cmap (shared (once_cmap_alloc w1))) /\
               image (shared (once_cmap_alloc w1)) = image (shared w1)).
  { unfold once_cmap_alloc. destruct (cmap (shared w1)) eqn:Hc; [by rewrite Hc|].
    split; [by eexists|done]. }
  destruct H2 as [[c Hc] Hi], H1 as [l Hl].
  unfold once_image_read. rewrite Hi, Hl. cbn.
  unfold once_cmap_alloc at 1. by rewrite Hc.
Qed.

(** The allocation stage is the allocation by the first thread. *)
Lemma alloc_stage_run (w : world) :
  1 <= nthreads (shared w) -> stage worker_alloc w = worker_alloc 0 w.
Proof.
  intros HT. unfold stage. rewrite for_loop_first by lia.
  destruct (worker_alloc 0 w) as [w1|] eqn:H1; [|done]. cbn.
  apply for_loop_idle. intros i _. by apply (worker_alloc_done 0 i w).
Qed.

(** The rescale stage on an image that fits. *)
Lemma rescale_stage_fits (w : world) (l l' : loc) (img : ppm_image) :
  image (shared w) = Some l -> scaled (shared w) = Some l' ->
  heap w !! l = Some img -> fits img ->
  stage worker_rescale w = Some w.
Proof.
  intros Hl Hl' Himg Hfit. unfold stage. apply for_loop_idle. intros i _.
  unfold worker_rescale. rewrite Hl, Hl'. cbn.
  rewrite (rescale_image_fits _ _ _ _ _ _ img) by done. cbn.
  unfold set_heap. by rewrite world_eta.
Qed.

(** The glyph-loading stage: the first thread allocates the backbone of
    the grid, and the table goes through [init_cmap] of every thread. *)
Lemma cmap_init_stage_run (w : world) (l' : loc) (sc : ppm_image)
    (c0 : list (option ppm_image)) :
  1 <= nthreads (shared w) ->
  grid (shared w) = None -> cmap (shared w) = Some c0 ->
  scaled (shared w) = Some l' -> heap w !! l' = Some sc ->
  stage worker_cmap_init w
  = (fun c => set_shared w (set_cmap
                (set_grid (shared w)
                   (Some (replicate (Z.to_nat (x sc `quot` STEP + 1)) None)))
                (Some c)))
    <$> for_loop 0 (nthreads (shared w))
          (fun tid c => init_cmap (disk w) c tid (nthreads (shared w))) c0.
Proof.
  intros HT Hg Hc Hl' Hsc. unfold stage.
  apply for_loop_lift_first; [lia| |].
  - unfold worker_cmap_init, once_grid_alloc. rewrite Hg, Hl'. cbn. rewrite Hsc. cbn.
    rewrite Hc. cbn. destruct (init_cmap _ _ _ _); done.
  - intros i c _. unfold worker_cmap_init, once_grid_alloc. cbn.
    destruct (init_cmap _ _ _ _); done.
Qed.

(** The sampling stage: the grid goes through [sample_grid] of every
    thread. *)
Lemma sample_grid_stage_run (w : world) (l' : loc) (sc : ppm_image) (g0 : grid_t) :
  grid (shared w) = Some g0 ->
  scaled (shared w) = Some l' -> heap w !! l' = Some sc ->
  stage worker_sample_grid w
  = (fun g => set_shared w (set_grid (shared w) (Some g)))
    <$> for_loop 0 (nthreads (shared w))
          (fun tid g => sample_grid g sc tid (nthreads (shared w))) g0.
Proof.
  intros Hg Hl' Hsc. unfold stage.
  assert (Hw : w = set_shared w (set_grid (shared w) (Some g0))).
  { destruct w as [[]]. cbn in *. by subst. }
  rewrite Hw at 2.
  apply (for_loop_lift (fun g => set_shared w (set_grid (shared w) (Some g)))).
  intros i g _. unfold worker_sample_grid. cbn. rewrite Hl'. cbn. rewrite Hsc. cbn.
  destruct (sample_grid _ _ _ _); done.
Qed.

(** The marching stage: the scaled image goes through [march] of every
    thread. *)
Lemma march_stage_world (w : world) (l' : loc) (sc : ppm_image) (g : grid_t)
    (c : list (option ppm_image)) :
  grid (shared w) = Some g -> cmap (shared w) = Some c ->
  scaled (shared w) = Some l' -> heap w !! l' = Some sc ->
  stage (worker_march junk) w
  = (fun sc' => set_heap w (<[l' := sc']> (heap w)))
    <$> march_stage junk (nthreads (shared w)) sc g c.
Proof.
  intros Hg Hc Hl' Hsc. unfold stage, march_stage.
  assert (Hw : w = set_heap w (<[l' := sc]> (heap w))).
  { unfold set_heap. rewrite insert_id by done. by rewrite world_eta. }
  rewrite Hw at 2.
  apply (for_loop_lift (fun sc' => set_heap w (<[l' := sc']> (heap w)))).
  intros i sc' _. unfold worker_march. cbn. rewrite Hg, Hc, Hl'. cbn.
  rewrite lookup_insert_eq. cbn.
  destruct (march _ _ _ _ _ _); [|done]. cbn. unfold set_heap. cbn.
  by rewrite insert_insert_eq.
Qed.

(** The write stage: the first thread writes, the others find [finished]
    set. *)
Lemma write_stage_run (w : world) :
  1 <= nthreads (shared w) -> finished (shared w) = 0 ->
  stage worker_write w
  = (l ← scaled (shared w); sc ← heap w !! l;
     Some {| shared := set_finished (shared w) 1; heap := heap w;
             disk := write_ppm (disk w) sc (filename_out (shared w)) |}).
Proof.
  intros HT Hfin. unfold stage. rewrite for_loop_first by lia.
  assert (Hfirst : worker_write 0 w =
      (l ← scaled (shared w); sc ← heap w !! l;
       Some {| shared := set_finished (shared w) 1; heap := heap w;
               disk := write_ppm (disk w) sc (filename_out (shared w)) |})).
  { unfold worker_write, once_write. by rewrite bool_decide_true. }
  rewrite Hfirst. clear Hfirst.
  destruct (scaled (shared w)) as [l|]; [|done]. cbn.
  destruct (heap w !! l) as [sc|]; [|done]. cbn.
  apply for_loop_idle. intros i _. unfold worker_write, once_write.
  by rewrite bool_decide_false.
Qed.

(** The four stages that follow the rescale stage, and the file they
    leave. *)
Lemma tail_stages (w : world) (l' : loc) (sc : ppm_image) :
  1 <= nthreads (shared w) ->
  grid (shared w) = None ->
  cmap (shared w) = Some (replicate (Z.to_nat CONTOUR_CONFIG_COUNT) None) ->
  scaled (shared w) = Some l' -> heap w !! l' = Some sc ->
  finished (shared w) = 0 ->
  (w ← stage worker_cmap_init w;
   w ← stage worker_sample_grid w;
   w ← stage (worker_march junk) w;
   stage worker_write w) ≫= (fun w' => disk w' !! filename_out (shared w))
  = (c ← cmap_stage (disk w) (nthreads (shared w));
     g ← sample_stage (nthreads (shared w)) sc;
     march_stage junk (nthreads (shared w)) sc g c).
Proof.
  intros HT Hg Hc Hl' Hsc Hfin.
  rewrite (cmap_init_stage_run w l' sc _ HT Hg Hc Hl' Hsc).
  fold (cmap_stage (disk w) (nthreads (shared w))).
  destruct (cmap_stage _ _) as [c|]; [|done]. cbn [fmap option_fmap option_map mbind option_bind].
  match goal with |- context [stage worker_sample_grid ?v] => set (w3 := v) end.
  rewrite (sample_grid_stage_run w3 l' sc
             (replicate (Z.to_nat (x sc `quot` STEP + 1)) None)) by done.
  change (nthreads (shared w3)) with (nthreads (shared w)).
  fold (sample_stage (nthreads (shared w)) sc).
  destruct (sample_stage _ _) as [g|]; [|done]. cbn [fmap option_fmap option_map mbind option_bind].
  match goal with |- context [stage (worker_march junk) ?v] => set (w4 := v) end.
  rewrite (march_stage_world w4 l' sc g c) by done.
  change (nthreads (shared w4)) with (nthreads (shared w)).
  destruct (march_stage _ _ _ _ _) as [sc'|]; [|done].
  cbn [fmap option_fmap option_map mbind option_bind].
  rewrite write_stage_run by done.
  cbn [set_heap shared heap disk scaled set_grid set_cmap set_shared w4 w3].
  rewrite Hl'. cbn [mbind option_bind]. rewrite lookup_insert_eq. cbn [mbind option_bind disk].
  unfold write_ppm. cbn [filename_out set_grid set_cmap]. apply lookup_insert_eq.
Qed.

Local Abbreviation target := (target RESCALE_X RESCALE_Y sample_bicubic).
Local Abbreviation rescaled := (rescaled RESCALE_X RESCALE_Y sample_bicubic).

Lemma load_fmap_seqZ {A} (f : Z -> A) (n i : Z) :
  0 <= i < n -> load (f <$> seqZ 0 n) i = Some (f i).
Proof.
  intros Hi. unfold load. rewrite bool_decide_true by lia.
  rewrite list_lookup_fmap, lookup_seqZ_lt by lia. cbn. do 2 f_equal. lia.
Qed.

(** An image of the target dimensions whose pixels are the resampled ones
    is [rescaled]. *)
Lemma rescaled_unique (img sc : ppm_image) :
  0 <= RESCALE_X * RESCALE_Y ->
  x sc = RESCALE_X -> y sc = RESCALE_Y ->
  Z.of_nat (length (data sc)) = RESCALE_X * RESCALE_Y ->
  (forall i, 0 <= i < RESCALE_X * RESCALE_Y ->
     load (data sc) i = Some (resampled RESCALE_X RESCALE_Y sample_bicubic img i)) ->
  sc = rescaled img.
Proof.
  intros Hr Hx Hy Hlen Hpix. destruct sc as [xs ys ds]. cbn in *. subst xs ys.
  unfold rescaled. f_equal. apply load_ext.
  - rewrite length_fmap, length_seqZ. lia.
  - intros i. destruct (Z_lt_le_dec i 0) as [Hneg|Hnn]; [by rewrite !load_None_neg|].
    destruct (Z_lt_le_dec i (RESCALE_X * RESCALE_Y)) as [Hlt|Hge].
    + rewrite Hpix, load_fmap_seqZ by lia. done.
    + rewrite !load_None_ge; [done| |lia]. rewrite length_fmap, length_seqZ. lia.
Qed.

(** The run of the program as its three computing stages in sequence:
    the glyph table, the grid sampled from the target image, the march
    over the target image. *)
Lemma pipeline_stages (d : gmap string ppm_image) (arg_in arg_out : string)
    (T : Z) (img : ppm_image) :
  1 <= T -> d !! arg_in = Some img ->
  (~ fits img ->
   0 <= RESCALE_X * RESCALE_Y < 2 ^ 53 /\ slices_tile T (RESCALE_X * RESCALE_Y)) ->
  pipeline d arg_in arg_out T
  = (c ← cmap_stage d T;
     g ← sample_stage T (target img);
     march_stage junk T (target img) g c).
Proof.
  intros HT Hread Hbig. unfold pipeline, run_workers.
  set (w0 := {| shared := main_shared arg_in arg_out T; heap := ∅; disk := d |}).
  rewrite alloc_stage_run by done.
  set (l := fresh (dom (∅ : gmap loc ppm_image))).
  unfold target.
  destruct (decide (fits img)) as [Hfit|Hnofit].
  - rewrite bool_decide_true by done.
    set (w1 := {| shared := set_cmap (set_images (main_shared arg_in arg_out T)
                                        (Some l) (Some l))
                              (Some (replicate (Z.to_nat CONTOUR_CONFIG_COUNT) None));
                  heap := <[l := img]> ∅; disk := d |}).
    assert (H1 : worker_alloc 0 w0 = Some w1).
    { unfold worker_alloc, once_image_read, read_ppm. cbn. rewrite Hread. cbn.
      rewrite bool_decide_true by done. done. }
    rewrite H1. cbn [mbind option_bind].
    rewrite (rescale_stage_fits w1 l l img); [|done|done|apply lookup_insert_eq|done].
    cbn [mbind option_bind].
    exact (tail_stages w1 l img HT eq_refl eq_refl eq_refl (lookup_insert_eq _ _ _) eq_refl).
  - rewrite bool_decide_false by done.
    destruct (Hbig Hnofit) as [Hr Htile].
    set (h := <[l := img]> (∅ : gmap loc ppm_image)).
    set (l' := fresh (dom h)).
    set (sc0 := {| x := junk_int; y := junk_int;
                   data := replicate (Z.to_nat (RESCALE_X * RESCALE_Y)) junk_pixel |}).
    set (w1 := {| shared := set_cmap (set_images (main_shared arg_in arg_out T)
                                        (Some l) (Some l'))
                              (Some (replicate (Z.to_nat CONTOUR_CONFIG_COUNT) None));
                  heap := <[l' := sc0]> h; disk := d |}).
    assert (H1 : worker_alloc 0 w0 = Some w1).
    { unfold worker_alloc, once_image_read, read_ppm. cbn. rewrite Hread. cbn.
      rewrite bool_decide_false by done. done. }
    rewrite H1. cbn [mbind option_bind].
    assert (Hl' : h !! l' = None) by (apply not_elem_of_dom, is_fresh).
    assert (Hne : l <> l').
    { intros Heq. rewrite <- Heq in Hl'. unfold h in Hl'.
      by rewrite lookup_insert_eq in Hl'. }
    destruct (rescale_stage_run RESCALE_X RESCALE_Y sample_bicubic
                (heap w1) l l' img sc0 Hne) with (w := w1)
      as (w2 & sc' & Hrun & Hsh & Hdisk & _ & _ & Hsc' & Hx & Hy & Hlen & Hpix).
    { cbn. rewrite lookup_insert_ne by done. apply lookup_insert_eq. }
    { apply lookup_insert_eq. }
    { done. } { done. } { done. } { done. }
    { cbn. rewrite length_replicate. lia. }
    { lia. } { done. } { done. }
    rewrite Hrun. cbn [mbind option_bind].
    rewrite (rescaled_unique img sc' (proj1 Hr) Hx Hy Hlen Hpix) in Hsc'.
    pose proof (tail_stages w2 l' (rescaled img)) as Htail.
    rewrite Hsh, Hdisk in Htail.
    exact (Htail HT eq_refl eq_refl eq_refl Hsc' eq_refl).
Qed.

(** X24.  The run of the program is its three computing stages in
    sequence.  For at least one thread and an input file that decodes to
    [img], and, when [img] does not fit, a thread count whose slices tile
    the [RESCALE_X * RESCALE_Y] pixels of the scaled buffer: the image
    left in the output file is the result of the marching stage on the
    target image (the decoded image when it fits, its resampling
    otherwise) with the grid that the sampling stage computes from the
    target image and the table that the glyph-loading stage fills, and
    there is no output file when one of the three fails. *)
Theorem pipeline_is_its_stages (d : gmap string ppm_image) (arg_in arg_out : string)
    (T : Z) (img : ppm_image) :
  1 <= T -> d !! arg_in = Some img ->
  (~ fits img ->
   0 <= RESCALE_X * RESCALE_Y < 2 ^ 53 /\ slices_tile T (RESCALE_X * RESCALE_Y)) ->
  pipeline d arg_in arg_out T
  = (c ← cmap_stage d T;
     g ← sample_stage T (target img);
     march_stage junk T (target img) g c).
Proof. exact (pipeline_stages d arg_in arg_out T img). Qed.

(** X26.  What the program leaves in the output file.  For an input that
    decodes to [img], glyph files that are square, no larger than a cell
    and complete, a target image of positive dimensions and at most
    [2 ^ 31] pixels that holds them, a thread count whose slices tile the
    ranges that the stages split, the boundary sample of the last column
    inside of the buffer, and a 0 or a 1 read for the byte [grid[P][Q]]
    that no thread stores: the run writes an output image of the
    dimensions of the target image, in which every cell [(i, j)] holds
    the glyph decoded from [./contours/<k>.ppm], [k] being the
    configuration index of the cell in the grid sampled from the target
    image, and in which every pixel outside of the cells is that of the
    target image. *)
Theorem output_is_contoured (d : gmap string ppm_image) (arg_in arg_out : string)
    (T : Z) (img : ppm_image) :
  1 <= T -> d !! arg_in = Some img -> glyph_files_ok d ->
  (~ fits img ->
   0 <= RESCALE_X * RESCALE_Y < 2 ^ 53 /\ slices_tile T (RESCALE_X * RESCALE_Y)) ->
  image_ok (target img) -> x (target img) * y (target img) <= 2 ^ 31 ->
  slices_tile T CONTOUR_CONFIG_COUNT ->
  slices_tile T (x (target img) `quot` STEP) ->
  x (target img) `quot` STEP = 0 \/
  STEP * (x (target img) `quot` STEP - 1) * y (target img) + x (target img)
  <= x (target img) * y (target img) ->
  (exists b, junk (x (target img) `quot` STEP) (y (target img) `quot` STEP) = Some b /\
             (b = 0 \/ b = 1)) ->
  exists out g,
    pipeline d arg_in arg_out T = Some out /\
    x out = x (target img) /\ y out = y (target img) /\
    length (data out) = length (data (target img)) /\
    grid_is (target img) g /\
    (forall i j, 0 <= i < x (target img) `quot` STEP ->
                 0 <= j < y (target img) `quot` STEP ->
       exists k c,
         config_index junk g i j = Some k /\
         d !! contour_filename k = Some c /\
         forall a b, 0 <= a < x c -> 0 <= b < y c ->
           exists pc, load (data c) (x c * a + b) = Some pc /\
                      load (data out)
                        ((i * STEP + a) * y (target img) + j * STEP + b) = Some pc) /\
    (forall r c, 0 <= r -> 0 <= c < y (target img) ->
       x (target img) `quot` STEP * STEP <= r \/
       y (target img) `quot` STEP * STEP <= c ->
       load (data out) (r * y (target img) + c)
       = load (data (target img)) (r * y (target img) + c)).
Proof.
  intros HT Hread Hfiles Hbig Hwf Hpix Hc Hp Hedge Hcorner.
  rewrite (pipeline_stages d arg_in arg_out T img) by done.
  set (image := target img) in *.
  destruct (pq_facts image Hwf) as (Hp0 & Hq0 & _).
  pose proof Hwf as (Hx & Hy & Hdata).
  (* the glyph table *)
  rewrite cmap_stage_run by done.
  destruct (init_cmap_loop_total d 0 CONTOUR_CONFIG_COUNT
              (replicate (Z.to_nat CONTOUR_CONFIG_COUNT) None))
    as [cmap Hcmap]; [done|by rewrite length_replicate| |].
  { intros i Hi. destruct (Hfiles i Hi) as (c & Hc0 & _). by exists c. }
  rewrite Hcmap. cbn [mbind option_bind].
  apply init_cmap_loop in Hcmap as (Hlen & Hloaded & _).
  rewrite length_replicate in Hlen.
  assert (Hentry : forall k, 0 <= k < CONTOUR_CONFIG_COUNT ->
            exists c, d !! contour_filename k = Some c /\ load cmap k = Some (Some c) /\
                      glyph_ok (Some c) /\ glyph_full (Some c)).
  { intros k Hk. destruct (Hloaded k Hk) as (c & Hfile & Hload).
    destruct (Hfiles k Hk) as (c' & Hfile' & Hok & Hfull).
    unfold read_ppm in Hfile. exists c. by simplify_eq. }
  assert (Hall : forall P : option ppm_image -> Prop,
            (forall k c, 0 <= k < CONTOUR_CONFIG_COUNT ->
               d !! contour_filename k = Some c -> glyph_ok (Some c) /\ glyph_full (Some c) ->
               P (Some c)) -> Forall P cmap).
  { intros P HP. apply list.Forall_forall. intros oc [n Hn]%list_elem_of_lookup.
    pose proof (lookup_lt_Some _ _ _ Hn) as Hlt.
    destruct (Hentry (Z.of_nat n)) as (c & Hfile & Hload & Hok);
      [unfold CONTOUR_CONFIG_COUNT in *; lia|].
    unfold load in Hload. rewrite bool_decide_true, Nat2Z.id in Hload by lia.
    rewrite Hn in Hload. injection Hload as ->.
    apply (HP (Z.of_nat n)); [unfold CONTOUR_CONFIG_COUNT in *; lia|done|done]. }
  assert (Hglyphs : Forall glyph_ok cmap) by (apply Hall; intros k c _ _ [? _]; done).
  assert (Hfull : Forall glyph_full cmap) by (apply Hall; intros k c _ _ [_ ?]; done).
  (* the grid *)
  destruct (sample_stage_run image Hwf T HT Hp) as (g & Hg & Hgrid);
    [by apply (edge_in_bounds_last image Hwf)|].
  rewrite Hg. cbn [mbind option_bind].
  assert (Hcells : forall i j, 0 <= i < x image `quot` STEP ->
            0 <= j < y image `quot` STEP ->
            exists k c, config_index junk g i j = Some k /\ load cmap k = Some (Some c) /\
                        d !! contour_filename k = Some c).
  { intros i j Hi Hj.
    destruct (grid_is_config_index junk image g i j Hwf Hgrid Hi Hj) as (k & Hk & Hk16);
      [by right|].
    destruct (Hentry k Hk16) as (c & Hfile & Hload & _). by exists k, c. }
  (* the march *)
  pose proof Hp0 as Hp53.
  rewrite march_stage_run by (done || lia).
  rewrite <- march_one_thread by done.
  destruct (march_total junk image g cmap) with (tid := 0) (nthreads := 1)
      (s := {| slice_start := 0; slice_end := x image `quot` STEP |})
    as [out Hout]; [lia|lia|done|done|done|done|lia|lia| | |].
  { by apply thread_get_slice_single. }
  { intros i j Hi Hj. destruct (Hcells i j Hi Hj) as (k & c & Hk & Hload & _).
    by exists k, c. }
  exists out, g. split; [done|].
  pose proof (march_single_thread junk image g cmap out ltac:(lia) ltac:(lia)
                Hpix Hglyphs Hout) as Hstamped.
  rewrite march_one_thread in Hout by done.
  destruct (columns_frame junk image g cmap 0 (x image `quot` STEP) out)
    as (Hxo & Hyo & Hlo & Hframe); [lia|lia|done|done|lia|lia|done|].
  split; [done|]. split; [done|]. split; [done|]. split; [done|]. split.
  - intros i j Hi Hj.
    destruct (Hstamped i j Hi Hj) as (k & c & Hk & Hload & Hpixels).
    destruct (Hcells i j Hi Hj) as (k' & c' & Hk' & Hload' & Hfile).
    exists k, c. simplify_eq. done.
  - intros r c Hr Hcc Hout'. apply Hframe; [done|done|]. lia.
Qed.

End Pipe.


(** ** The marching stage where the slices do not tile *)

(** C6.  The claim fails on the code.  On a 120 by 8 image ([P = 15],
    [Q = 1]) with 11 threads, the slices that [march] takes of the
    columns of cells end at 14 (11 times the rounded ratio 15 / 11 is
    below 15): the cell [(14, 0)], whose configuration index is 15, is in
    no slice, and after the [march] of all the threads its pixels are
    those of the input, while a single thread stamps the glyph into it.
    And a glyph that is not square is not copied pixel by pixel:
    [march_update] reads the glyph at [c->x * i + j], where the images are
    laid out in rows of [y] pixels, so that for a glyph of 2 rows of 3
    pixels the destination [(1, 0)] gets the glyph pixel [(0, 2)] and the
    last pixel of the glyph is never copied. *)
Theorem march_stage_misses_cells :
  let image := solid 120 8 0 in
  let grid := ones_grid 15 1 in
  (x image `quot` STEP = 15 /\ y image `quot` STEP = 1) /\
  all_slices 11 15
  = Some <$> [ {| slice_start := 0; slice_end := 1 |};
               {| slice_start := 1; slice_end := 2 |};
               {| slice_start := 2; slice_end := 4 |};
               {| slice_start := 4; slice_end := 5 |};
               {| slice_start := 5; slice_end := 6 |};
               {| slice_start := 6; slice_end := 8 |};
               {| slice_start := 8; slice_end := 9 |};
               {| slice_start := 9; slice_end := 10 |};
               {| slice_start := 10; slice_end := 12 |};
               {| slice_start := 12; slice_end := 13 |};
               {| slice_start := 13; slice_end := 14 |} ] /\
  config_index no_junk grid 14 0 = Some 15 /\
  march_stage no_junk 11 image grid full_cmap
  = Some (cells_image 120 8 (fun i _ => if bool_decide (i = 14) then 0 else 115)) /\
  (img ← march_stage no_junk 11 image grid full_cmap; pixel_at img (14 * STEP) 0)
  = Some (gray 0) /\
  march no_junk image grid full_cmap 0 1 = Some (solid 120 8 115) /\
  (img ← march_update (solid 8 8 0) wide_glyph 0 0; pixel_at img 1 0) = Some (gray 12) /\
  load (data wide_glyph) (1 * y wide_glyph + 0) = Some (gray 13) /\
  load (data wide_glyph) (0 * y wide_glyph + 2) = Some (gray 12) /\
  (img ← march_update (solid 8 8 0) wide_glyph 0 0;
   Some (bool_decide (gray 15 ∈ data img))) = Some false.
Proof.
  cbv zeta. repeat split; vm_compute; reflexivity.
Qed.

(** ** The stage theorems at concrete inputs *)

Lemma contours_on_disk : glyphs_on_disk contours.
Proof.
  assert (H : Forall (fun i => is_Some (contours !! contour_filename i))
                (seqZ 0 CONTOUR_CONFIG_COUNT)).
  { apply (bool_decide_eq_true_1
             (Forall (fun i => is_Some (contours !! contour_filename i))
                (seqZ 0 CONTOUR_CONFIG_COUNT))).
    vm_compute. reflexivity. }
  intros i Hi. rewrite list.Forall_forall in H. apply H, elem_of_seqZ. lia.
Qed.

Lemma glyph_slices_tile_witness :
  1 <= 7 <= 48 /\ slices_tile 7 CONTOUR_CONFIG_COUNT.
Proof.
  assert (H1 : 1 <= 7 <= 48) by lia.
  split; [exact H1|]. exact (glyph_slices_tile 7 H1).
Defined.

Lemma init_cmap_loads_its_slice_witness :
  let cmap := replicate 16 (@None ppm_image) in
  let s := {| slice_start := 2; slice_end := 4 |} in
  (Z.of_nat (length cmap) = CONTOUR_CONFIG_COUNT /\ 0 <= 1 /\ 0 <= 8 /\
   thread_get_slice 1 8 CONTOUR_CONFIG_COUNT = Some s /\
   (forall i, in_slice s i -> is_Some (contours !! contour_filename i))) /\
  exists cmap',
    init_cmap contours cmap 1 8 = Some cmap' /\
    length cmap' = length cmap /\
    (forall i, in_slice s i ->
       exists c, contours !! contour_filename i = Some c /\
                 load cmap' i = Some (Some c)) /\
    (forall i, ~ in_slice s i -> load cmap' i = load cmap i).
Proof.
  intros cmap s.
  assert (H1 : Z.of_nat (length cmap) = CONTOUR_CONFIG_COUNT) by reflexivity.
  assert (H2 : 0 <= 1) by lia.
  assert (H3 : 0 <= 8) by lia.
  assert (H4 : thread_get_slice 1 8 CONTOUR_CONFIG_COUNT = Some s)
    by (vm_compute; reflexivity).
  assert (H5 : forall i, in_slice s i -> is_Some (contours !! contour_filename i)).
  { intros i Hi. apply contours_on_disk. unfold in_slice in Hi. cbn in Hi.
    unfold CONTOUR_CONFIG_COUNT. lia. }
  split; [exact (conj H1 (conj H2 (conj H3 (conj H4 H5))))|].
  exact (init_cmap_loads_its_slice contours cmap 1 8 s H1 H2 H3 H4 H5).
Defined.

Lemma cmap_stage_fills_the_table_witness :
  (slices_tile 8 CONTOUR_CONFIG_COUNT /\ glyphs_on_disk contours) /\
  exists cmap',
    cmap_stage contours 8 = Some cmap' /\
    Z.of_nat (length cmap') = CONTOUR_CONFIG_COUNT /\
    forall i, 0 <= i < CONTOUR_CONFIG_COUNT ->
      exists c, contours !! contour_filename i = Some c /\
                load cmap' i = Some (Some c).
Proof.
  assert (H1 : slices_tile 8 CONTOUR_CONFIG_COUNT).
  { apply tiles_b_sound. vm_compute. reflexivity. }
  split; [exact (conj H1 contours_on_disk)|].
  exact (cmap_stage_fills_the_table contours 8 H1 contours_on_disk).
Defined.

Lemma rescale_image_resamples_its_slice_witness :
  let s := {| slice_start := 0; slice_end := 2 |} in
  let sc := {| x := 0; y := 0; data := replicate 4 (gray 0) |} in
  (0%nat <> 1%nat /\ small_heap !! 0%nat = Some (solid 4 4 0) /\
   small_heap !! 1%nat = Some sc /\
   ~ fits 2 2 (solid 4 4 0) /\ Z.of_nat (length (data sc)) = 2 * 2 /\
   2 * 2 < 2 ^ 53 /\ 0 <= 0 /\ 0 <= 2 /\ thread_get_slice 0 2 (2 * 2) = Some s) /\
  exists h' sc',
    rescale_image 2 2 sample_first small_heap 0%nat 1%nat 0 2 = Some h' /\
    h' !! 0%nat = Some (solid 4 4 0) /\
    (forall l, l <> 1%nat -> h' !! l = small_heap !! l) /\
    h' !! 1%nat = Some sc' /\
    x sc' = 2 /\ y sc' = 2 /\
    length (data sc') = length (data sc) /\
    (forall i, in_slice s i ->
       load (data sc') i = Some (resampled 2 2 sample_first (solid 4 4 0) i)) /\
    (forall i, ~ in_slice s i -> load (data sc') i = load (data sc) i).
Proof.
  intros s sc.
  assert (H1 : 0%nat <> 1%nat) by lia.
  assert (H2 : small_heap !! 0%nat = Some (solid 4 4 0)) by (vm_compute; reflexivity).
  assert (H3 : small_heap !! 1%nat = Some sc) by (vm_compute; reflexivity).
  assert (H4 : ~ fits 2 2 (solid 4 4 0)) by (unfold fits; cbn; lia).
  assert (H5 : Z.of_nat (length (data sc)) = 2 * 2) by reflexivity.
  assert (H6 : 2 * 2 < 2 ^ 53) by (vm_compute; reflexivity).
  assert (H7 : 0 <= 0) by lia.
  assert (H8 : 0 <= 2) by lia.
  assert (H9 : thread_get_slice 0 2 (2 * 2) = Some s) by (vm_compute; reflexivity).
  split; [exact (conj H1 (conj H2 (conj H3 (conj H4 (conj H5 (conj H6 (conj H7
                   (conj H8 H9))))))))|].
  exact (rescale_image_resamples_its_slice 2 2 sample_first small_heap 0%nat 1%nat
           (solid 4 4 0) sc H1 H2 H3 0 2 s H4 H5 H6 H7 H8 H9).
Defined.

Lemma rescale_stage_resamples_every_pixel_witness :
  let sc := {| x := 0; y := 0; data := replicate 4 (gray 0) |} in
  (image (shared rescale_world) = Some 0%nat /\
   scaled (shared rescale_world) = Some 1%nat /\ 0%nat <> 1%nat /\
   heap rescale_world !! 0%nat = Some (solid 4 4 0) /\
   heap rescale_world !! 1%nat = Some sc /\
   ~ fits 2 2 (solid 4 4 0) /\ Z.of_nat (length (data sc)) = 2 * 2 /\
   2 * 2 < 2 ^ 53 /\ 1 <= nthreads (shared rescale_world) /\
   slices_tile (nthreads (shared rescale_world)) (2 * 2)) /\
  exists w' sc',
    stage (worker_rescale 2 2 sample_first) rescale_world = Some w' /\
    shared w' = shared rescale_world /\ disk w' = disk rescale_world /\
    heap w' !! 0%nat = Some (solid 4 4 0) /\
    (forall l, l <> 1%nat -> heap w' !! l = heap rescale_world !! l) /\
    heap w' !! 1%nat = Some sc' /\
    x sc' = 2 /\ y sc' = 2 /\
    Z.of_nat (length (data sc')) = 2 * 2 /\
    forall i, 0 <= i < 2 * 2 ->
      load (data sc') i = Some (resampled 2 2 sample_first (solid 4 4 0) i).
Proof.
  intros sc.
  assert (H1 : image (shared rescale_world) = Some 0%nat) by reflexivity.
  assert (H2 : scaled (shared rescale_world) = Some 1%nat) by reflexivity.
  assert (H3 : 0%nat <> 1%nat) by lia.
  assert (H4 : heap rescale_world !! 0%nat = Some (solid 4 4 0))
    by (vm_compute; reflexivity).
  assert (H5 : heap rescale_world !! 1%nat = Some sc) by (vm_compute; reflexivity).
  assert (H6 : ~ fits 2 2 (solid 4 4 0)) by (unfold fits; cbn; lia).
  assert (H7 : Z.of_nat (length (data sc)) = 2 * 2) by reflexivity.
  assert (H8 : 2 * 2 < 2 ^ 53) by (vm_compute; reflexivity).
  assert (H9 : 1 <= nthreads (shared rescale_world)) by (cbn; lia).
  assert (H10 : slices_tile (nthreads (shared rescale_world)) (2 * 2)).
  { apply tiles_b_sound. vm_compute. reflexivity. }
  split; [exact (conj H1 (conj H2 (conj H3 (conj H4 (conj H5 (conj H6 (conj H7
                   (conj H8 (conj H9 H10)))))))))|].
  exact (rescale_stage_resamples_every_pixel 2 2 sample_first rescale_world
           0%nat 1%nat (solid 4 4 0) sc H1 H2 H3 H4 H5 H6 H7 H8 H9 H10).
Defined.

Lemma solid_16_ok : image_ok (solid 16 16 0).
Proof. unfold image_ok. cbn. split; [lia|]. split; [lia|reflexivity]. Qed.

Lemma sampling_returns_iff_edge_in_bounds_witness :
  (image_ok (solid 16 16 0) /\ 1 <= 2 /\
   slices_tile 2 (x (solid 16 16 0) `quot` STEP)) /\
  (is_Some (sample_stage 2 (solid 16 16 0)) <->
   x (solid 16 16 0) `quot` STEP = 0 \/
   STEP * (x (solid 16 16 0) `quot` STEP - 1) * y (solid 16 16 0) + x (solid 16 16 0)
   <= x (solid 16 16 0) * y (solid 16 16 0)).
Proof.
  assert (H1 : 1 <= 2) by lia.
  assert (H2 : slices_tile 2 (x (solid 16 16 0) `quot` STEP)).
  { apply tiles_b_sound. vm_compute. reflexivity. }
  split; [exact (conj solid_16_ok (conj H1 H2))|].
  exact (sampling_returns_iff_edge_in_bounds (solid 16 16 0) 2 solid_16_ok H1 H2).
Defined.

Lemma sampling_is_independent_of_thread_count_witness :
  (image_ok (solid 16 16 0) /\ 1 <= 1 /\ 1 <= 2 /\
   slices_tile 1 (x (solid 16 16 0) `quot` STEP) /\
   slices_tile 2 (x (solid 16 16 0) `quot` STEP)) /\
  sample_stage 1 (solid 16 16 0) = sample_stage 2 (solid 16 16 0).
Proof.
  assert (H1 : 1 <= 1) by lia.
  assert (H2 : 1 <= 2) by lia.
  assert (H3 : slices_tile 1 (x (solid 16 16 0) `quot` STEP)).
  { apply tiles_b_sound. vm_compute. reflexivity. }
  assert (H4 : slices_tile 2 (x (solid 16 16 0) `quot` STEP)).
  { apply tiles_b_sound. vm_compute. reflexivity. }
  split; [exact (conj solid_16_ok (conj H1 (conj H2 (conj H3 H4))))|].
  exact (sampling_is_independent_of_thread_count (solid 16 16 0) 1 2
           solid_16_ok H1 H2 H3 H4).
Defined.

Lemma full_cmap_ok : Forall glyph_ok full_cmap.
Proof.
  apply (bool_decide_eq_true_1 (Forall glyph_ok full_cmap)). vm_compute. reflexivity.
Qed.

Lemma march_threads_commute_witness :
  let s1 := {| slice_start := 0; slice_end := 1 |} in
  let s2 := {| slice_start := 1; slice_end := 2 |} in
  (0 <= x (solid 16 16 0) < 2 ^ 31 /\ 0 <= y (solid 16 16 0) /\
   x (solid 16 16 0) * y (solid 16 16 0) <= 2 ^ 31 /\
   Forall glyph_ok full_cmap /\ 0 <= 0 /\ 0 <= 1 /\ 0 <= 2 /\
   thread_get_slice 0 2 (x (solid 16 16 0) `quot` STEP) = Some s1 /\
   thread_get_slice 1 2 (x (solid 16 16 0) `quot` STEP) = Some s2 /\
   (forall i, in_slice s1 i -> ~ in_slice s2 i)) /\
  (img ← march no_junk (solid 16 16 0) black_grid full_cmap 0 2;
   march no_junk img black_grid full_cmap 1 2)
  = (img ← march no_junk (solid 16 16 0) black_grid full_cmap 1 2;
     march no_junk img black_grid full_cmap 0 2).
Proof.
  intros s1 s2.
  assert (H1 : 0 <= x (solid 16 16 0) < 2 ^ 31) by (cbn; lia).
  assert (H2 : 0 <= y (solid 16 16 0)) by (cbn; lia).
  assert (H3 : x (solid 16 16 0) * y (solid 16 16 0) <= 2 ^ 31) by (cbn; lia).
  assert (H5 : 0 <= 0) by lia.
  assert (H6 : 0 <= 1) by lia.
  assert (H7 : 0 <= 2) by lia.
  assert (H8 : thread_get_slice 0 2 (x (solid 16 16 0) `quot` STEP) = Some s1)
    by (vm_compute; reflexivity).
  assert (H9 : thread_get_slice 1 2 (x (solid 16 16 0) `quot` STEP) = Some s2)
    by (vm_compute; reflexivity).
  assert (H10 : forall i, in_slice s1 i -> ~ in_slice s2 i).
  { intros i. unfold in_slice. cbn. lia. }
  split; [exact (conj H1 (conj H2 (conj H3 (conj full_cmap_ok (conj H5 (conj H6
                   (conj H7 (conj H8 (conj H9 H10)))))))))|].
  exact (march_threads_commute no_junk (solid 16 16 0) black_grid full_cmap 2 0 1
           s1 s2 H1 H2 H3 full_cmap_ok H5 H6 H7 H8 H9 H10).
Defined.

Lemma march_writes_only_its_rows_witness :
  let s := {| slice_start := 0; slice_end := 1 |} in
  let image' := cells_image 16 16 (fun i j => if bool_decide (i = 0) then 115 else 0) in
  (0 <= x (solid 16 16 0) < 2 ^ 31 /\ 0 <= y (solid 16 16 0) /\
   x (solid 16 16 0) * y (solid 16 16 0) <= 2 ^ 31 /\
   Forall glyph_ok full_cmap /\ 0 <= 0 /\ 0 <= 2 /\
   thread_get_slice 0 2 (x (solid 16 16 0) `quot` STEP) = Some s /\
   march no_junk (solid 16 16 0) black_grid full_cmap 0 2 = Some image') /\
  x image' = x (solid 16 16 0) /\ y image' = y (solid 16 16 0) /\
  length (data image') = length (data (solid 16 16 0)) /\
  forall r c, 0 <= r -> 0 <= c < y (solid 16 16 0) ->
    r < slice_start s * STEP \/ slice_end s * STEP <= r \/
    y (solid 16 16 0) `quot` STEP * STEP <= c ->
    load (data image') (r * y (solid 16 16 0) + c)
    = load (data (solid 16 16 0)) (r * y (solid 16 16 0) + c).
Proof.
  intros s image'.
  assert (H1 : 0 <= x (solid 16 16 0) < 2 ^ 31) by (cbn; lia).
  assert (H2 : 0 <= y (solid 16 16 0)) by (cbn; lia).
  assert (H3 : x (solid 16 16 0) * y (solid 16 16 0) <= 2 ^ 31) by (cbn; lia).
  assert (H5 : 0 <= 0) by lia.
  assert (H7 : 0 <= 2) by lia.
  assert (H8 : thread_get_slice 0 2 (x (solid 16 16 0) `quot` STEP) = Some s)
    by (vm_compute; reflexivity).
  assert (H9 : march no_junk (solid 16 16 0) black_grid full_cmap 0 2 = Some image')
    by (vm_compute; reflexivity).
  split; [exact (conj H1 (conj H2 (conj H3 (conj full_cmap_ok (conj H5 (conj H7
                   (conj H8 H9)))))))|].
  exact (march_writes_only_its_rows no_junk (solid 16 16 0) black_grid full_cmap 0 2
           s image' H1 H2 H3 full_cmap_ok H5 H7 H8 H9).
Defined.

(** ** The theorems on whole stages and runs at concrete inputs *)

Lemma small_disk_glyphs : glyph_files_ok small_disk.
Proof.
  assert (H : forallb (fun i => match small_disk !! contour_filename i with
                                | Some c => bool_decide (glyph_ok (Some c) /\
                                                         glyph_full (Some c))
                                | None => false
                                end) (seqZ 0 CONTOUR_CONFIG_COUNT) = true)
    by (vm_compute; reflexivity).
  intros i Hi. rewrite forallb_forall in H.
  specialize (H i). rewrite <- list_elem_of_In in H. specialize (H ltac:(apply elem_of_seqZ; lia)).
  destruct (small_disk !! contour_filename i) as [c|]; [|done].
  exists c. split; [done|]. by apply bool_decide_eq_true_1 in H.
Qed.

Lemma sampled_cells_select_a_glyph_witness :
  (image_ok (solid 16 16 0) /\ 1 <= 2 /\
   slices_tile 2 (x (solid 16 16 0) `quot` STEP) /\
   sample_stage 2 (solid 16 16 0) = Some black_sampled /\
   0 <= 1 < x (solid 16 16 0) `quot` STEP /\ 0 <= 1 < y (solid 16 16 0) `quot` STEP /\
   ((1, 1) <> (x (solid 16 16 0) `quot` STEP - 1, y (solid 16 16 0) `quot` STEP - 1) \/
    exists b, junk_const 1 (x (solid 16 16 0) `quot` STEP)
                (y (solid 16 16 0) `quot` STEP) = Some b /\ (b = 0 \/ b = 1))) /\
  exists k, config_index (junk_const 1) black_sampled 1 1 = Some k /\
            0 <= k < CONTOUR_CONFIG_COUNT.
Proof.
  assert (H1 : 1 <= 2) by lia.
  assert (H2 : slices_tile 2 (x (solid 16 16 0) `quot` STEP)).
  { apply tiles_b_sound. vm_compute. reflexivity. }
  assert (H3 : sample_stage 2 (solid 16 16 0) = Some black_sampled)
    by (vm_compute; reflexivity).
  assert (H4 : 0 <= 1 < x (solid 16 16 0) `quot` STEP) by (vm_compute; split; [discriminate|reflexivity]).
  assert (H5 : 0 <= 1 < y (solid 16 16 0) `quot` STEP) by (vm_compute; split; [discriminate|reflexivity]).
  assert (H6 : (1, 1) <> (x (solid 16 16 0) `quot` STEP - 1,
                          y (solid 16 16 0) `quot` STEP - 1) \/
               exists b, junk_const 1 (x (solid 16 16 0) `quot` STEP)
                           (y (solid 16 16 0) `quot` STEP) = Some b /\ (b = 0 \/ b = 1)).
  { right. exists 1. split; [reflexivity|right; reflexivity]. }
  split; [exact (conj solid_16_ok (conj H1 (conj H2 (conj H3 (conj H4 (conj H5 H6))))))|].
  exact (sampled_cells_select_a_glyph (junk_const 1) (solid 16 16 0) 2 black_sampled 1 1
           solid_16_ok H1 H2 H3 H4 H5 H6).
Defined.

Lemma large_image_gets_its_own_buffer_witness :
  (image (shared large_world) = None /\
   read_ppm (disk large_world) (filename_in (shared large_world)) = Some (solid 4 4 0) /\
   ~ fits 2 2 (solid 4 4 0)) /\
  exists w' l l' sc,
    once_image_read 2 2 0 (gray 0) large_world = Some w' /\
    image (shared w') = Some l /\ scaled (shared w') = Some l' /\ l <> l' /\
    heap large_world !! l = None /\ heap large_world !! l' = None /\
    heap w' !! l = Some (solid 4 4 0) /\ heap w' !! l' = Some sc /\
    length (data sc) = Z.to_nat (2 * 2) /\
    (forall a, a <> l -> a <> l' -> heap w' !! a = heap large_world !! a) /\
    disk w' = disk large_world.
Proof.
  assert (H1 : image (shared large_world) = None) by reflexivity.
  assert (H2 : read_ppm (disk large_world) (filename_in (shared large_world))
               = Some (solid 4 4 0)) by (vm_compute; reflexivity).
  assert (H3 : ~ fits 2 2 (solid 4 4 0)) by (unfold fits; cbn; lia).
  split; [exact (conj H1 (conj H2 H3))|].
  exact (large_image_gets_its_own_buffer 2 2 0 (gray 0) large_world (solid 4 4 0) H1 H2 H3).
Defined.

Lemma run_writes_only_the_output_file_witness :
  let run := run_workers 2048 2048 (fun _ _ _ => gray 0) (junk_const 0) 0 (gray 0) in
  let w' := default (small_world 2) (run (small_world 2)) in
  (1 <= nthreads (shared (small_world 2)) /\ finished (shared (small_world 2)) = 0 /\
   run (small_world 2) = Some w') /\
  exists l sc, scaled (shared w') = Some l /\ heap w' !! l = Some sc /\
    disk w' = <[filename_out (shared (small_world 2)) := sc]> (disk (small_world 2)) /\
    finished (shared w') = 1.
Proof.
  intros run w'.
  assert (H1 : 1 <= nthreads (shared (small_world 2))) by (cbn; lia).
  assert (H2 : finished (shared (small_world 2)) = 0) by reflexivity.
  assert (H3 : run (small_world 2) = Some w') by (vm_compute; reflexivity).
  split; [exact (conj H1 (conj H2 H3))|].
  exact (run_writes_only_the_output_file 2048 2048 (fun _ _ _ => gray 0) (junk_const 0)
           0 (gray 0) (small_world 2) w' H1 H2 H3).
Defined.

Lemma march_stage_is_one_thread_witness :
  (0 <= x (solid 16 16 0) < 2 ^ 31 /\ 1 <= 2 /\
   slices_tile 2 (x (solid 16 16 0) `quot` STEP)) /\
  march_stage no_junk 2 (solid 16 16 0) black_grid full_cmap
  = march no_junk (solid 16 16 0) black_grid full_cmap 0 1.
Proof.
  assert (H1 : 0 <= x (solid 16 16 0) < 2 ^ 31) by (cbn; lia).
  assert (H2 : 1 <= 2) by lia.
  assert (H3 : slices_tile 2 (x (solid 16 16 0) `quot` STEP)).
  { apply tiles_b_sound. vm_compute. reflexivity. }
  split; [exact (conj H1 (conj H2 H3))|].
  exact (march_stage_is_one_thread no_junk (solid 16 16 0) black_grid full_cmap 2 H1 H2 H3).
Defined.

Lemma pipeline_is_its_stages_witness :
  let d := <["in.ppm" := solid 16 16 0]> contours in
  (1 <= 2 /\ d !! "in.ppm" = Some (solid 16 16 0) /\
   (~ fits 8 8 (solid 16 16 0) -> 0 <= 8 * 8 < 2 ^ 53 /\ slices_tile 2 (8 * 8))) /\
  pipeline 8 8 sample_first (junk_const 0) 0 (gray 0) d "in.ppm" "out.ppm" 2
  = (c ← cmap_stage d 2;
     g ← sample_stage 2 (target 8 8 sample_first (solid 16 16 0));
     march_stage (junk_const 0) 2 (target 8 8 sample_first (solid 16 16 0)) g c).
Proof.
  intros d.
  assert (H1 : 1 <= 2) by lia.
  assert (H2 : d !! "in.ppm" = Some (solid 16 16 0)) by (vm_compute; reflexivity).
  assert (H3 : ~ fits 8 8 (solid 16 16 0) ->
               0 <= 8 * 8 < 2 ^ 53 /\ slices_tile 2 (8 * 8)).
  { intros _. split; [lia|]. apply tiles_b_sound. vm_compute. reflexivity. }
  split; [exact (conj H1 (conj H2 H3))|].
  exact (pipeline_is_its_stages 8 8 sample_first (junk_const 0) 0 (gray 0) d
           "in.ppm" "out.ppm" 2 (solid 16 16 0) H1 H2 H3).
Defined.

Lemma small_target : target 2048 2048 (fun _ _ _ => gray 0) (solid 16 16 0) = solid 16 16 0.
Proof. unfold target. rewrite bool_decide_true; [done|]. unfold fits. cbn. lia. Qed.

Lemma small_fits : ~ fits 2048 2048 (solid 16 16 0) -> False.
Proof. intros H. apply H. unfold fits. cbn. lia. Qed.


Lemma output_is_contoured_witness :
  let tgt := target 2048 2048 (fun _ _ _ => gray 0) (solid 16 16 0) in
  let run := pipeline 2048 2048 (fun _ _ _ => gray 0) (junk_const 0) 0 (gray 0) in
  (1 <= 2 /\ small_disk !! "in.ppm" = Some (solid 16 16 0) /\
   glyph_files_ok small_disk /\
   (~ fits 2048 2048 (solid 16 16 0) ->
    0 <= 2048 * 2048 < 2 ^ 53 /\ slices_tile 2 (2048 * 2048)) /\
   image_ok tgt /\ x tgt * y tgt <= 2 ^ 31 /\
   slices_tile 2 CONTOUR_CONFIG_COUNT /\ slices_tile 2 (x tgt `quot` STEP) /\
   (x tgt `quot` STEP = 0 \/
    STEP * (x tgt `quot` STEP - 1) * y tgt + x tgt <= x tgt * y tgt) /\
   (exists b, junk_const 0 (x tgt `quot` STEP) (y tgt `quot` STEP) = Some b /\
              (b = 0 \/ b = 1))) /\
  exists out g,
    run small_disk "in.ppm" "out.ppm" 2 = Some out /\
    x out = x tgt /\ y out = y tgt /\
    length (data out) = length (data tgt) /\
    grid_is tgt g /\
    (forall i j, 0 <= i < x tgt `quot` STEP -> 0 <= j < y tgt `quot` STEP ->
       exists k c,
         config_index (junk_const 0) g i j = Some k /\
         small_disk !! contour_filename k = Some c /\
         forall a b, 0 <= a < x c -> 0 <= b < y c ->
           exists pc, load (data c) (x c * a + b) = Some pc /\
                      load (data out) ((i * STEP + a) * y tgt + j * STEP + b) = Some pc) /\
    (forall r c, 0 <= r -> 0 <= c < y tgt ->
       x tgt `quot` STEP * STEP <= r \/ y tgt `quot` STEP * STEP <= c ->
       load (data out) (r * y tgt + c) = load (data tgt) (r * y tgt + c)).
Proof.
  intros tgt run.
  assert (Ht : tgt = solid 16 16 0) by exact small_target.
  assert (H1 : 1 <= 2) by lia.
  assert (H2 : small_disk !! "in.ppm" = Some (solid 16 16 0)) by (vm_compute; reflexivity).
  assert (H4 : ~ fits 2048 2048 (solid 16 16 0) ->
               0 <= 2048 * 2048 < 2 ^ 53 /\ slices_tile 2 (2048 * 2048)).
  { intros H. destruct (small_fits H). }
  assert (H5 : image_ok tgt) by (rewrite Ht; exact solid_16_ok).
  assert (H6 : x tgt * y tgt <= 2 ^ 31) by (rewrite Ht; cbn; lia).
  assert (H7 : slices_tile 2 CONTOUR_CONFIG_COUNT)
    by (apply tiles_b_sound; vm_compute; reflexivity).
  assert (H8 : slices_tile 2 (x tgt `quot` STEP))
    by (apply tiles_b_sound; vm_compute; reflexivity).
  assert (H9 : x tgt `quot` STEP = 0 \/
               STEP * (x tgt `quot` STEP - 1) * y tgt + x tgt <= x tgt * y tgt).
  { right. rewrite Ht. vm_compute. discriminate. }
  assert (H10 : exists b, junk_const 0 (x tgt `quot` STEP) (y tgt `quot` STEP) = Some b /\
                          (b = 0 \/ b = 1)).
  { exists 0. split; [reflexivity|left; reflexivity]. }
  split; [exact (conj H1 (conj H2 (conj small_disk_glyphs (conj H4 (conj H5 (conj H6
                   (conj H7 (conj H8 (conj H9 H10)))))))))|].
  exact (output_is_contoured 2048 2048 (fun _ _ _ => gray 0) (junk_const 0) 0 (gray 0)
           small_disk "in.ppm" "out.ppm" 2 (solid 16 16 0)
           H1 H2 small_disk_glyphs H4 H5 H6 H7 H8 H9 H10).
Defined.

(** ** Barriers, deadlock freedom and termination of the pool *)

Module PoolFacts.
Import Sync SyncFacts Pool.
Local Open Scope nat_scope.

Ltac static_b :=
  repeat match goal with
         | |- _ /\ _ => split
         | |- forall _ : barrier, _ => intros []
         | |- forall _ : lock, _ => intros []
         | |- _ -> _ =>
             let H := fresh in
             intros H; try (vm_compute in H; first [congruence|contradiction])
         end;
  vm_compute; reflexivity.

Lemma static_arrive (n : nat) (b : barrier) :
  worker !! n = Some (Arrive b) ->
  past n b = false /\ past (S n) b = true /\
  (forall b', b' <> b -> past (S n) b' = past n b').
Proof. intros H. at_each_pc H static_b. Qed.

Lemma static_leave (n : nat) (b : barrier) :
  worker !! n = Some (Leave b) ->
  past n b = true /\ released n b = false.
Proof. intros H. at_each_pc H static_b. Qed.

Lemma static_quiet (n : nat) (i : instr) :
  worker !! n = Some i ->
  match i with Arrive _ => False | _ => True end ->
  (forall b, past (S n) b = past n b) /\
  match i with
  | IfNull _ k => forall b, past (S (n + k)) b = past n b
  | _ => True
  end.
Proof. intros H. at_each_pc H static_b. Qed.

Lemma static_release (n : nat) (i : instr) :
  worker !! n = Some i ->
  (forall b, i <> Leave b -> released (S n) b = released n b) /\
  match i with
  | IfNull _ k => forall b, released (S (n + k)) b = released n b
  | _ => True
  end.
Proof. intros H. at_each_pc H static_b. Qed.

Lemma static_inside (n : nat) (i : instr) :
  worker !! n = Some i ->
  S n <= length worker /\
  match i with IfNull _ k => S (n + k) <= length worker | _ => True end.
Proof.
  intros H. split; [apply lookup_lt_Some in H; lia|].
  destruct i; try done. at_each_pc H ltac:(vm_compute; lia).
Qed.

Lemma static_holds (n : nat) (l : lock) :
  holds n l = true ->
  exists i, worker !! n = Some i /\
            match i with IfNull _ _ | Assign _ | Unlock _ => True | _ => False end.
Proof.
  intros H.
  assert (Hn : n < 32).
  { unfold holds in H. apply andb_true_iff in H as [_ H%Nat.leb_le].
    destruct l; vm_compute index_of in H; lia. }
  do 32 (destruct n as [|n];
         [destruct l; first [by vm_compute in H
                            |eexists; split; [reflexivity|exact I]]|]).
  lia.
Qed.

Lemma past_mono (n n' : nat) (b : barrier) :
  n <= n' -> past n b = true -> past n' b = true.
Proof. unfold past. rewrite !Nat.ltb_lt. lia. Qed.

Lemma released_past (n : nat) (b : barrier) :
  released n b = true -> past n b = true.
Proof.
  unfold released, past. rewrite !Nat.ltb_lt.
  destruct b; vm_compute index_of; lia.
Qed.

Lemma static_work (n : nat) (i : instr) :
  worker !! n = Some i ->
  (forall w, worked (S n) w = if decide (i = Work w) then true else worked n w) /\
  match i with
  | IfNull _ k => forall w, worked (S (n + k)) w = worked n w
  | _ => True
  end.
Proof.
  intros H.
  at_each_pc H ltac:(split; [intros []; vm_compute; reflexivity
                            |try exact I; intros []; vm_compute; reflexivity]).
Qed.

(** *** Counting the threads that satisfy a predicate *)

Lemma filter_length_all {A} (P : A -> Prop) `{!forall a, Decision (P a)} (l : list A) :
  length (filter P l) = length l -> Forall P l.
Proof.
  induction l as [|a l IH]; [constructor|].
  rewrite filter_cons. destruct (decide (P a)) as [Ha|Ha]; cbn.
  - intros [= Hl]. constructor; auto.
  - intros Hl. pose proof (length_filter P l). lia.
Qed.

Lemma filter_all_length {A} (P : A -> Prop) `{!forall a, Decision (P a)} (l : list A) :
  Forall P l -> length (filter P l) = length l.
Proof.
  induction 1 as [|a l Ha _ IH]; [done|].
  rewrite filter_cons. destruct (decide (P a)); [cbn; lia|done].
Qed.

Lemma filter_same {A} (P Q : A -> Prop) `{!forall a, Decision (P a)}
    `{!forall a, Decision (Q a)} (l : list A) :
  (forall a, a ∈ l -> P a <-> Q a) -> filter P l = filter Q l.
Proof.
  induction l as [|a l IH]; [done|]. intros Hext.
  rewrite !filter_cons.
  assert (Ha : P a <-> Q a) by (apply Hext; left).
  rewrite IH by (intros a' Ha'; apply Hext; by right).
  destruct (decide (P a)), (decide (Q a)); tauto.
Qed.

Lemma filter_one_more {A} (P Q : A -> Prop) `{!forall a, Decision (P a)}
    `{!forall a, Decision (Q a)} (l : list A) (t : A) :
  NoDup l -> t ∈ l -> ~ P t -> Q t ->
  (forall a, a ∈ l -> a <> t -> P a <-> Q a) ->
  length (filter Q l) = S (length (filter P l)).
Proof.
  induction 1 as [|a l Ha Hl IH]; intros Ht HP HQ Hext.
  - by apply elem_of_nil in Ht.
  - rewrite !filter_cons. apply elem_of_cons in Ht as [<-|Ht].
    + rewrite (filter_same P Q l).
      * destruct (decide (P t)), (decide (Q t)); try done.
      * intros a' Ha'. apply Hext; [by right|]. intros ->. done.
    + assert (Hat : a <> t) by (intros ->; done).
      assert (HPQ : P a <-> Q a) by (apply Hext; [left|done]).
      assert (IH' : length (filter Q l) = S (length (filter P l))).
      { apply IH; try done. intros a' Ha'. apply Hext. by right. }
      destruct (decide (P a)), (decide (Q a)); cbn; try tauto; lia.
Qed.

Lemma callers_same (T : nat) (pcs : nat -> nat) (t n : nat) (b : barrier) :
  past n b = past (pcs t) b ->
  callers T (<[t := n]> pcs) b = callers T pcs b.
Proof.
  intros H. unfold callers. apply filter_same. intros a _.
  by rewrite (frame_pc (fun m => past m b)).
Qed.

Lemma callers_one_more (T : nat) (pcs : nat -> nat) (t n : nat) (b : barrier) :
  t < T -> past (pcs t) b = false -> past n b = true ->
  length (callers T (<[t := n]> pcs) b) = S (length (callers T pcs b)).
Proof.
  intros Ht H0 H1. unfold callers.
  apply (filter_one_more _ _ _ t).
  - apply NoDup_seq.
  - apply elem_of_seq. lia.
  - congruence.
  - by rewrite fn_lookup_insert.
  - intros a _ Ha. by rewrite fn_lookup_insert_ne.
Qed.

Lemma callers_all (T : nat) (pcs : nat -> nat) (b : barrier) :
  length (callers T pcs b) = T <-> forall t, t < T -> past (pcs t) b = true.
Proof.
  unfold callers. split.
  - intros H t Ht.
    assert (Hall : Forall (fun t => past (pcs t) b = true) (seq 0 T)).
    { apply (filter_length_all (fun t => past (pcs t) b = true) (seq 0 T)).
      by rewrite length_seq. }
    rewrite list.Forall_forall in Hall. apply Hall, elem_of_seq. lia.
  - intros H.
    rewrite (filter_all_length (fun t => past (pcs t) b = true) (seq 0 T));
      [apply length_seq|].
    apply list.Forall_forall. intros t Ht%elem_of_seq. apply H. lia.
Qed.

(** *** What a step does to the program counters and the barriers *)

Section Steps.
Variable returns : nat -> work -> bool.
Local Abbreviation step := (step returns).
Local Abbreviation reachable := (reachable returns).
Local Abbreviation run := (run returns).

Lemma step_inv (T t : nat) (st st' : state) :
  step T t st = Some st' ->
  exists i n,
    worker !! pc st t = Some i /\
    pc st' = <[t := n]> (pc st) /\
    (n = S (pc st t) \/ exists f k, i = IfNull f k /\ n = S (pc st t + k)) /\
    (forall b, arrived st' b
               = if decide (i = Arrive b) then S (arrived st b) else arrived st b) /\
    (forall b, i = Leave b -> arrived st b = T).
Proof.
  unfold step. destruct (worker !! pc st t) as [i|] eqn:Hi; [|done].
  intros Hstep. exists i.
  assert (Hplain : forall o a,
            (forall b, i <> Arrive b) -> (forall b, i = Leave b -> arrived st b = T) ->
            st' = {| pc := <[t := S (pc st t)]> (pc st); owner := o;
                     inits := a; arrived := arrived st |} ->
            exists n, Some i = Some i /\ pc st' = <[t := n]> (pc st) /\
              (n = S (pc st t) \/ exists f k, i = IfNull f k /\ n = S (pc st t + k)) /\
              (forall b, arrived st' b
                 = if decide (i = Arrive b) then S (arrived st b) else arrived st b) /\
              (forall b, i = Leave b -> arrived st b = T)).
  { intros o a Hna Hl ->. exists (S (pc st t)). cbn [pc arrived].
    split; [done|]. split; [done|]. split; [by left|]. split; [|done].
    intros b. case_decide; [|done]. by destruct (Hna b). }
  destruct i as [l|l|f k|f|b|b|w].
  - destruct (owner st l); [done|]. injection Hstep as <-.
    eapply Hplain; done.
  - injection Hstep as <-. eapply Hplain; done.
  - injection Hstep as <-. eexists. unfold set_pc. cbn [pc arrived].
    split; [done|]. split; [done|]. split; [|split; [|done]].
    + destruct (decide _); [by left|right]. exists f, k. split; [done|]. lia.
    + intros b. by case_decide.
  - injection Hstep as <-. eapply Hplain; done.
  - injection Hstep as <-. exists (S (pc st t)). cbn [pc arrived].
    split; [done|]. split; [done|]. split; [by left|]. split; [|done].
    intros b'. destruct (decide (Arrive b = Arrive b')) as [[= <-]|Hne].
    + by rewrite fn_lookup_insert.
    + rewrite fn_lookup_insert_ne; [done|]. intros ->. done.
  - destruct (decide _) as [Harr|]; [|done]. injection Hstep as <-.
    eapply (Hplain (owner st) (inits st)); [done| |done].
    intros b' [= <-]. done.
  - destruct (returns t w); [|done]. injection Hstep as <-.
    eapply (Hplain (owner st) (inits st)); done.
Qed.

Lemma step_pc_lt (T t : nat) (st st' : state) :
  step T t st = Some st' ->
  pc st t < pc st' t /\ forall t', t' <> t -> pc st' t' = pc st t'.
Proof.
  intros (i & n & _ & -> & Hn & _)%step_inv. split.
  - rewrite fn_lookup_insert. destruct Hn as [->|(f & k & _ & ->)]; lia.
  - intros t' Ht'. by rewrite fn_lookup_insert_ne.
Qed.

Lemma step_pc_le (T t t' : nat) (st st' : state) :
  step T t st = Some st' -> pc st t' <= pc st' t'.
Proof.
  intros [Hlt Hne]%step_pc_lt. destruct (decide (t' = t)) as [->|H]; [lia|].
  rewrite Hne by done. lia.
Qed.

Lemma step_past (T t : nat) (st st' : state) (i : instr) (b : barrier) :
  step T t st = Some st' -> worker !! pc st t = Some i ->
  past (pc st' t) b = if decide (i = Arrive b) then true else past (pc st t) b.
Proof.
  intros (i' & n & Hi' & Hpc & Hn & _)%step_inv Hi.
  assert (i' = i) as -> by congruence.
  rewrite Hpc, fn_lookup_insert.
  destruct (decide (i = Arrive b)) as [->|Hne].
  - destruct Hn as [->|(f & k & [=] & _)]. by apply static_arrive.
  - destruct i as [l|l|f k|f|b'|b'|w];
      try (destruct (static_quiet _ _ Hi I) as [H1 H2];
           destruct Hn as [->|(f' & k' & [= <- <-] & ->)]; [apply H1|apply H2]);
      try (destruct (static_quiet _ _ Hi I) as [H1 _];
           destruct Hn as [->|(f' & k' & [=] & _)]; apply H1).
    destruct Hn as [->|(f & k & [=] & _)].
    apply static_arrive in Hi as (_ & _ & Hother). apply Hother. congruence.
Qed.

Lemma barrier_inv_init (T : nat) : barrier_inv T init_state.
Proof.
  split; cbn.
  - intros b. symmetry. apply length_zero_iff_nil.
    unfold callers. induction (seq 0 T) as [|a l IH]; [done|].
    rewrite filter_cons. destruct (decide _) as [H|]; [|done].
    destruct b; vm_compute in H; done.
  - intros _. lia.
  - done.
Qed.

Lemma barrier_inv_step (T : nat) (st st' : state) (t : nat) :
  barrier_inv T st -> t < T -> step T t st = Some st' -> barrier_inv T st'.
Proof.
  intros [Harr Hin Hpool] Ht Hstep.
  pose proof (step_inv _ _ _ _ Hstep) as (i & n & Hi & Hpc & Hn & Ha & _).
  split.
  - intros b. rewrite Ha, Hpc.
    pose proof (step_past _ _ _ _ _ b Hstep Hi) as Hp.
    rewrite Hpc, fn_lookup_insert in Hp.
    destruct (decide (i = Arrive b)) as [->|Hne].
    + rewrite callers_one_more; [by rewrite Harr|done| |done].
      by apply static_arrive.
    + rewrite callers_same by done. apply Harr.
  - intros t'. rewrite Hpc. destruct (decide (t = t')) as [<-|Hne].
    + rewrite fn_lookup_insert. destruct (static_inside _ _ Hi) as [H1 H2].
      destruct Hn as [->|(f & k & -> & ->)]; done.
    + rewrite fn_lookup_insert_ne by done. apply Hin.
  - intros t' Ht'. rewrite Hpc, fn_lookup_insert_ne by lia. by apply Hpool.
Qed.

Lemma reachable_barrier_inv (T : nat) (st : state) :
  reachable T st -> barrier_inv T st.
Proof.
  induction 1 as [|st t st' _ IH Ht Hstep]; [apply barrier_inv_init|].
  eapply barrier_inv_step; done.
Qed.

(** X13.  A barrier separates the stages: in every state that an
    interleaving of the [T] workers reaches, when some thread of the pool
    has returned from [pthread_barrier_wait] on [b], every thread of the
    pool has called it, so that none is still in the code before [b]. *)
Theorem barrier_separates_stages (T : nat) (st : state) (b : barrier) (t t' : nat) :
  reachable T st -> t < T -> t' < T ->
  released (pc st t) b = true -> past (pc st t') b = true.
Proof.
  intros Hr. revert t t'.
  induction Hr as [|st u st' Hr IH Hu Hstep]; intros t t' Ht Ht' Hrel.
  - destruct b; vm_compute in Hrel; done.
  - assert (Hmono : forall a, past (pc st a) b = true -> past (pc st' a) b = true).
    { intros a. apply past_mono. eapply step_pc_le, Hstep. }
    destruct (decide (released (pc st t) b = true)) as [Hold|Hnew].
    { eapply Hmono, IH; [exact Ht|exact Ht'|exact Hold]. }
    pose proof (step_inv _ _ _ _ Hstep) as (i & n & Hi & Hpc & Hn & _ & Hleave).
    destruct (decide (t = u)) as [->|Htu].
    2: { rewrite Hpc, fn_lookup_insert_ne in Hrel by done. done. }
    rewrite Hpc, fn_lookup_insert in Hrel.
    destruct (decide (i = Leave b)) as [->|Hi'].
    + apply Hmono. pose proof (reachable_barrier_inv _ _ Hr) as [Harr _ _].
      apply (callers_all T (pc st) b); [|exact Ht'].
      rewrite <- Harr. by apply Hleave.
    + destruct (static_release _ _ Hi) as [H1 H2].
      destruct Hn as [->|(f & k & -> & ->)].
      * rewrite H1 in Hrel by done. done.
      * rewrite H2 in Hrel. done.
Qed.

(** X14.  The mutexes exclude: in every reachable state, two threads that
    are both between the [pthread_mutex_lock] and the
    [pthread_mutex_unlock] of the same mutex are one thread, and that
    thread is the owner of the mutex. *)
Theorem critical_sections_exclude (T : nat) (st : state) (l : lock) (t t' : nat) :
  reachable T st ->
  holds (pc st t) l = true -> holds (pc st t') l = true ->
  t = t' /\ owner st l = Some t.
Proof.
  intros Hr H1 H2. pose proof (reachable_inv _ _ _ Hr) as Hinv.
  split.
  - eapply inv_exclusive; [exact Hinv|exact H1|exact H2].
  - destruct Hinv as [Hown _ _ _ _ _ _]. by apply Hown.
Qed.

Lemma least_pc (T : nat) (pcs : nat -> nat) :
  0 < T -> exists t, t < T /\ forall t', t' < T -> pcs t <= pcs t'.
Proof.
  induction T as [|T IH]; [lia|]. intros _.
  destruct T as [|T].
  - exists 0. split; [lia|]. intros t' Ht'. by replace t' with 0 by lia.
  - destruct IH as (t & Ht & Hmin); [lia|].
    destruct (decide (pcs t <= pcs (S T))) as [Hle|Hgt].
    + exists t. split; [lia|]. intros t' Ht'.
      destruct (decide (t' = S T)) as [->|Hne]; [done|]. apply Hmin. lia.
    + exists (S T). split; [lia|]. intros t' Ht'.
      destruct (decide (t' = S T)) as [->|Hne]; [done|].
      specialize (Hmin t'). lia.
Qed.

(** In a reachable state in which some thread of the pool has not yet
    returned, the thread that is least far into [worker] can take a step,
    or it waits for a mutex whose owner can, or it is at a work statement
    that does not return. *)
Lemma some_thread_steps (T : nat) (st : state) :
  reachable T st ->
  (exists t, t < T /\ pc st t < length worker) ->
  (exists t st', t < T /\ step T t st = Some st') \/
  (exists t w, t < T /\ worker !! pc st t = Some (Work w) /\ returns t w = false).
Proof.
  intros Hr (t0 & Ht0 & Hpc0).
  pose proof (reachable_inv _ _ _ Hr) as [Hown _ _ _ _ _ _].
  pose proof (reachable_barrier_inv _ _ Hr) as [Harr Hin Hpool].
  destruct (least_pc T (pc st)) as (t & Ht & Hmin); [lia|].
  assert (Hn : pc st t < length worker) by (specialize (Hmin t0 Ht0); lia).
  destruct (lookup_lt_is_Some_2 worker _ Hn) as [i Hi].
  destruct i as [l|l|f k|f|b|b|w];
    try (left; exists t; eexists; split; [done|]; unfold Sync.step; rewrite Hi; done).
  - left. destruct (owner st l) as [o|] eqn:Ho.
    + apply Hown in Ho.
      assert (Hlt : o < T).
      { destruct (decide (o < T)); [done|].
        rewrite Hpool in Ho by lia. destruct l; vm_compute in Ho; done. }
      destruct (static_holds _ _ Ho) as (i' & Hi' & Hkind).
      exists o. unfold Sync.step. rewrite Hi'.
      destruct i'; try done; eexists; (split; [done|]); done.
    + exists t. eexists. split; [done|]. unfold Sync.step. rewrite Hi, Ho. done.
  - left. exists t. eexists. split; [done|]. unfold Sync.step. rewrite Hi.
    rewrite decide_True; [done|].
    rewrite Harr. apply callers_all. intros t' Ht'.
    apply (past_mono (pc st t)); [by apply Hmin|].
    by apply static_leave in Hi as [? _].
  - destruct (returns t w) eqn:Hw.
    + left. exists t. eexists. split; [done|]. unfold Sync.step. rewrite Hi, Hw. done.
    + right. by exists t, w.
Qed.

(** A pool in which no thread can take a step has finished, or one of
    its threads is at a work statement that does not return. *)
Lemma stuck_pool (T : nat) (st : state) :
  reachable T st ->
  (forall t, t < T -> step T t st = None) ->
  (forall t, t < T -> pc st t = length worker) \/
  exists t w, t < T /\ worker !! pc st t = Some (Work w) /\ returns t w = false.
Proof.
  intros Hr Hnone.
  pose proof (reachable_barrier_inv _ _ Hr) as [_ Hin _].
  destruct (decide (Forall (fun t => pc st t = length worker) (seq 0 T)))
    as [Hall|Hsome].
  { left. intros t Ht. rewrite list.Forall_forall in Hall.
    apply Hall, elem_of_seq. lia. }
  apply not_Forall_Exists in Hsome; [|apply _].
  apply list.Exists_exists in Hsome as (t0 & Ht0%elem_of_seq & Hpc0).
  destruct (some_thread_steps T st Hr) as [(t' & st' & Ht' & Hstep)|Hdead].
  - exists t0. split; [lia|]. specialize (Hin t0).
    change (pc st t0 <> length worker) in Hpc0. lia.
  - rewrite Hnone in Hstep by done. done.
  - by right.
Qed.

(** X15.  The mutexes and the barriers never block the pool.  In a state
    that an interleaving of the [T] workers reaches: when the work
    statements return, no thread of the pool can take a step if and only
    if every thread of the pool has returned from [worker]; and whatever
    the work statements do, a pool in which no thread can take a step has
    finished, or one of its threads is at a work statement that does not
    return. *)
Theorem pool_stops_only_when_finished (T : nat) (st : state) :
  reachable T st ->
  ((forall t w, t < T -> returns t w = true) ->
   ((forall t, t < T -> step T t st = None) <->
    (forall t, t < T -> pc st t = length worker))) /\
  ((forall t, t < T -> step T t st = None) ->
   (forall t, t < T -> pc st t = length worker) \/
   exists t w, t < T /\ worker !! pc st t = Some (Work w) /\ returns t w = false).
Proof.
  intros Hr.
  pose proof (stuck_pool T st Hr) as Hstuck.
  split; [|exact Hstuck].
  intros Hret. split.
  - intros Hnone. destruct (Hstuck Hnone) as [|(t & w & Ht & _ & Hw)]; [done|].
    rewrite Hret in Hw by done. done.
  - intros Hfin t Ht. unfold Sync.step. rewrite Hfin by done. done.
Qed.

(** *** Progress *)

Lemma sum_list_update (f : nat -> nat) (t n : nat) (l : list nat) :
  NoDup l -> t ∈ l ->
  sum_list (<[t := n]> f <$> l) + f t = sum_list (f <$> l) + n.
Proof.
  induction 1 as [|a l Ha Hl IH]; intros Ht.
  - by apply elem_of_nil in Ht.
  - cbn. apply elem_of_cons in Ht as [<-|Ht].
    + rewrite fn_lookup_insert.
      assert (Heq : <[t := n]> f <$> l = f <$> l).
      { apply list_fmap_ext. intros j a' Ha'%list_elem_of_lookup_2.
        apply fn_lookup_insert_ne. intros ->. done. }
      rewrite Heq. lia.
    + rewrite fn_lookup_insert_ne by (intros ->; done).
      specialize (IH Ht). lia.
Qed.

Lemma progress_step (T t : nat) (st st' : state) :
  t < T -> step T t st = Some st' -> progress T (pc st) < progress T (pc st').
Proof.
  intros Ht Hstep.
  pose proof (step_pc_lt _ _ _ _ Hstep) as [Hlt _].
  pose proof (step_inv _ _ _ _ Hstep) as (i & n & _ & Hpc & _).
  rewrite Hpc, fn_lookup_insert in Hlt. unfold progress. rewrite Hpc.
  pose proof (sum_list_update (pc st) t n (seq 0 T) (NoDup_seq 0 T)) as H.
  rewrite elem_of_seq in H. specialize (H ltac:(lia)). lia.
Qed.

Lemma progress_bound (T : nat) (pcs : nat -> nat) (k : nat) :
  (forall t, pcs t <= k) -> progress T pcs <= k * T.
Proof.
  intros H. unfold progress.
  assert (Hl : forall l : list nat, sum_list (pcs <$> l) <= k * length l).
  { induction l as [|a l IH]; cbn; [lia|]. specialize (H a). lia. }
  specialize (Hl (seq 0 T)). by rewrite length_seq in Hl.
Qed.

Lemma run_progress (T : nat) (sched : list nat) (st st' : state) :
  run T sched st = Some st' ->
  progress T (pc st) + length sched <= progress T (pc st').
Proof.
  revert st. induction sched as [|t sched IH]; intros st; cbn.
  - intros [= <-]. lia.
  - destruct (decide (t < T)) as [Ht|]; [|done].
    intros (st1 & Hstep & Hrun)%bind_Some.
    specialize (IH _ Hrun). pose proof (progress_step _ _ _ _ Ht Hstep). lia.
Qed.

(** X16.  The pool terminates: a schedule that the [T] threads can follow
    from the start, each step being a statement of one thread that is not
    blocked, has at most as many steps as [T] times the statements of
    [worker]. *)
Theorem schedules_are_bounded (T : nat) (sched : list nat) (st : state) :
  run T sched init_state = Some st ->
  length sched <= length worker * T.
Proof.
  intros Hrun.
  assert (Hr : reachable T st) by (eapply run_reachable; [constructor|done]).
  pose proof (reachable_barrier_inv _ _ Hr) as [_ Hin _].
  pose proof (run_progress _ _ _ _ Hrun) as Hp.
  pose proof (progress_bound T (pc st) (length worker) Hin). lia.
Qed.

Lemma run_app (T : nat) (s1 s2 : list nat) (st : state) :
  run T (s1 ++ s2) st = run T s1 st ≫= run T s2.
Proof.
  revert st. induction s1 as [|t s1 IH]; intros st; cbn; [done|].
  destruct (decide (t < T)); [|done].
  destruct (step T t st) as [st1|]; cbn; [apply IH|done].
Qed.

(** A thread that is past a work statement has returned from it. *)
Lemma worked_returns (T : nat) (st : state) (t : nat) (w : work) :
  reachable T st -> worked (pc st t) w = true -> returns t w = true.
Proof.
  induction 1 as [|st u st' Hr IH Hu Hstep]; [by destruct w|].
  pose proof (step_inv _ _ _ _ Hstep) as (i & n & Hi & Hpc & Hn & _).
  rewrite Hpc. destruct (decide (u = t)) as [->|Hne];
    [rewrite fn_lookup_insert|by rewrite fn_lookup_insert_ne].
  destruct (static_work _ _ Hi) as [H1 H2].
  destruct Hn as [->|(f & k & -> & ->)].
  - rewrite H1. case_decide as Hw; [|done]. intros _. subst i.
    unfold Sync.step in Hstep. rewrite Hi in Hstep.
    by destruct (returns t w).
  - by rewrite H2.
Qed.

(** When the work statements return, the pool can run to the end from
    every state that it reaches. *)
Lemma pool_can_finish (T : nat) (st : state) :
  reachable T st -> (forall t w, t < T -> returns t w = true) ->
  exists sched st',
    run T sched st = Some st' /\ forall t, t < T -> pc st' t = length worker.
Proof.
  intros Hr Hret.
  remember (length worker * T - progress T (pc st)) as k eqn:Hk.
  revert st Hr Hk. induction k as [k IH] using lt_wf_ind. intros st Hr Hk.
  pose proof (reachable_barrier_inv _ _ Hr) as [_ Hin _].
  destruct (decide (Forall (fun t => pc st t = length worker) (seq 0 T)))
    as [Hall|Hsome].
  - exists [], st. split; [done|]. intros t Ht.
    rewrite list.Forall_forall in Hall. apply Hall, elem_of_seq. lia.
  - apply not_Forall_Exists in Hsome; [|apply _].
    apply list.Exists_exists in Hsome as (t0 & Ht0%elem_of_seq & Hpc0).
    destruct (some_thread_steps T st Hr) as [(t & st1 & Ht & Hstep)|Hdead].
    { exists t0. split; [lia|]. specialize (Hin t0).
      change (pc st t0 <> length worker) in Hpc0. lia. }
    2: { destruct Hdead as (t & w & Ht & _ & Hw). rewrite Hret in Hw by done. done. }
    pose proof (progress_step _ _ _ _ Ht Hstep) as Hp.
    assert (Hr1 : reachable T st1) by (eapply reachable_step; done).
    pose proof (reachable_barrier_inv _ _ Hr1) as [_ Hin1 _].
    pose proof (progress_bound T (pc st1) (length worker) Hin1) as Hb.
    assert (Hlt : length worker * T - progress T (pc st1) < k) by lia.
    destruct (IH _ Hlt st1 Hr1 eq_refl) as (sched & st' & Hrun & Hfin).
    exists (t :: sched), st'. split; [|done].
    cbn. rewrite decide_True by done.
    change (Sync.step returns T t st) with (step T t st). rewrite Hstep. done.
Qed.

(** X17.  The pool can finish exactly when no work statement dies: from a
    state that an interleaving of the [T] workers reaches, some schedule
    takes every thread of the pool to its [return] if and only if every
    work statement of every thread of the pool returns.  The mutexes and
    the barriers never keep the pool from finishing; a stage function that
    does not return does, for every thread. *)
Theorem pool_runs_to_completion (T : nat) (st : state) :
  reachable T st ->
  (exists sched st',
     run T sched st = Some st' /\ forall t, t < T -> pc st' t = length worker) <->
  (forall t w, t < T -> returns t w = true).
Proof.
  intros Hr. split; [|by apply pool_can_finish].
  intros (sched & st' & Hrun & Hfin) t w Ht.
  apply (worked_returns T st' t w); [by eapply run_reachable|].
  rewrite Hfin by done. by destruct w.
Qed.

(** X18.  When every thread of a pool of [T >= 1] has returned from
    [worker]: no mutex is held, every barrier has counted [T] calls, and
    each of the fields that the guarded bodies assign has been assigned by
    exactly one thread of the pool. *)
Theorem finished_pool_state (T : nat) (st : state) :
  reachable T st -> 0 < T ->
  (forall t, t < T -> pc st t = length worker) ->
  (forall l, owner st l = None) /\
  (forall b, arrived st b = T) /\
  (forall f, exists t0, t0 < T /\ inits st f = [t0]).
Proof.
  intros Hr HT Hfin.
  pose proof (reachable_inv _ _ _ Hr) as [Hown _ Haft Honce Hwho _ _].
  pose proof (reachable_barrier_inv _ _ Hr) as [Harr _ Hpool].
  split; [|split].
  - intros l. destruct (owner st l) as [o|] eqn:Ho; [|done].
    apply Hown in Ho. destruct (decide (o < T)) as [Hlt|Hge].
    + rewrite Hfin in Ho by done. destruct l; vm_compute in Ho; done.
    + rewrite Hpool in Ho by lia. destruct l; vm_compute in Ho; done.
  - intros b. rewrite Harr. apply callers_all. intros t Ht.
    rewrite Hfin by done. destruct b; vm_compute; done.
  - intros f. pose proof (Haft f 0) as Hne. rewrite Hfin in Hne by done.
    specialize (Hne ltac:(destruct f; vm_compute; done)).
    pose proof (Honce f) as Hlen.
    destruct (inits st f) as [|t0 [|t1 l]] eqn:Hf; [done| |cbn in Hlen; lia].
    exists t0. split; [|done]. apply (Hwho f). rewrite Hf. by left.
Qed.

(** C10.  In every state that an interleaving of the [T] workers
    reaches, for each field [f] that a guarded body assigns (the image
    and the scaled buffer, the glyph table, the grid backbone, the
    finished flag and the output file): [f] has been assigned at most
    once; a thread that is past the assignment finds [f] assigned, by
    exactly one thread of the pool; when the sentinel that the guard
    tests is set while [f] is not yet assigned, the one thread that holds
    the guard's lock is the thread in the middle of the body, so that
    nobody else observes the half-built state; once every thread of a
    pool of [T >= 1] has returned, [f] has been assigned, by exactly one
    thread of the pool; an interleaving that cannot be continued ends
    with [f] assigned by exactly one thread, unless a thread has died in
    a work statement; and when the work statements return, every
    interleaving can be continued until every thread has returned, with
    [f] assigned by exactly one thread. *)
Theorem once_init_exactly_once (T : nat) (st : state) :
  reachable T st ->
  forall f,
    length (inits st f) <= 1 /\
    (forall t, t < T -> after_init (pc st t) f = true ->
       exists t0, t0 < T /\ inits st f = [t0]) /\
    (inits st (sentinel f) <> [] -> inits st f = [] ->
       exists t, before_init (pc st t) f = true /\
                 forall t', holds (pc st t') (guard_of f) = true -> t' = t) /\
    (0 < T -> (forall t, t < T -> pc st t = length worker) ->
       exists t0, t0 < T /\ inits st f = [t0]) /\
    (0 < T -> (forall t, t < T -> step T t st = None) ->
       (exists t0, t0 < T /\ inits st f = [t0]) \/
       exists t w, t < T /\ worker !! pc st t = Some (Work w) /\ returns t w = false) /\
    (0 < T -> (forall t w, t < T -> returns t w = true) ->
       exists sched st' t0,
         run T sched st = Some st' /\
         (forall t, t < T -> pc st' t = length worker) /\
         t0 < T /\ inits st' f = [t0]).
Proof.
  intros Hreach f.
  assert (Hpast : forall st0, reachable T st0 ->
            forall t, t < T -> after_init (pc st0 t) f = true ->
              exists t0, t0 < T /\ inits st0 f = [t0]).
  { intros st0 Hr0 t Ht Ha.
    pose proof (reachable_inv _ _ _ Hr0) as [_ _ Haft Honce Hwho _ _].
    pose proof (Haft _ _ Ha) as Hne. pose proof (Honce f) as Hlen.
    destruct (inits st0 f) as [|t0 [|t1 l]] eqn:Hf; [done| |cbn in Hlen; lia].
    exists t0. split; [|done]. apply (Hwho f). rewrite Hf. by left. }
  assert (Hdone : forall st0, reachable T st0 -> 0 < T ->
            (forall t, t < T -> pc st0 t = length worker) ->
            exists t0, t0 < T /\ inits st0 f = [t0]).
  { intros st0 Hr0 HT Hfin. apply (Hpast st0 Hr0 0 HT).
    rewrite Hfin by done. by destruct f. }
  pose proof (reachable_inv _ _ _ Hreach) as Hinv.
  pose proof Hinv as [Hown Hbef Haft Honce Hwho Hord Hpart].
  split; [apply Honce|]. split; [by apply Hpast|]. split; [|split; [|split]].
  - intros Hs Hf. destruct (Hpart f Hs Hf) as [t Hb]. exists t. split; [done|].
    intros t' Hh. eapply inv_exclusive; [done..|]. by apply before_init_holds.
  - by apply Hdone.
  - intros HT Hnone. destruct (stuck_pool T st Hreach Hnone) as [Hfin|Hdead].
    + left. by apply Hdone.
    + by right.
  - intros HT Hret.
    destruct (pool_can_finish T st Hreach Hret) as (sched & st' & Hrun & Hfin).
    destruct (Hdone st') as (t0 & Ht0 & Hone); [by eapply run_reachable|done|done|].
    by exists sched, st', t0.
Qed.

End Steps.

(** *** The theorems at concrete states *)

Lemma final_state_reachable : reachable all_return 2 final_state.
Proof.
  apply (run_reachable all_return 2 two_thread_schedule init_state); [constructor|].
  vm_compute. reflexivity.
Qed.

Lemma waiting_state_reachable : reachable all_return 3 waiting_state.
Proof.
  apply (run_reachable all_return 3 three_thread_prefix init_state); [constructor|].
  vm_compute. reflexivity.
Qed.

Lemma dead_state_reachable : reachable sample_dies 2 dead_state.
Proof.
  apply (run_reachable sample_dies 2 dying_schedule init_state); [constructor|].
  vm_compute. reflexivity.
Qed.

Lemma final_state_finished : forall t, t < 2 -> pc final_state t = length worker.
Proof. intros t Ht. destruct t as [|[|t]]; [reflexivity|reflexivity|lia]. Qed.

Lemma once_init_exactly_once_witness :
  (reachable all_return 2 final_state /\
   after_init (pc final_state 1) F_output = true /\
   0 < 2 /\ (forall t, t < 2 -> pc final_state t = length worker) /\
   (forall t w, t < 2 -> all_return t w = true)) /\
  inits final_state F_output = [0] /\
  length (inits final_state F_output) <= 1 /\
  (forall t, t < 2 -> after_init (pc final_state t) F_output = true ->
     exists t0, t0 < 2 /\ inits final_state F_output = [t0]) /\
  (inits final_state (sentinel F_output) <> [] -> inits final_state F_output = [] ->
     exists t, before_init (pc final_state t) F_output = true /\
               forall t', holds (pc final_state t') (guard_of F_output) = true -> t' = t) /\
  (0 < 2 -> (forall t, t < 2 -> pc final_state t = length worker) ->
     exists t0, t0 < 2 /\ inits final_state F_output = [t0]) /\
  (0 < 2 -> (forall t, t < 2 -> step all_return 2 t final_state = None) ->
     (exists t0, t0 < 2 /\ inits final_state F_output = [t0]) \/
     exists t w, t < 2 /\ worker !! pc final_state t = Some (Work w) /\
                 all_return t w = false) /\
  (0 < 2 -> (forall t w, t < 2 -> all_return t w = true) ->
     exists sched st' t0,
       run all_return 2 sched final_state = Some st' /\
       (forall t, t < 2 -> pc st' t = length worker) /\
       t0 < 2 /\ inits st' F_output = [t0]).
Proof.
  assert (H1 : after_init (pc final_state 1) F_output = true) by (vm_compute; reflexivity).
  assert (H2 : 0 < 2) by lia.
  assert (H3 : forall t w, t < 2 -> all_return t w = true) by reflexivity.
  assert (H4 : inits final_state F_output = [0]) by (vm_compute; reflexivity).
  split; [exact (conj final_state_reachable (conj H1 (conj H2
                   (conj final_state_finished H3))))|].
  split; [exact H4|].
  exact (once_init_exactly_once all_return 2 final_state final_state_reachable F_output).
Defined.

Lemma barrier_separates_stages_witness :
  (reachable all_return 2 final_state /\ 0 < 2 /\ 1 < 2 /\
   released (pc final_state 0) BARRIER_MARCH = true) /\
  past (pc final_state 1) BARRIER_MARCH = true.
Proof.
  assert (H1 : 0 < 2) by lia.
  assert (H2 : 1 < 2) by lia.
  assert (H3 : released (pc final_state 0) BARRIER_MARCH = true)
    by (vm_compute; reflexivity).
  split; [exact (conj final_state_reachable (conj H1 (conj H2 H3)))|].
  exact (barrier_separates_stages all_return 2 final_state BARRIER_MARCH 0 1
           final_state_reachable H1 H2 H3).
Defined.

Lemma critical_sections_exclude_witness :
  (reachable all_return 3 waiting_state /\
   holds (pc waiting_state 1) LOCK_IMAGE_READ = true /\
   holds (pc waiting_state 1) LOCK_IMAGE_READ = true) /\
  1 = 1 /\ owner waiting_state LOCK_IMAGE_READ = Some 1.
Proof.
  assert (H1 : holds (pc waiting_state 1) LOCK_IMAGE_READ = true)
    by (vm_compute; reflexivity).
  split; [exact (conj waiting_state_reachable (conj H1 H1))|].
  exact (critical_sections_exclude all_return 3 waiting_state LOCK_IMAGE_READ 1 1
           waiting_state_reachable H1 H1).
Defined.

Lemma pool_stops_only_when_finished_witness :
  (reachable sample_dies 2 dead_state /\
   forall t, t < 2 -> step sample_dies 2 t dead_state = None) /\
  ((forall t w, t < 2 -> sample_dies t w = true) ->
   ((forall t, t < 2 -> step sample_dies 2 t dead_state = None) <->
    (forall t, t < 2 -> pc dead_state t = length worker))) /\
  ((forall t, t < 2 -> step sample_dies 2 t dead_state = None) ->
   (forall t, t < 2 -> pc dead_state t = length worker) \/
   exists t w, t < 2 /\ worker !! pc dead_state t = Some (Work w) /\
               sample_dies t w = false).
Proof.
  assert (H1 : forall t, t < 2 -> step sample_dies 2 t dead_state = None).
  { intros t Ht. destruct t as [|[|t]]; [reflexivity|reflexivity|lia]. }
  split; [exact (conj dead_state_reachable H1)|].
  exact (pool_stops_only_when_finished sample_dies 2 dead_state dead_state_reachable).
Defined.

Lemma schedules_are_bounded_witness :
  run all_return 2 two_thread_schedule init_state = Some final_state /\
  length two_thread_schedule <= length worker * 2.
Proof.
  assert (H1 : run all_return 2 two_thread_schedule init_state = Some final_state)
    by (vm_compute; reflexivity).
  split; [exact H1|].
  exact (schedules_are_bounded all_return 2 two_thread_schedule final_state H1).
Defined.

Lemma pool_runs_to_completion_witness :
  reachable all_return 3 waiting_state /\
  ((exists sched st',
      run all_return 3 sched waiting_state = Some st' /\
      forall t, t < 3 -> pc st' t = length worker) <->
   (forall t w, t < 3 -> all_return t w = true)).
Proof.
  split; [exact waiting_state_reachable|].
  exact (pool_runs_to_completion all_return 3 waiting_state waiting_state_reachable).
Defined.

Lemma finished_pool_state_witness :
  (reachable all_return 2 final_state /\ 0 < 2 /\
   (forall t, t < 2 -> pc final_state t = length worker)) /\
  (forall l, owner final_state l = None) /\
  (forall b, arrived final_state b = 2) /\
  (forall f, exists t0, t0 < 2 /\ inits final_state f = [t0]).
Proof.
  assert (H1 : 0 < 2) by lia.
  split; [exact (conj final_state_reachable (conj H1 final_state_finished))|].
  exact (finished_pool_state all_return 2 final_state final_state_reachable H1
           final_state_finished).
Defined.

End PoolFacts.
